(** * DiskCache: a disk-backed cache in front of a Keep gateway

    A shallow embedding of [sdk/go/arvados/keep_cache.go] (package
    [arvados]): the path layout ([cacheFile]), the file helpers
    ([openFile], [rename]), the held-open file pool ([quickReadAt],
    [deleteHeldopen]), the read paths ([ReadAt], [BlockRead]), the write
    pass-through ([BlockWrite], with its feeder goroutine) and the eviction
    pass ([tidy], [gotidy]).

    Go values are modelled as the code has them: [int] and [int64] as [Z],
    [string] and [[]byte] as [string] and [list byte], a [map] that may be
    [nil] as an [option] of a [gmap], pointers to [openFileEnt] as
    addresses into a heap, [(n, err)] results as pairs with an
    [option error], and a run-time panic as the [Panic] outcome. *)

From Stdlib Require Import ZArith String Ascii List Lia Permutation Sorted.
From stdpp Require Import base option gmap strings list pretty sorting.

Open Scope string_scope.
Open Scope list_scope.
Open Scope Z_scope.

(** ** Outcomes: a value, or a run-time panic *)

Inductive PanicKind :=
| SliceOutOfRange      (* slice bounds out of range *)
| NilMapAssign         (* assignment to entry in nil map *)
| NilDeref.            (* nil pointer dereference *)

Inductive Res (A : Type) :=
| Ok (a : A)
| Panic (k : PanicKind).
Arguments Ok {A} a.
Arguments Panic {A} k.

Definition is_panic {A} (r : Res A) : bool :=
  match r with Panic _ => true | Ok _ => false end.

(** ** Go strings *)

Module strings.

(** [strings.Index(s, substr)]: index of the first instance, or -1. *)
Definition Index (s substr : string) : Z :=
  match String.index 0 substr s with
  | Some i => Z.of_nat i
  | None => -1
  end.

(** [strings.HasSuffix(s, suffix)]. *)
Definition HasSuffix (s suffix : string) : bool :=
  let n := String.length s in
  let m := String.length suffix in
  (m <=? n)%nat && String.eqb (String.substring (n - m) m s) suffix.

(** [len(s)]. *)
Definition len (s : string) : Z := Z.of_nat (String.length s).

(** [s[:j]]; panics unless [0 <= j <= len(s)]. *)
Definition slice_to (s : string) (j : Z) : Res string :=
  if (0 <=? j) && (j <=? len s)
  then Ok (String.substring 0 (Z.to_nat j) s)
  else Panic SliceOutOfRange.

(** [s[i:]]; panics unless [0 <= i <= len(s)]. *)
Definition slice_from (s : string) (i : Z) : Res string :=
  if (0 <=? i) && (i <=? len s)
  then Ok (String.substring (Z.to_nat i) (String.length s - Z.to_nat i) s)
  else Panic SliceOutOfRange.

(** [strings.Split(s, "/")]: the fields between slashes (never empty). *)
Fixpoint split_slash (s : string) : list string :=
  match s with
  | EmptyString => [EmptyString]
  | String c s' =>
      if Ascii.eqb c "/" then EmptyString :: split_slash s'
      else match split_slash s' with
           | x :: xs => String c x :: xs
           | [] => [String c EmptyString]
           end
  end.

End strings.

(** ** Go's [path/filepath] on Unix *)

Module filepath.

(** One element of the scan in [Clean]; [out] is the stack of kept
    elements, innermost first. *)
Definition clean_step (rooted : bool) (out : list string) (elem : string)
  : list string :=
  if decide (elem = "") then out
  else if decide (elem = ".") then out
  else if decide (elem = "..") then
    match out with
    | top :: rest => if decide (top = "..") then ".." :: out else rest
    | [] => if rooted then [] else [".."]
    end
  else elem :: out.

(** [filepath.Clean]: the shortest equivalent path, lexically. *)
Definition Clean (path : string) : string :=
  if decide (path = "") then "."
  else
    let rooted := String.prefix "/" path in
    let out := rev (fold_left (clean_step rooted) (strings.split_slash path) []) in
    let body := String.concat "/" out in
    if rooted then "/" +:+ body
    else if decide (body = "") then "." else body.

(** [filepath.Join]: leading empty elements are dropped, the rest is
    joined with slashes and cleaned. *)
Fixpoint Join (elem : list string) : string :=
  match elem with
  | [] => ""
  | e :: rest =>
      if decide (e = "") then Join rest
      else Clean (String.concat "/" elem)
  end.

(** Position just after the last slash of [path] (0 if none). *)
Fixpoint after_last_slash (path : string) : nat :=
  match path with
  | EmptyString => 0%nat
  | String c s' =>
      let k := after_last_slash s' in
      if (0 <? k)%nat then S k
      else if Ascii.eqb c "/" then 1%nat else 0%nat
  end.

(** [filepath.Split]: directory part (with its final slash) and file. *)
Definition Split (path : string) : string * string :=
  let k := after_last_slash path in
  (String.substring 0 k path,
   String.substring k (String.length path - k) path).

End filepath.

(** ** Path layout *)

Definition cacheFileSuffix : string := ".keepcacheblock".
Definition tmpFileSuffix : string := ".tmp".

(** The hash part that [cacheFile] keys on: [locator[:i]] when the first
    ["+"] is at an index [i > 0], the whole locator otherwise. *)
Definition cacheFile_hash (locator : string) : Res string :=
  let hash := locator in
  let i := strings.Index hash "+" in
  if 0 <? i then strings.slice_to hash i else Ok hash.

(** [func (cache *DiskCache) cacheFile(locator string) string], as a
    function of [cache.Dir]. *)
Definition cacheFile (Dir : string) (locator : string) : Res string :=
  match cacheFile_hash locator with
  | Panic k => Panic k
  | Ok hash =>
      match strings.slice_to hash 3 with
      | Panic k => Panic k
      | Ok hash3 => Ok (filepath.Join [Dir; hash3; hash +:+ cacheFileSuffix])
      end
  end.

(** ** Bytes, [crypto/md5] and [%x] *)

Abbreviation bytes := (list Byte.byte).

Definition byte_val (b : Byte.byte) : Z := Z.of_N (Byte.to_N b).

Definition byte_of_Z (z : Z) : Byte.byte :=
  match Byte.of_N (Z.to_N (z mod 256)) with
  | Some b => b
  | None => Byte.x00
  end.

Module md5.

Definition w32 (z : Z) : Z := z mod 2 ^ 32.

Definition rotl (x : Z) (c : Z) : Z :=
  w32 (Z.lor (Z.shiftl x c) (Z.shiftr x (32 - c))).

Definition K : list Z :=
  [ 0xd76aa478; 0xe8c7b756; 0x242070db; 0xc1bdceee;
    0xf57c0faf; 0x4787c62a; 0xa8304613; 0xfd469501;
    0x698098d8; 0x8b44f7af; 0xffff5bb1; 0x895cd7be;
    0x6b901122; 0xfd987193; 0xa679438e; 0x49b40821;
    0xf61e2562; 0xc040b340; 0x265e5a51; 0xe9b6c7aa;
    0xd62f105d; 0x02441453; 0xd8a1e681; 0xe7d3fbc8;
    0x21e1cde6; 0xc33707d6; 0xf4d50d87; 0x455a14ed;
    0xa9e3e905; 0xfcefa3f8; 0x676f02d9; 0x8d2a4c8a;
    0xfffa3942; 0x8771f681; 0x6d9d6122; 0xfde5380c;
    0xa4beea44; 0x4bdecfa9; 0xf6bb4b60; 0xbebfbc70;
    0x289b7ec6; 0xeaa127fa; 0xd4ef3085; 0x04881d05;
    0xd9d4d039; 0xe6db99e5; 0x1fa27cf8; 0xc4ac5665;
    0xf4292244; 0x432aff97; 0xab9423a7; 0xfc93a039;
    0x655b59c3; 0x8f0ccc92; 0xffeff47d; 0x85845dd1;
    0x6fa87e4f; 0xfe2ce6e0; 0xa3014314; 0x4e0811a1;
    0xf7537e82; 0xbd3af235; 0x2ad7d2bb; 0xeb86d391 ].

Definition S : list Z :=
  [ 7; 12; 17; 22; 7; 12; 17; 22; 7; 12; 17; 22; 7; 12; 17; 22;
    5; 9; 14; 20; 5; 9; 14; 20; 5; 9; 14; 20; 5; 9; 14; 20;
    4; 11; 16; 23; 4; 11; 16; 23; 4; 11; 16; 23; 4; 11; 16; 23;
    6; 10; 15; 21; 6; 10; 15; 21; 6; 10; 15; 21; 6; 10; 15; 21 ].

(** Little-endian word of four bytes, and back. *)
Definition word_of (bs : bytes) : Z :=
  fold_right (fun b acc => byte_val b + 256 * acc) 0 bs.

Fixpoint le_bytes (n : nat) (w : Z) : bytes :=
  match n with
  | O => []
  | Datatypes.S n' => byte_of_Z w :: le_bytes n' (w / 256)
  end.

(** The message cut into little-endian words, four bytes at a time;
    [fuel] bounds the number of words. *)
Fixpoint words (fuel : nat) (bs : bytes) : list Z :=
  match fuel, bs with
  | O, _ => []
  | _, [] => []
  | Datatypes.S f, _ => word_of (firstn 4 bs) :: words f (skipn 4 bs)
  end.

(** Padding: 0x80, zeros up to 56 mod 64, the bit length on 64 bits. *)
Definition pad (msg : bytes) : bytes :=
  let n := Z.of_nat (List.length msg) in
  let zeros := Z.to_nat ((55 - n) mod 64) in
  msg ++ [Byte.x80] ++ repeat Byte.x00 zeros ++ le_bytes 8 ((8 * n) mod 2 ^ 64).

Definition round_fg (i : Z) (B C D : Z) : Z * Z :=
  let nt x := Z.lxor x 0xffffffff in
  if i <? 16 then (Z.lor (Z.land B C) (Z.land (nt B) D), i)
  else if i <? 32 then (Z.lor (Z.land D B) (Z.land (nt D) C), (5 * i + 1) mod 16)
  else if i <? 48 then (Z.lxor (Z.lxor B C) D, (3 * i + 5) mod 16)
  else (Z.lxor C (Z.lor B (nt D)), (7 * i) mod 16).

Definition State : Type := Z * Z * Z * Z.

Definition step (M : list Z) (st : State) (i : nat) : State :=
  let '(A, B, C, D) := st in
  let '(F, g) := round_fg (Z.of_nat i) B C D in
  let F' := w32 (F + A + nth i K 0 + nth (Z.to_nat g) M 0) in
  (D, w32 (B + rotl F' (nth i S 0)), B, C).

Definition block (st : State) (M : list Z) : State :=
  let '(a0, b0, c0, d0) := st in
  let '(A, B, C, D) := fold_left (step M) (seq 0 64) st in
  (w32 (a0 + A), w32 (b0 + B), w32 (c0 + C), w32 (d0 + D)).

(** The padded message, sixteen words at a time. *)
Fixpoint blocks (fuel : nat) (st : State) (ws : list Z) : State :=
  match fuel, ws with
  | O, _ => st
  | _, [] => st
  | Datatypes.S f, _ => blocks f (block st (firstn 16 ws)) (skipn 16 ws)
  end.

Definition init : State := (0x67452301, 0xefcdab89, 0x98badcfe, 0x10325476).

(** [md5.Sum(data)] (equally: [h := md5.New(); h.Write(data); h.Sum(nil)]). *)
Definition Sum (msg : bytes) : bytes :=
  let p := pad msg in
  let ws := words (List.length p) p in
  let '(A, B, C, D) := blocks (List.length ws) init ws in
  le_bytes 4 A ++ le_bytes 4 B ++ le_bytes 4 C ++ le_bytes 4 D.

End md5.

(** [fmt.Sprintf("%x", b)]: two lower-case hexadecimal digits per byte. *)
Definition hex_digit (n : Z) : ascii :=
  if n <? 10 then ascii_of_nat (Z.to_nat (48 + n))
  else ascii_of_nat (Z.to_nat (87 + n)).

Fixpoint hex (b : bytes) : string :=
  match b with
  | [] => EmptyString
  | x :: r =>
      String (hex_digit (byte_val x / 16))
        (String (hex_digit (byte_val x mod 16)) (hex r))
  end.

(** The bytes of a string literal. *)
Definition bytes_of (s : string) : bytes := String.list_byte_of_string s.

(** ** Errors *)

Inductive Errno :=
| ENOENT | EEXIST | EACCES | EIO | ENOSPC | EMFILE | EROFS
| EISDIR | EBADF | EINVAL | EWOULDBLOCK.

Inductive error :=
| ErrSys (op : string) (path : string) (e : Errno)
    (* an [*fs.PathError] or a [syscall.Errno] *)
| ErrNegativeOffset                (* [File.ReadAt] with a negative offset *)
| ErrEOF                           (* [io.EOF] *)
| ErrClosedPipe                    (* [io.ErrClosedPipe] *)
| ErrLostRace                      (* [quickReadAtLostRace] *)
| ErrNoSizeHint                    (* "invalid block locator: no size hint" *)
| ErrInvalidSizeHint               (* "invalid block locator: invalid size hint" *)
| ErrFailed (what : string) (path : string) (inner : error)
    (* [fmt.Errorf("<what> failed: %w", inner)] with [what] one of
       flock(path, lock_sh), flock(path, lock_ex), seek(path, seek_end),
       seek(path, seek_start) *)
| ErrSizeMismatch (n provided : Z)
    (* "block size %d did not match provided size %d" *)
| ErrHashMismatch (hash provided : string)
    (* "block hash %s did not match provided hash %s" *)
| ErrUpstream (tag : Z)            (* an error of the wrapped gateway *)
| ErrSource (tag : Z).             (* an error of the caller's reader *)

(** [os.IsNotExist(err)]. *)
Definition IsNotExist (err : option error) : bool :=
  match err with
  | Some (ErrSys _ _ ENOENT) => true
  | _ => false
  end.

(** ** The wrapped gateway *)

(** The fields of [BlockWriteOptions] the cache looks at; [Reader] is
    the sequence of chunks the caller's reader yields, closed by EOF
    ([None]) or by an error. The remaining fields travel in [Rest]. *)
Record Reader := { chunks : list bytes; final : option error }.

Record BlockWriteOptions := {
  Hash : string;
  Data : option bytes;          (* [nil] or a slice *)
  Reader_ : option Reader;      (* [nil] or a reader *)
  DataSize : Z;
  Rest : string;
}.

Record BlockWriteResponse := { Locator : string; Replicas : Z }.

(** What a [Read] on the source handed to the gateway gives. *)
Inductive ReadRes :=
| RData (b : bytes)
| REOF
| RErr (e : error).

(** A call of the gateway's [BlockWrite], as the sequence of its
    interactions with the cache: reads of at most [max] bytes from the
    reader it was given, looks at its context, and its return. *)
Inductive UpProc :=
| UpReturn (resp : BlockWriteResponse) (err : option error)
| UpRead (max : nat) (k : ReadRes -> UpProc)
| UpCtxDone (k : bool -> UpProc).

Inductive GwCall :=
| GwReadAt (locator : string) (len_dst : Z) (offset : Z)
| GwBlockRead (locator : string)
| GwBlockWrite (opts : BlockWriteOptions) (piped : bool).

(** The [KeepGateway] interface. The wrapped gateway is a black box with
    a state of its own: each answer is a function of the calls made so
    far (latest first). [gw_ReadAt] answers with the bytes it put in
    [dst] (their number is [n]) and an error; [gw_BlockRead] with the
    bytes it wrote to [WriteTo], the count it returns, and an error. *)
Record KeepGateway := {
  gw_ReadAt : list GwCall -> string -> Z -> Z -> bytes * option error;
  gw_BlockRead : list GwCall -> string -> bytes * Z * option error;
  gw_BlockWrite : list GwCall -> BlockWriteOptions -> UpProc;
  gw_LocalLocator : string -> string * option error;
}.

(** ** The operating system and the process *)

(** Open flags of Linux. *)
Definition O_RDONLY : Z := 0.
Definition O_WRONLY : Z := 1.
Definition O_RDWR : Z := 2.
Definition O_CREATE : Z := 0x40.
Definition O_EXCL : Z := 0x80.

Definition has_flag (flags flag : Z) : bool := negb (Z.land flags flag =? 0).

Inductive LockHow := LOCK_SH | LOCK_EX | LOCK_EX_NB.
Inductive Whence := SeekStart | SeekEnd.

Inductive Syscall :=
| SysOpen (name : string) (flags : Z)
| SysMkdir (name : string)
| SysRename (old new : string)
| SysUnlink (name : string)
| SysFlock (fd : nat) (how : LockHow)
| SysSeek (fd : nat) (offset : Z) (whence : Whence)
| SysPread (fd : nat) (len : Z) (offset : Z)
| SysWrite (fd : nat) (data : bytes)
| SysTruncate (fd : nat) (size : Z)
| SysClose (fd : nat)
| SysGetrlimit
| SysStatfs (name : string).

Inductive Event :=
| EvSys (c : Syscall) (err : option Errno)
| EvGw (c : GwCall).

Record Inode := { i_data : bytes; i_atime : Z }.

(** An open file description. *)
Record OpenFile := { of_name : string; of_ino : nat; of_off : Z }.

Record openFileEnt := {
  ofe_f : option nat;       (* [f *os.File], as a descriptor *)
  ofe_err : option error;   (* [err]: if err is non-nil, f should not be used. *)
}.

(** Goroutines started with [go] and not yet run. *)
Inductive Task :=
| GoDeleteHeldopen (cachefilename : string) (heldopen : nat)
| GoCloseAll (m : gmap string nat)
| GoTidy.

Record DiskCache := {
  Dir : string;
  MaxSize : Z;
  tidying : Z;
  tidyHoldUntil : Z;
  defaultMaxSize : Z;
  heldopen : option (gmap string nat);   (* [nil], or a map to [*openFileEnt] *)
  heldopenMax : Z;
}.

(** The state a call runs in: the [DiskCache] value, the heap of
    [openFileEnt] objects, the goroutines waiting to run, the file
    system (regular files by path, directories, inodes), the descriptor
    table, what the environment will answer (the faults the kernel is
    going to report, one entry per fallible system call, the soft limit
    on open files, the free space, the clock) and the log of system and
    gateway calls, latest first. *)
Record World := {
  cache : DiskCache;
  heap : gmap nat openFileEnt;
  goroutines : list Task;
  files : gmap string nat;
  dirs : gset string;
  inodes : gmap nat Inode;
  fds : gmap nat OpenFile;
  faults : list (option Errno);
  rlimit_nofile : option Z;
  statfs : option (Z * Z);         (* Bavail, Bsize *)
  now : Z;                         (* nanoseconds *)
  trace : list Event;
}.

(** Field updates. *)
Definition set_cache (x : DiskCache) (w : World) : World :=
  {| cache := x; heap := heap w; goroutines := goroutines w; files := files w;
     dirs := dirs w; inodes := inodes w; fds := fds w; faults := faults w;
     rlimit_nofile := rlimit_nofile w; statfs := statfs w; now := now w;
     trace := trace w |}.
Definition set_heap (x : gmap nat openFileEnt) (w : World) : World :=
  {| cache := cache w; heap := x; goroutines := goroutines w; files := files w;
     dirs := dirs w; inodes := inodes w; fds := fds w; faults := faults w;
     rlimit_nofile := rlimit_nofile w; statfs := statfs w; now := now w;
     trace := trace w |}.
Definition set_goroutines (x : list Task) (w : World) : World :=
  {| cache := cache w; heap := heap w; goroutines := x; files := files w;
     dirs := dirs w; inodes := inodes w; fds := fds w; faults := faults w;
     rlimit_nofile := rlimit_nofile w; statfs := statfs w; now := now w;
     trace := trace w |}.
Definition set_files (x : gmap string nat) (w : World) : World :=
  {| cache := cache w; heap := heap w; goroutines := goroutines w; files := x;
     dirs := dirs w; inodes := inodes w; fds := fds w; faults := faults w;
     rlimit_nofile := rlimit_nofile w; statfs := statfs w; now := now w;
     trace := trace w |}.
Definition set_dirs (x : gset string) (w : World) : World :=
  {| cache := cache w; heap := heap w; goroutines := goroutines w; files := files w;
     dirs := x; inodes := inodes w; fds := fds w; faults := faults w;
     rlimit_nofile := rlimit_nofile w; statfs := statfs w; now := now w;
     trace := trace w |}.
Definition set_inodes (x : gmap nat Inode) (w : World) : World :=
  {| cache := cache w; heap := heap w; goroutines := goroutines w; files := files w;
     dirs := dirs w; inodes := x; fds := fds w; faults := faults w;
     rlimit_nofile := rlimit_nofile w; statfs := statfs w; now := now w;
     trace := trace w |}.
Definition set_fds (x : gmap nat OpenFile) (w : World) : World :=
  {| cache := cache w; heap := heap w; goroutines := goroutines w; files := files w;
     dirs := dirs w; inodes := inodes w; fds := x; faults := faults w;
     rlimit_nofile := rlimit_nofile w; statfs := statfs w; now := now w;
     trace := trace w |}.
Definition set_faults (x : list (option Errno)) (w : World) : World :=
  {| cache := cache w; heap := heap w; goroutines := goroutines w; files := files w;
     dirs := dirs w; inodes := inodes w; fds := fds w; faults := x;
     rlimit_nofile := rlimit_nofile w; statfs := statfs w; now := now w;
     trace := trace w |}.
Definition set_trace (x : list Event) (w : World) : World :=
  {| cache := cache w; heap := heap w; goroutines := goroutines w; files := files w;
     dirs := dirs w; inodes := inodes w; fds := fds w; faults := faults w;
     rlimit_nofile := rlimit_nofile w; statfs := statfs w; now := now w;
     trace := x |}.

Definition set_tidying (x : Z) (c : DiskCache) : DiskCache :=
  {| Dir := Dir c; MaxSize := MaxSize c; tidying := x;
     tidyHoldUntil := tidyHoldUntil c; defaultMaxSize := defaultMaxSize c;
     heldopen := heldopen c; heldopenMax := heldopenMax c |}.
Definition set_tidyHoldUntil (x : Z) (c : DiskCache) : DiskCache :=
  {| Dir := Dir c; MaxSize := MaxSize c; tidying := tidying c;
     tidyHoldUntil := x; defaultMaxSize := defaultMaxSize c;
     heldopen := heldopen c; heldopenMax := heldopenMax c |}.
Definition set_defaultMaxSize (x : Z) (c : DiskCache) : DiskCache :=
  {| Dir := Dir c; MaxSize := MaxSize c; tidying := tidying c;
     tidyHoldUntil := tidyHoldUntil c; defaultMaxSize := x;
     heldopen := heldopen c; heldopenMax := heldopenMax c |}.
Definition set_heldopen (x : option (gmap string nat)) (c : DiskCache) : DiskCache :=
  {| Dir := Dir c; MaxSize := MaxSize c; tidying := tidying c;
     tidyHoldUntil := tidyHoldUntil c; defaultMaxSize := defaultMaxSize c;
     heldopen := x; heldopenMax := heldopenMax c |}.
Definition set_heldopenMax (x : Z) (c : DiskCache) : DiskCache :=
  {| Dir := Dir c; MaxSize := MaxSize c; tidying := tidying c;
     tidyHoldUntil := tidyHoldUntil c; defaultMaxSize := defaultMaxSize c;
     heldopen := heldopen c; heldopenMax := x |}.

(** ** Stateful code: a state monad over [World] that a panic cuts short *)

Definition M (A : Type) : Type := World -> Res A * World.

Definition ret {A} (a : A) : M A := fun w => (Ok a, w).

Definition bind {A B} (m : M A) (k : A -> M B) : M B :=
  fun w =>
    match m w with
    | (Ok a, w') => k a w'
    | (Panic p, w') => (Panic p, w')
    end.

Definition lift {A} (r : Res A) : M A := fun w => (r, w).
Definition get : M World := fun w => (Ok w, w).
Definition modify (g : World -> World) : M unit := fun w => (Ok tt, g w).

Notation "x <- m ;; k" := (bind m (fun x => k))
  (at level 20, m at level 99, k at level 200, only parsing).
Notation "' pat <- m ;; k" := (bind m (fun pat => k))
  (at level 20, pat pattern, m at level 99, k at level 200, only parsing).
Notation "'do' m ;; k" := (bind m (fun _ => k))
  (at level 20, m at level 99, k at level 200, only parsing).

Definition log (e : Event) : M unit :=
  modify (fun w => set_trace (e :: trace w) w).

(** The next entry of the fault plan: [Some e] makes the system call
    about to run fail with [e]; an exhausted plan means no more faults. *)
Definition next_fault : M (option Errno) :=
  fun w =>
    match faults w with
    | [] => (Ok None, w)
    | x :: rest => (Ok x, set_faults rest w)
    end.

Definition go (t : Task) : M unit :=
  modify (fun w => set_goroutines (goroutines w ++ [t]) w).

(** *** System calls *)

Definition parent_dir (name : string) : string :=
  filepath.Clean (fst (filepath.Split name)).

Definition dir_exists (w : World) (d : string) : bool :=
  bool_decide (d = ".") || bool_decide (d = "/") || bool_decide (d ∈ dirs w).

Definition new_fd (name : string) (ino : nat) : M nat :=
  w <- get ;;
  let fd := fresh (dom (fds w)) in
  do modify (set_fds (<[fd := {| of_name := name; of_ino := ino; of_off := 0 |}]> (fds w))) ;;
  ret fd.

Definition inode_size (w : World) (ino : nat) : Z :=
  match inodes w !! ino with
  | Some i => Z.of_nat (List.length (i_data i))
  | None => 0
  end.

(** [os.OpenFile(name, flags, 0600)]. *)
Definition os_OpenFile (name : string) (flags : Z) : M (option nat * option error) :=
  flt <- next_fault ;;
  w <- get ;;
  let fail e :=
    do log (EvSys (SysOpen name flags) (Some e)) ;;
    ret (None, Some (ErrSys "open" name e)) in
  let succeed ino :=
    do log (EvSys (SysOpen name flags) None) ;;
    fd <- new_fd name ino ;;
    ret (Some fd, None) in
  match flt with
  | Some e => fail e
  | None =>
      match files w !! name with
      | Some ino =>
          if has_flag flags O_CREATE && has_flag flags O_EXCL then fail EEXIST
          else succeed ino
      | None =>
          if bool_decide (name ∈ dirs w) then fail EISDIR
          else if has_flag flags O_CREATE then
            if dir_exists w (parent_dir name) then
              let ino := fresh (dom (inodes w)) in
              do modify (fun w =>
                set_files (<[name := ino]> (files w))
                  (set_inodes (<[ino := {| i_data := []; i_atime := now w |}]> (inodes w)) w)) ;;
              succeed ino
            else fail ENOENT
          else fail ENOENT
      end
  end.

(** [os.Mkdir(name, 0700)]. *)
Definition os_Mkdir (name : string) : M (option error) :=
  flt <- next_fault ;;
  w <- get ;;
  let p := filepath.Clean name in
  let fail e :=
    do log (EvSys (SysMkdir name) (Some e)) ;; ret (Some (ErrSys "mkdir" name e)) in
  match flt with
  | Some e => fail e
  | None =>
      if dir_exists w p || bool_decide (is_Some (files w !! p)) then fail EEXIST
      else if dir_exists w (parent_dir p) then
        do modify (set_dirs ({[p]} ∪ dirs w)) ;;
        do log (EvSys (SysMkdir name) None) ;;
        ret None
      else fail ENOENT
  end.

(** [os.Rename(old, new)]. *)
Definition os_Rename (old new : string) : M (option error) :=
  flt <- next_fault ;;
  w <- get ;;
  let fail e :=
    do log (EvSys (SysRename old new) (Some e)) ;; ret (Some (ErrSys "rename" old e)) in
  match flt with
  | Some e => fail e
  | None =>
      match files w !! old with
      | None => fail ENOENT
      | Some ino =>
          if bool_decide (new ∈ dirs w) then fail EISDIR
          else if dir_exists w (parent_dir new) then
            do modify (set_files (<[new := ino]> (delete old (files w)))) ;;
            do log (EvSys (SysRename old new) None) ;;
            ret None
          else fail ENOENT
      end
  end.

(** [os.Remove(name)]; both callers discard its result, and unlinking
    an existing file is taken to succeed. *)
Definition os_Remove (name : string) : M unit :=
  w <- get ;;
  match files w !! name with
  | Some _ =>
      do modify (set_files (delete name (files w))) ;;
      log (EvSys (SysUnlink name) None)
  | None => log (EvSys (SysUnlink name) (Some ENOENT))
  end.

(** [syscall.Flock(int(f.Fd()), how)]. Only the outcome is modelled:
    the call fails when the kernel says so. *)
Definition syscall_Flock (fd : nat) (how : LockHow) : M (option error) :=
  flt <- next_fault ;;
  w <- get ;;
  let fail e :=
    do log (EvSys (SysFlock fd how) (Some e)) ;; ret (Some (ErrSys "flock" "" e)) in
  match flt with
  | Some e => fail e
  | None =>
      match fds w !! fd with
      | None => fail EBADF
      | Some _ => do log (EvSys (SysFlock fd how) None) ;; ret None
      end
  end.

(** [f.Seek(offset, whence)]. *)
Definition File_Seek (fd : nat) (offset : Z) (whence : Whence) : M (Z * option error) :=
  flt <- next_fault ;;
  w <- get ;;
  let fail name e :=
    do log (EvSys (SysSeek fd offset whence) (Some e)) ;;
    ret (0, Some (ErrSys "seek" name e)) in
  match flt with
  | Some e => fail "" e
  | None =>
      match fds w !! fd with
      | None => fail "" EBADF
      | Some o =>
          let pos := match whence with
                     | SeekStart => offset
                     | SeekEnd => inode_size w (of_ino o) + offset
                     end in
          if pos <? 0 then fail (of_name o) EINVAL
          else
            do modify (set_fds (<[fd := {| of_name := of_name o; of_ino := of_ino o; of_off := pos |}]> (fds w))) ;;
            do log (EvSys (SysSeek fd offset whence) None) ;;
            ret (pos, None)
      end
  end.

(** [f.ReadAt(dst, off)] with [len(dst) = len]: the bytes read, and
    [io.EOF] when they are fewer than [len]. *)
Definition File_ReadAt (fd : nat) (len : Z) (off : Z) : M (bytes * option error) :=
  if off <? 0 then ret ([], Some ErrNegativeOffset)
  else
    flt <- next_fault ;;
    w <- get ;;
    let fail name e :=
      do log (EvSys (SysPread fd len off) (Some e)) ;;
      ret ([], Some (ErrSys "read" name e)) in
    match flt with
    | Some e => fail "" e
    | None =>
        match fds w !! fd with
        | None => fail "" EBADF
        | Some o =>
            match inodes w !! of_ino o with
            | None => fail (of_name o) EBADF
            | Some i =>
                let data := take (Z.to_nat len) (drop (Z.to_nat off) (i_data i)) in
                do modify (set_inodes (<[of_ino o := {| i_data := i_data i; i_atime := now w |}]> (inodes w))) ;;
                do log (EvSys (SysPread fd len off) None) ;;
                ret (data,
                     if Z.of_nat (List.length data) <? len then Some ErrEOF else None)
            end
        end
    end.

(** Bytes [data] put at position [pos] of [old] (zero-filled gap). *)
Definition overwrite (old : bytes) (pos : nat) (data : bytes) : bytes :=
  take pos old ++ repeat Byte.x00 (pos - List.length old) ++ data
    ++ drop (pos + List.length data) old.

(** A write of [data] at the file offset once the kernel accepts it. *)
Definition File_Write_ok (fd : nat) (data : bytes) : M (Z * option error) :=
  w <- get ;;
  let fail name e :=
    do log (EvSys (SysWrite fd data) (Some e)) ;;
    ret (0, Some (ErrSys "write" name e)) in
  match fds w !! fd with
  | None => fail "" EBADF
  | Some o =>
      match inodes w !! of_ino o with
      | None => fail (of_name o) EBADF
      | Some i =>
          let n := Z.of_nat (List.length data) in
          do modify (fun w =>
            set_inodes (<[of_ino o := {| i_data := overwrite (i_data i) (Z.to_nat (of_off o)) data;
                                         i_atime := i_atime i |}]> (inodes w))
              (set_fds (<[fd := {| of_name := of_name o; of_ino := of_ino o;
                                   of_off := of_off o + n |}]> (fds w)) w)) ;;
          do log (EvSys (SysWrite fd data) None) ;;
          ret (n, None)
      end
  end.

(** [f.Write(data)]. *)
Definition File_Write (fd : nat) (data : bytes) : M (Z * option error) :=
  flt <- next_fault ;;
  match flt with
  | Some e =>
      do log (EvSys (SysWrite fd data) (Some e)) ;;
      ret (0, Some (ErrSys "write" "" e))
  | None => File_Write_ok fd data
  end.

(** [f.Truncate(size)]; its caller discards the result. *)
Definition File_Truncate (fd : nat) (size : Z) : M unit :=
  w <- get ;;
  match fds w !! fd with
  | None => log (EvSys (SysTruncate fd size) (Some EBADF))
  | Some o =>
      match inodes w !! of_ino o with
      | None => log (EvSys (SysTruncate fd size) (Some EBADF))
      | Some i =>
          if size <? 0 then log (EvSys (SysTruncate fd size) (Some EINVAL))
          else
            let n := Z.to_nat size in
            do modify (set_inodes (<[of_ino o := {| i_data := take n (i_data i)
                                                   ++ repeat Byte.x00 (n - List.length (i_data i));
                                                 i_atime := i_atime i |}]> (inodes w))) ;;
            log (EvSys (SysTruncate fd size) None)
      end
  end.

(** [f.Close()]. A file already closed gives [os.ErrClosed] without a
    system call; otherwise the descriptor is released even when the
    kernel reports an error. *)
Definition File_Close (fd : nat) : M (option error) :=
  w <- get ;;
  match fds w !! fd with
  | None => ret (Some (ErrSys "close" "" EBADF))
  | Some o =>
      flt <- next_fault ;;
      do modify (fun w => set_fds (delete fd (fds w)) w) ;;
      do log (EvSys (SysClose fd) flt) ;;
      ret (match flt with
           | Some e => Some (ErrSys "close" (of_name o) e)
           | None => None
           end)
  end.

(** The rest of the file from the file offset on, as [io.Copy(dst, f)]
    reads it; the offset moves to the end. *)
Definition File_ReadAll (fd : nat) : M (bytes * option error) :=
  flt <- next_fault ;;
  w <- get ;;
  match flt with
  | Some e => ret ([], Some (ErrSys "read" "" e))
  | None =>
      match fds w !! fd with
      | None => ret ([], Some (ErrSys "read" "" EBADF))
      | Some o =>
          match inodes w !! of_ino o with
          | None => ret ([], Some (ErrSys "read" (of_name o) EBADF))
          | Some i =>
              let data := drop (Z.to_nat (of_off o)) (i_data i) in
              do modify (fun w =>
                set_inodes (<[of_ino o := {| i_data := i_data i; i_atime := now w |}]> (inodes w))
                  (set_fds (<[fd := {| of_name := of_name o; of_ino := of_ino o;
                                       of_off := of_off o + Z.of_nat (List.length data) |}]> (fds w)) w)) ;;
              ret (data, None)
          end
      end
  end.

(** ** Machine integers *)

Definition int32 (z : Z) : Z := (z + 2 ^ 31) mod 2 ^ 32 - 2 ^ 31.
Definition int64 (z : Z) : Z := (z + 2 ^ 63) mod 2 ^ 64 - 2 ^ 63.

(** ** [strconv] *)

Module strconv.

Definition digit (c : ascii) : option Z :=
  let n := Z.of_nat (nat_of_ascii c) in
  if (48 <=? n) && (n <=? 57) then Some (n - 48) else None.

Fixpoint digits (s : string) (acc : Z) : option Z :=
  match s with
  | EmptyString => Some acc
  | String c r =>
      match digit c with
      | Some d => digits r (10 * acc + d)
      | None => None
      end
  end.

(** [strconv.ParseInt(s, 10, 32)]: [None] stands for a non-nil error
    (syntax or range). *)
Definition ParseInt32 (s : string) : option Z :=
  match s with
  | EmptyString => None
  | String c r =>
      let '(neg, body) :=
        if Ascii.eqb c "+" then (false, r)
        else if Ascii.eqb c "-" then (true, r)
        else (false, s) in
      match body with
      | EmptyString => None
      | _ =>
          match digits body 0 with
          | None => None
          | Some un =>
              if neg then (if un >? 2 ^ 31 then None else Some (- un))
              else (if un >=? 2 ^ 31 then None else Some un)
          end
      end
  end.

End strconv.

(** ** The cache *)

Definition tidyHoldDuration : Z := 10 * 1000000000.

(** What [tidy] reports through its logger: the usage it found and the
    budget, then the number of files it deleted and the usage left. *)
Record entT := { ent_path : string; ent_atime : Z; ent_size : Z }.

Record TidyReport := {
  checked : option (Z * Z);        (* totalsize, maxsize *)
  remaining : option (Z * Z);      (* deleted, totalsize *)
}.

Definition upd_cache (g : DiskCache -> DiskCache) : M unit :=
  modify (fun w => set_cache (g (cache w)) w).

Definition gw_history (w : World) : list GwCall :=
  omap (fun e => match e with EvGw c => Some c | EvSys _ _ => None end) (trace w).

Section Ops.

(** The wrapped [KeepGateway] and the order [sort.Slice] leaves the
    slice in (it promises a sorted permutation and nothing about equal
    elements). *)
Variable gw : KeepGateway.
Variable sort_Slice : (entT -> entT -> bool) -> list entT -> list entT.

Definition upstream_ReadAt (locator : string) (len_dst offset : Z)
  : M (bytes * option error) :=
  w <- get ;;
  do log (EvGw (GwReadAt locator len_dst offset)) ;;
  ret (gw_ReadAt gw (gw_history w) locator len_dst offset).

(** [cache.KeepGateway.BlockRead(ctx, BlockReadOptions{Locator, WriteTo})];
    [sink] is what a write to [WriteTo] does, and such writes are taken
    to succeed. *)
Definition upstream_BlockRead (locator : string) (sink : bytes -> M unit)
  : M (Z * option error) :=
  w <- get ;;
  let '(data, n, err) := gw_BlockRead gw (gw_history w) locator in
  do log (EvGw (GwBlockRead locator)) ;;
  do sink data ;;
  ret (n, err).

(** Open a cache file, creating the parent dir if necessary. *)
Definition openFile (name : string) (flags : Z) : M (option nat * option error) :=
  '(f, err) <- os_OpenFile name flags ;;
  if IsNotExist err then
    let '(parent, _) := filepath.Split name in
    do os_Mkdir parent ;;
    os_OpenFile name flags
  else ret (f, err).

(** Rename a file, creating the new path's parent dir if necessary. *)
Definition rename (old new : string) : M (option error) :=
  e <- os_Rename old new ;;
  match e with
  | None => ret None
  | Some _ =>
      let '(parent, _) := filepath.Split new in
      do os_Mkdir parent ;;
      os_Rename old new
  end.

(** Start a tidy() goroutine, unless one is already running / recently
    finished. *)
Definition gotidy : M unit :=
  w <- get ;;
  let n := int32 (tidying (cache w) + 1) in
  do upd_cache (set_tidying n) ;;
  if negb (n =? 1) || (now w <? tidyHoldUntil (cache w)) then
    upd_cache (fun c => set_tidying (int32 (tidying c - 1)) c)
  else go GoTidy.

Definition deleteHeldopen (cachefilename : string) (heldopen_ : nat) : M unit :=
  w <- get ;;
  match heldopen (cache w) with
  | Some m =>
      if bool_decide (m !! cachefilename = Some heldopen_)
      then upd_cache (set_heldopen (Some (delete cachefilename m)))
      else ret tt
  | None => ret tt
  end.

Definition set_ent (a : nat) (e : openFileEnt) : M unit :=
  modify (fun w => set_heap (<[a := e]> (heap w)) w).

(** Lines 280-294: choose a reasonable limit on open cache files based
    on RLIMIT_NOFILE, the first time (and as long as the limit chosen
    is 0). *)
Definition choose_heldopenMax : M unit :=
  w <- get ;;
  if heldopenMax (cache w) =? 0 then
    do log (EvSys SysGetrlimit
              (match rlimit_nofile w with None => Some EINVAL | Some _ => None end)) ;;
    match rlimit_nofile w with
    | None => upd_cache (set_heldopenMax 256)
    | Some cur =>
        if cur >? 40000 then upd_cache (set_heldopenMax 10000)
        else upd_cache (set_heldopenMax (cur / 4))
    end
  else ret tt.

(** [quickReadAt], the part under [cache.heldopenLock] (lines 279-323):
    the entry to use and whether this call made it. *)
Definition quickReadAt_locked (cachefilename : string) : M (nat * bool) :=
  do choose_heldopenMax ;;
  w <- get ;;
  match heldopen (cache w) ≫= (fun m => m !! cachefilename) with
  | Some a => ret (a, false)
  | None =>
      let a := fresh (dom (heap w)) in
      do set_ent a {| ofe_f := None; ofe_err := None |} ;;
      do match heldopen (cache w) with
         | None => upd_cache (set_heldopen (Some ∅))
         | Some m =>
             if Z.of_nat (size m) >? heldopenMax (cache w) then
               do go (GoCloseAll m) ;;
               upd_cache (set_heldopen None)
             else ret tt
         end ;;
      w <- get ;;
      match heldopen (cache w) with
      | None => lift (Panic NilMapAssign)
      | Some m =>
          do upd_cache (set_heldopen (Some (<[cachefilename := a]> m))) ;;
          ret (a, true)
      end
  end.

(** Lines 325-343: the call that made the entry opens and flocks the
    file. *)
Definition open_heldopen (cachefilename : string) (a : nat) : M unit :=
  '(fo, err0) <- os_OpenFile cachefilename O_RDONLY ;;
  err1 <- match err0, fo with
          | None, Some fd =>
              e <- syscall_Flock fd LOCK_SH ;;
              match e with
              | None =>
                  do set_ent a {| ofe_f := Some fd; ofe_err := None |} ;;
                  ret None
              | Some _ => do File_Close fd ;; ret e
              end
          | _, _ => ret err0
          end ;;
  match err1 with
  | Some e =>
      w <- get ;;
      do set_ent a {| ofe_f := heap w !! a ≫= ofe_f; ofe_err := Some e |} ;;
      go (GoDeleteHeldopen cachefilename a)
  | None => ret tt
  end.

(** [quickReadAt]: read through a file handle that is kept open. *)
Definition quickReadAt (cachefilename : string) (len_dst offset : Z)
  : M (bytes * option error) :=
  '(a, isnew) <- quickReadAt_locked cachefilename ;;
  do (if isnew : bool then open_heldopen cachefilename a else ret tt) ;;
  w <- get ;;
  match heap w !! a with
  | None => lift (Panic NilDeref)
  | Some ent =>
      match ofe_err ent, ofe_f ent with
      | Some e, _ => ret ([], Some e)
      | None, None => ret ([], Some ErrLostRace)
      | None, Some fd =>
          '(data, e) <- File_ReadAt fd len_dst offset ;;
          do match e with
             | Some _ => go (GoDeleteHeldopen cachefilename a)
             | None => ret tt
             end ;;
          ret (data, e)
      end
  end.

(** [ReadAt] after [quickReadAt] gave an error: lines 214-258. *)
Definition ReadAt_slow (locator cachefilename : string) (len_dst offset : Z)
  : M (bytes * option error) :=
  '(fo, err) <- openFile cachefilename (Z.lor O_CREATE O_RDWR) ;;
  match err, fo with
  | None, Some fd =>
      r <- (e <- syscall_Flock fd LOCK_SH ;;
            match e with
            | Some e => ret ([], Some (ErrFailed "flock(lock_sh)" cachefilename e))
            | None =>
            '(size, e) <- File_Seek fd 0 SeekEnd ;;
            match e with
            | Some e => ret ([], Some (ErrFailed "seek(seek_end)" cachefilename e))
            | None =>
            e <- (if size <? int64 (len_dst + offset)
                  then syscall_Flock fd LOCK_EX else ret None) ;;
            match e with
            | Some e => ret ([], Some (ErrFailed "flock(lock_ex)" cachefilename e))
            | None =>
            '(size, e) <- File_Seek fd 0 SeekEnd ;;
            match e with
            | Some e => ret ([], Some (ErrFailed "seek(seek_end)" cachefilename e))
            | None =>
            if size <? int64 (len_dst + offset) then
              '(_, e) <- File_Seek fd 0 SeekStart ;;
              match e with
              | Some e => ret ([], Some (ErrFailed "seek(seek_start)" cachefilename e))
              | None =>
                  '(n, e) <- upstream_BlockRead locator
                               (fun data => do File_Write_ok fd data ;; ret tt) ;;
                  match e with
                  | Some e => ret ([], Some e)
                  | None =>
                      do File_Truncate fd n ;;
                      File_ReadAt fd len_dst offset
                  end
              end
            else File_ReadAt fd len_dst offset
            end end end end) ;;
      do File_Close fd ;;
      ret r
  | _, _ => upstream_ReadAt locator len_dst offset
  end.

(** [ReadAt(locator, dst, offset)] with [len(dst) = len_dst]: the bytes
    put in [dst] (their number is the [n] returned) and the error. *)
Definition ReadAt (locator : string) (len_dst offset : Z) : M (bytes * option error) :=
  do gotidy ;;
  w <- get ;;
  cachefilename <- lift (cacheFile (Dir (cache w)) locator) ;;
  '(data, e) <- quickReadAt cachefilename len_dst offset ;;
  match e with
  | None => ret (data, None)
  | Some _ => ReadAt_slow locator cachefilename len_dst offset
  end.

(** [BlockRead(ctx, opts)]: the bytes written to [opts.WriteTo], the
    count and the error. *)
Definition BlockRead (locator : string) : M (bytes * Z * option error) :=
  do gotidy ;;
  w <- get ;;
  cachefilename <- lift (cacheFile (Dir (cache w)) locator) ;;
  '(fo, err) <- openFile cachefilename (Z.lor O_CREATE O_RDWR) ;;
  match err, fo with
  | None, Some fd =>
      r <- (let i := strings.Index locator "+" in
            if (i <? 0) || (i >=? strings.len locator)
            then ret ([], 0, Some ErrNoSizeHint)
            else
            sizestr <- lift (strings.slice_from locator (i + 1)) ;;
            let i := strings.Index sizestr "+" in
            sizestr <- (if 0 <? i then lift (strings.slice_to sizestr i) else ret sizestr) ;;
            match strconv.ParseInt32 sizestr with
            | None => ret ([], 0, Some ErrInvalidSizeHint)
            | Some blocksize =>
            if blocksize <? 0 then ret ([], 0, Some ErrInvalidSizeHint) else
            e <- syscall_Flock fd LOCK_SH ;;
            match e with
            | Some e => ret ([], 0, Some e)
            | None =>
            '(filesize, e) <- File_Seek fd 0 SeekEnd ;;
            match e with
            | Some e => ret ([], 0, Some e)
            | None =>
            '(_, e) <- File_Seek fd 0 SeekStart ;;
            match e with
            | Some e => ret ([], 0, Some e)
            | None =>
            if filesize =? blocksize then
              '(data, e) <- File_ReadAll fd ;;
              ret (data, Z.of_nat (List.length data), e)
            else
            e <- syscall_Flock fd LOCK_EX ;;
            match e with
            | Some e => ret ([], 0, Some e)
            | None =>
                w <- get ;;
                let data := fst (fst (gw_BlockRead gw (gw_history w) locator)) in
                '(n, e) <- upstream_BlockRead locator
                             (fun data => do File_Write_ok fd data ;; ret tt) ;;
                match e with
                | Some e => ret (data, n, Some e)
                | None => do File_Truncate fd n ;; ret (data, n, None)
                end
            end end end end end) ;;
      do File_Close fd ;;
      ret r
  | _, _ =>
      w <- get ;;
      let data := fst (fst (gw_BlockRead gw (gw_history w) locator)) in
      '(n, e) <- upstream_BlockRead locator (fun _ => ret tt) ;;
      ret (data, n, e)
  end.

(** The prefix of the paths [filepath.Walk(cache.Dir, ...)] visits
    below an absolute [cache.Dir]. *)
Definition walk_prefix (dir : string) : string :=
  let d := filepath.Clean dir in
  if decide (d = "/") then "/" else d +:+ "/".

(** What the walk of [tidy] collects: one [entT] per regular file below
    [cache.Dir] whose name ends in one of the two suffixes. *)
Definition tidy_scan (w : World) : list entT :=
  omap (fun '(p, ino) =>
          if String.prefix (walk_prefix (Dir (cache w))) p
             && (strings.HasSuffix p cacheFileSuffix || strings.HasSuffix p tmpFileSuffix)
          then match inodes w !! ino with
               | Some i => Some {| ent_path := p; ent_atime := i_atime i;
                                   ent_size := Z.of_nat (List.length (i_data i)) |}
               | None => None
               end
          else None)
       (map_to_list (files w)).

(** The deletion loop of [tidy] (lines 522-530): the number of files
    deleted and the usage left. *)
Fixpoint tidy_loop (ents : list entT) (totalsize maxsize deleted : Z) : M (Z * Z) :=
  match ents with
  | [] => ret (deleted, totalsize)
  | ent :: rest =>
      do os_Remove (ent_path ent) ;;
      let deleted := deleted + 1 in
      let totalsize := int64 (totalsize - ent_size ent) in
      if totalsize <=? maxsize then ret (deleted, totalsize)
      else tidy_loop rest totalsize maxsize deleted
  end.

Definition no_report : TidyReport := {| checked := None; remaining := None |}.

(** [tidy] once it holds the lock on [tidy.lock] (lines 462-537),
    with the [maxsize] it settled on. *)
Definition tidy_locked (maxsize : Z) : M TidyReport :=
  w <- get ;;
  let ents := tidy_scan w in
  let totalsize := fold_left (fun t e => int64 (t + ent_size e)) ents 0 in
  let first := Some (totalsize, maxsize) in
  if maxsize =? 0 then
    do upd_cache (set_defaultMaxSize
                    (if totalsize <? 2 ^ 30 then 2 ^ 30 else totalsize)) ;;
    ret {| checked := first; remaining := None |}
  else if totalsize <=? maxsize then
    ret {| checked := first; remaining := None |}
  else
    let ents := sort_Slice (fun a b => ent_atime a <? ent_atime b) ents in
    (* Delete oldest entries until totalsize < maxsize. *)
    r <- tidy_loop ents totalsize maxsize 0 ;;
    ret {| checked := first; remaining := Some r |}.

(** Delete cache files as needed to control disk usage. *)
Definition tidy : M TidyReport :=
  w <- get ;;
  let maxsize := MaxSize (cache w) in
  maxsize <- (if maxsize <? 1 then
                let maxsize := defaultMaxSize (cache w) in
                if maxsize =? 0 then
                  do log (EvSys (SysStatfs (Dir (cache w)))
                            (match statfs w with None => Some EIO | Some _ => None end)) ;;
                  let maxsize :=
                    match statfs w with
                    | Some (bavail, bsize) => Z.quot (int64 (int64 bavail * bsize)) 10
                    | None => maxsize
                    end in
                  do upd_cache (set_defaultMaxSize maxsize) ;;
                  ret maxsize
                else ret maxsize
              else ret maxsize) ;;
  w <- get ;;
  '(fo, err) <- openFile (filepath.Join [Dir (cache w); "tmp"; "tidy.lock"])
                  (Z.lor O_CREATE O_WRONLY) ;;
  match err, fo with
  | None, Some lockfile =>
      r <- (e <- syscall_Flock lockfile LOCK_EX_NB ;;
            match e with
            | Some _ => ret no_report
            | None => tidy_locked maxsize
            end) ;;
      do File_Close lockfile ;;
      ret r
  | _, _ => ret no_report
  end.

(** The goroutine that closes the files of a detached map. *)
Definition closeAll (m : gmap string nat) : M unit :=
  fold_right
    (fun '(_, a) rest =>
       w <- get ;;
       do match heap w !! a with
          | Some ent =>
              match ofe_f ent with
              | Some fd =>
                  do File_Close fd ;;
                  set_ent a {| ofe_f := None; ofe_err := ofe_err ent |}
              | None => ret tt
              end
          | None => ret tt
          end ;;
       rest)
    (ret tt) (map_to_list m).

(** One goroutine run to its end. *)
Definition run_task (t : Task) : M unit :=
  match t with
  | GoDeleteHeldopen cachefilename a => deleteHeldopen cachefilename a
  | GoCloseAll m => closeAll m
  | GoTidy =>
      do tidy ;;
      w <- get ;;
      do upd_cache (set_tidyHoldUntil (now w + tidyHoldDuration)) ;;
      upd_cache (fun c => set_tidying (int32 (tidying c - 1)) c)
  end.

(** The scheduler runs the [i]-th waiting goroutine. *)
Definition run_goroutine (i : nat) : M unit :=
  w <- get ;;
  match goroutines w !! i with
  | None => ret tt
  | Some t =>
      do modify (set_goroutines (take i (goroutines w) ++ drop (Datatypes.S i) (goroutines w))) ;;
      run_task t
  end.

End Ops.

(** ** [BlockWrite]: two goroutines and a pipe *)

(** Where the feeder goroutine (lines 129-175) stands. *)
Inductive FeederPC :=
| FCopy (rest : list bytes) (final : option error) (n : Z)
    (* in [io.Copy], about to take the next chunk of [src];
       [n] bytes are through *)
| FPipe (c : bytes) (rest : list bytes) (final : option error) (n : Z)
    (* in [pipewriter.Write(c)], the file already has [c] *)
| FCopied (n : Z) (err : option error)        (* line 145 *)
| FSum                                        (* line 161 *)
| FRename (hash : string)                     (* line 170 *)
| FDefers                                     (* the deferred calls *)
| FDone
| FPanicked (k : PanicKind).

(** Where the calling goroutine stands: in the gateway's [BlockWrite]
    (line 186), or returned with its results. *)
Inductive MainPC :=
| MUpstream (p : UpProc)
| MDone (resp : BlockWriteResponse) (err : option error).

Inductive Thread := Main | Feeder.

(** The state of a [BlockWrite] call once the feeder is started: the
    world, both goroutines, the pipe (the part of the write in progress
    that has not been read, and which ends are closed), the [copyerr]
    channel (capacity 1, at most one send per call) and whether [cancel]
    was called. *)
Record BW := {
  bw_world : World;
  bw_opts : BlockWriteOptions;
  bw_tmpfilename : string;
  bw_tmpfile : nat;
  bw_feeder : FeederPC;
  bw_hashcheck : bytes;
  bw_main : MainPC;
  bw_pipe : option bytes;
  bw_wclosed : bool;
  bw_rclosed : bool;
  bw_copyerr : option error;
  bw_cancelled : bool;
}.

Definition set_world (x : World) (s : BW) : BW :=
  {| bw_world := x; bw_opts := bw_opts s; bw_tmpfilename := bw_tmpfilename s;
     bw_tmpfile := bw_tmpfile s; bw_feeder := bw_feeder s;
     bw_hashcheck := bw_hashcheck s; bw_main := bw_main s; bw_pipe := bw_pipe s;
     bw_wclosed := bw_wclosed s; bw_rclosed := bw_rclosed s;
     bw_copyerr := bw_copyerr s; bw_cancelled := bw_cancelled s |}.
Definition set_feeder (x : FeederPC) (s : BW) : BW :=
  {| bw_world := bw_world s; bw_opts := bw_opts s; bw_tmpfilename := bw_tmpfilename s;
     bw_tmpfile := bw_tmpfile s; bw_feeder := x;
     bw_hashcheck := bw_hashcheck s; bw_main := bw_main s; bw_pipe := bw_pipe s;
     bw_wclosed := bw_wclosed s; bw_rclosed := bw_rclosed s;
     bw_copyerr := bw_copyerr s; bw_cancelled := bw_cancelled s |}.
Definition set_hashcheck (x : bytes) (s : BW) : BW :=
  {| bw_world := bw_world s; bw_opts := bw_opts s; bw_tmpfilename := bw_tmpfilename s;
     bw_tmpfile := bw_tmpfile s; bw_feeder := bw_feeder s;
     bw_hashcheck := x; bw_main := bw_main s; bw_pipe := bw_pipe s;
     bw_wclosed := bw_wclosed s; bw_rclosed := bw_rclosed s;
     bw_copyerr := bw_copyerr s; bw_cancelled := bw_cancelled s |}.
Definition set_main (x : MainPC) (s : BW) : BW :=
  {| bw_world := bw_world s; bw_opts := bw_opts s; bw_tmpfilename := bw_tmpfilename s;
     bw_tmpfile := bw_tmpfile s; bw_feeder := bw_feeder s;
     bw_hashcheck := bw_hashcheck s; bw_main := x; bw_pipe := bw_pipe s;
     bw_wclosed := bw_wclosed s; bw_rclosed := bw_rclosed s;
     bw_copyerr := bw_copyerr s; bw_cancelled := bw_cancelled s |}.
Definition set_pipe (x : option bytes) (s : BW) : BW :=
  {| bw_world := bw_world s; bw_opts := bw_opts s; bw_tmpfilename := bw_tmpfilename s;
     bw_tmpfile := bw_tmpfile s; bw_feeder := bw_feeder s;
     bw_hashcheck := bw_hashcheck s; bw_main := bw_main s; bw_pipe := x;
     bw_wclosed := bw_wclosed s; bw_rclosed := bw_rclosed s;
     bw_copyerr := bw_copyerr s; bw_cancelled := bw_cancelled s |}.
Definition set_wclosed (x : bool) (s : BW) : BW :=
  {| bw_world := bw_world s; bw_opts := bw_opts s; bw_tmpfilename := bw_tmpfilename s;
     bw_tmpfile := bw_tmpfile s; bw_feeder := bw_feeder s;
     bw_hashcheck := bw_hashcheck s; bw_main := bw_main s; bw_pipe := bw_pipe s;
     bw_wclosed := x; bw_rclosed := bw_rclosed s;
     bw_copyerr := bw_copyerr s; bw_cancelled := bw_cancelled s |}.
Definition set_rclosed (x : bool) (s : BW) : BW :=
  {| bw_world := bw_world s; bw_opts := bw_opts s; bw_tmpfilename := bw_tmpfilename s;
     bw_tmpfile := bw_tmpfile s; bw_feeder := bw_feeder s;
     bw_hashcheck := bw_hashcheck s; bw_main := bw_main s; bw_pipe := bw_pipe s;
     bw_wclosed := bw_wclosed s; bw_rclosed := x;
     bw_copyerr := bw_copyerr s; bw_cancelled := bw_cancelled s |}.
Definition set_copyerr (x : option error) (s : BW) : BW :=
  {| bw_world := bw_world s; bw_opts := bw_opts s; bw_tmpfilename := bw_tmpfilename s;
     bw_tmpfile := bw_tmpfile s; bw_feeder := bw_feeder s;
     bw_hashcheck := bw_hashcheck s; bw_main := bw_main s; bw_pipe := bw_pipe s;
     bw_wclosed := bw_wclosed s; bw_rclosed := bw_rclosed s;
     bw_copyerr := x; bw_cancelled := bw_cancelled s |}.
Definition set_cancelled (x : bool) (s : BW) : BW :=
  {| bw_world := bw_world s; bw_opts := bw_opts s; bw_tmpfilename := bw_tmpfilename s;
     bw_tmpfile := bw_tmpfile s; bw_feeder := bw_feeder s;
     bw_hashcheck := bw_hashcheck s; bw_main := bw_main s; bw_pipe := bw_pipe s;
     bw_wclosed := bw_wclosed s; bw_rclosed := bw_rclosed s;
     bw_copyerr := bw_copyerr s; bw_cancelled := x |}.

(** A step of the feeder that runs [m] in the world. *)
Definition feeder_do {A} (m : M A) (s : BW) (k : A -> BW -> BW) : BW :=
  match m (bw_world s) with
  | (Ok a, w') => k a (set_world w' s)
  | (Panic p, w') => set_feeder (FPanicked p) (set_world w' s)
  end.

(** [copyerr <- e; cancel(); return]. *)
Definition feeder_fail (e : error) (s : BW) : BW :=
  set_feeder FDefers (set_cancelled true (set_copyerr (Some e) s)).

(** The source the feeder copies from: [opts.Data] if it is not nil
    (one [Write] of the whole slice, none if it is empty), else
    [opts.Reader]. *)
Definition feeder_src (opts : BlockWriteOptions) : option Reader :=
  match Data opts with
  | Some d => Some {| chunks := if decide (d = []) then [] else [d]; final := None |}
  | None => Reader_ opts
  end.

Section BlockWrite.

Variable gw : KeepGateway.

(** One step of the feeder goroutine; a goroutine that is blocked or
    finished stays where it is. *)
Definition feeder_step (s : BW) : BW :=
  let opts := bw_opts s in
  match bw_feeder s with
  | FCopy [] final n => set_feeder (FCopied n final) s
  | FCopy (c :: rest) final n =>
      feeder_do (File_Write (bw_tmpfile s) c) s (fun '(_, e) s =>
        match e with
        | Some e => set_feeder (FCopied n (Some e)) s
        | None => set_feeder (FPipe c rest final n) (set_pipe (Some c) s)
        end)
  | FPipe c rest final n =>
      match bw_pipe s with
      | Some ((_ :: _) as pending) =>
          if bw_rclosed s then
            set_feeder
              (FCopied (n + Z.of_nat (List.length c - List.length pending))
                 (Some ErrClosedPipe))
              (set_pipe None s)
          else s
      | _ =>
          set_feeder (FCopy rest final (n + Z.of_nat (List.length c)))
            (set_hashcheck (bw_hashcheck s ++ c) (set_pipe None s))
      end
  | FCopied n (Some e) => feeder_fail e s
  | FCopied n None =>
      if (DataSize opts >? 0) && negb (DataSize opts =? n) then
        feeder_fail (ErrSizeMismatch n (DataSize opts)) s
      else
        feeder_do (File_Close (bw_tmpfile s)) s (fun e s =>
          match e with
          | Some _ => set_feeder FDefers s
          | None => set_feeder FSum s
          end)
  | FSum =>
      let hash := hex (md5.Sum (bw_hashcheck s)) in
      if negb (String.eqb (Hash opts) "") && negb (String.eqb (Hash opts) hash)
      then feeder_fail (ErrHashMismatch hash (Hash opts)) s
      else set_feeder (FRename hash) s
  | FRename hash =>
      feeder_do
        (cachefilename <- lift (cacheFile (Dir (cache (bw_world s))) hash) ;;
         rename (bw_tmpfilename s) cachefilename)
        s (fun _ s => set_feeder FDefers s)
  | FDefers =>
      feeder_do
        (do os_Remove (bw_tmpfilename s) ;; File_Close (bw_tmpfile s))
        (set_wclosed true s) (fun _ s => set_feeder FDone s)
  | FDone => s
  | FPanicked _ => s
  end.

(** One step of the calling goroutine. The gateway reads the pipe, looks
    at its context, or returns; when it returns, [len(copyerr)] is
    tested at once (line 187), the call returns, and its deferred
    [pipereader.Close()] and [cancel()] run. *)
Definition main_step (s : BW) : BW :=
  match bw_main s with
  | MDone _ _ => s
  | MUpstream (UpReturn resp err) =>
      let err := match bw_copyerr s with
                 | Some e => Some e
                 | None => err
                 end in
      set_main (MDone resp err)
        (set_copyerr None (set_rclosed true (set_cancelled true s)))
  | MUpstream (UpCtxDone k) => set_main (MUpstream (k (bw_cancelled s))) s
  | MUpstream (UpRead max k) =>
      match bw_pipe s with
      | Some ((_ :: _) as pending) =>
          set_main (MUpstream (k (RData (take max pending))))
            (set_pipe (Some (drop max pending)) s)
      | _ =>
          if bw_wclosed s then set_main (MUpstream (k REOF)) s else s
      end
  end.

Definition bw_step (s : BW) (t : Thread) : BW :=
  match t with
  | Main => main_step s
  | Feeder => feeder_step s
  end.

(** The call under a schedule: which goroutine moves at each step. *)
Definition bw_run (sched : list Thread) (s : BW) : BW :=
  fold_left bw_step sched s.

(** The gateway's [BlockWrite] run on the caller's own source, for the
    case where no temp file could be opened. *)
Fixpoint run_direct (p : UpProc) (src : option Reader) (cancelled : bool)
  : Res (BlockWriteResponse * option error) :=
  match p with
  | UpReturn resp err => Ok (resp, err)
  | UpCtxDone k => run_direct (k cancelled) src cancelled
  | UpRead max k =>
      match src with
      | None => Panic NilDeref
      | Some r =>
          match chunks r with
          | [] =>
              run_direct
                (k (match final r with Some e => RErr e | None => REOF end))
                src cancelled
          | c :: rest =>
              run_direct (k (RData (take max c)))
                (Some {| chunks := (if decide (drop max c = []) then rest
                                    else drop max c :: rest);
                         final := final r |})
                cancelled
          end
      end
  end.

(** How [BlockWrite] starts (lines 110-186): either it could not open a
    temp file and hands the call to the gateway, or the feeder is
    started and the gateway is called on the pipe. *)
Inductive BWStart :=
| BWFallback (resp : BlockWriteResponse) (err : option error)
| BWPiped (s : BW).

(** [unique] stands for [fmt.Sprintf("%x.%p", os.Getpid(), &opts)]. *)
Definition BlockWrite_begin (opts : BlockWriteOptions) (unique : string) : M BWStart :=
  do gotidy ;;
  w <- get ;;
  let tmpfilename := filepath.Join [Dir (cache w); "tmp"; unique +:+ tmpFileSuffix] in
  '(fo, err) <- openFile tmpfilename (Z.lor (Z.lor O_CREATE O_EXCL) O_RDWR) ;;
  match err, fo with
  | None, Some tmpfile =>
      let newopts :=
        {| Hash := Hash opts; Data := None; Reader_ := None;
           DataSize := (if DataSize opts =? 0
                        then match Data opts with
                             | Some d => Z.of_nat (List.length d)
                             | None => 0
                             end
                        else DataSize opts);
           Rest := Rest opts |} in
      w <- get ;;
      let p := gw_BlockWrite gw (gw_history w) newopts in
      do log (EvGw (GwBlockWrite newopts true)) ;;
      w <- get ;;
      ret (BWPiped
             {| bw_world := w; bw_opts := opts; bw_tmpfilename := tmpfilename;
                bw_tmpfile := tmpfile;
                bw_feeder := match feeder_src opts with
                             | Some r => FCopy (chunks r) (final r) 0
                             | None => FPanicked NilDeref
                             end;
                bw_hashcheck := []; bw_main := MUpstream p; bw_pipe := None;
                bw_wclosed := false; bw_rclosed := false; bw_copyerr := None;
                bw_cancelled := false |})
  | _, _ =>
      w <- get ;;
      let p := gw_BlockWrite gw (gw_history w) opts in
      do log (EvGw (GwBlockWrite opts false)) ;;
      '(resp, err) <- lift (run_direct p (Reader_ opts) false) ;;
      ret (BWFallback resp err)
  end.

End BlockWrite.

(** ** The claims' own readings, for comparison with the code *)

(** "hash(L) is the prefix of L before the first '+'" (all of [L] when it
    has none), and the remainder of [L] after it. *)
Definition spec_hash (L : string) : string :=
  match String.index 0 "+" L with
  | Some i => String.substring 0 i L
  | None => L
  end.

Definition spec_rest (L : string) : string :=
  match String.index 0 "+" L with
  | Some i => String.substring i (String.length L - i) L
  | None => ""
  end.

(** "D / first3(hash(L)) / (hash(L) || rest(L)) || suffix". *)
Definition spec_cacheFile (D L : string) : string :=
  filepath.Join [D; String.substring 0 3 (spec_hash L);
                 spec_hash L +:+ spec_rest L +:+ cacheFileSuffix].

(** The size hint of a locator read as ["+"]-separated fields: the
    second field, if there is one; and whether a field is a non-negative
    integer in decimal. *)
Fixpoint split_plus (s : string) : list string :=
  match s with
  | EmptyString => [EmptyString]
  | String c s' =>
      if Ascii.eqb c "+" then EmptyString :: split_plus s'
      else match split_plus s' with
           | x :: xs => String c x :: xs
           | [] => [String c EmptyString]
           end
  end.

Definition spec_size_hint (L : string) : option string := split_plus L !! 1%nat.

Definition spec_is_nonneg_int (s : string) : bool :=
  match s with
  | EmptyString => false
  | _ => bool_decide (is_Some (strconv.digits s 0))
  end.

(** ** What the code keys on *)

(** The part of a locator [cacheFile] takes for the hash, as a total
    function: the prefix before the first ["+"] when that prefix is not
    empty, the whole locator otherwise. *)
Definition key_hash (locator : string) : string :=
  match String.index 0 "+" locator with
  | Some (Datatypes.S i) => String.substring 0 (Datatypes.S i) locator
  | _ => locator
  end.

(** The string [BlockRead] hands to [ParseInt] (lines 379-387), when the
    locator has a ["+"]. *)
Definition BlockRead_sizestr (locator : string) : option string :=
  match String.index 0 "+" locator with
  | None => None
  | Some i =>
      let sizestr := String.substring (Datatypes.S i) (String.length locator - Datatypes.S i) locator in
      match String.index 0 "+" sizestr with
      | Some (Datatypes.S j) => Some (String.substring 0 (Datatypes.S j) sizestr)
      | _ => Some sizestr
      end
  end.

(** ** Predicates on logs *)

Definition is_gw_event (e : Event) : bool :=
  match e with EvGw _ => true | EvSys _ _ => false end.

Definition is_rename_event (e : Event) : bool :=
  match e with EvSys (SysRename _ _) _ => true | _ => false end.

(** A [flock] or a [seek] that failed. *)
Definition is_lock_seek_failure (e : Event) : bool :=
  match e with
  | EvSys (SysFlock _ _) (Some _) => true
  | EvSys (SysSeek _ _ _) (Some _) => true
  | _ => false
  end.

(** The number of entries of the held-open pool ([len] of a nil map is 0). *)
Definition heldopen_len (w : World) : Z :=
  match heldopen (cache w) with
  | Some m => Z.of_nat (size m)
  | None => 0
  end.

(** The cap of section 4.C for a soft limit [L] ([None]: the query fails). *)
Definition spec_cap (L : option Z) : Z :=
  match L with
  | None => 256
  | Some l => if l >? 40000 then 10000 else l / 4
  end.

(** ** Concrete inputs *)

Module Ex.

Definition resp_for (data : bytes) : BlockWriteResponse :=
  {| Locator := hex (md5.Sum data) +:+ "+" +:+ pretty (Z.of_nat (List.length data));
     Replicas := 1 |}.

(** A gateway's [BlockWrite] that reads its source to EOF, as
    [io.Copy] would. *)
Fixpoint read_to_eof (fuel : nat) (acc : bytes) : UpProc :=
  match fuel with
  | O => UpReturn (resp_for acc) (Some (ErrUpstream 1))
  | Datatypes.S fuel' =>
      UpRead 4096 (fun r =>
        match r with
        | RData b => read_to_eof fuel' (acc ++ b)
        | REOF => UpReturn (resp_for acc) None
        | RErr e => UpReturn (resp_for acc) (Some e)
        end)
  end.

(** One that reads the [n] bytes it was promised, as [io.ReadFull]
    would, and returns. *)
Definition read_exactly (n : nat) : UpProc :=
  UpRead n (fun r =>
    match r with
    | RData b => UpReturn (resp_for b) None
    | REOF => UpReturn (resp_for []) (Some ErrEOF)
    | RErr e => UpReturn (resp_for []) (Some e)
    end).

Definition block : bytes := bytes_of "0123456789abcdef".

(** A gateway that serves [block] for every locator. *)
Definition gateway (to_eof : bool) : KeepGateway :=
  {| gw_ReadAt := fun _ _ len_dst offset =>
       (take (Z.to_nat len_dst) (drop (Z.to_nat offset) block), None);
     gw_BlockRead := fun _ _ => (block, 16, None);
     gw_BlockWrite := fun _ opts =>
       if to_eof then read_to_eof 64 []
       else read_exactly (Z.to_nat (DataSize opts));
     gw_LocalLocator := fun l => (l, None) |}.

Definition new_cache (dir : string) (maxsize : Z) : DiskCache :=
  {| Dir := dir; MaxSize := maxsize; tidying := 0; tidyHoldUntil := 0;
     defaultMaxSize := 0; heldopen := None; heldopenMax := 0 |}.

(** A process that has just made its cache on an empty directory. *)
Definition world : World :=
  {| cache := new_cache "/var/cache/keep" 1024; heap := ∅; goroutines := [];
     files := ∅; dirs := {["/var"; "/var/cache"; "/var/cache/keep"]};
     inodes := ∅; fds := ∅; faults := []; rlimit_nofile := Some 1048576;
     statfs := Some (1000000, 4096); now := 1000; trace := [] |}.

(** Four locators and a cache that already holds their blocks, in a
    process allowed eight open files. *)
Definition loc (i : Z) : string :=
  hex (md5.Sum (bytes_of (pretty i))) +:+ "+16".

Definition cached_path (i : Z) : string :=
  "/var/cache/keep/" +:+ String.substring 0 3 (hex (md5.Sum (bytes_of (pretty i))))
    +:+ "/" +:+ hex (md5.Sum (bytes_of (pretty i))) +:+ cacheFileSuffix.

Definition world_cached : World :=
  {| cache := new_cache "/var/cache/keep" 1024; heap := ∅; goroutines := [];
     files := {[ cached_path 1 := 1%nat; cached_path 2 := 2%nat;
                 cached_path 3 := 3%nat; cached_path 4 := 4%nat ]};
     dirs := {["/var"; "/var/cache"; "/var/cache/keep"]};
     inodes := {[ 1%nat := {| i_data := block; i_atime := 10 |};
                  2%nat := {| i_data := block; i_atime := 20 |};
                  3%nat := {| i_data := block; i_atime := 30 |};
                  4%nat := {| i_data := block; i_atime := 40 |} ]};
     fds := ∅; faults := []; rlimit_nofile := Some 8;
     statfs := Some (1000000, 4096); now := 1000; trace := [] |}.

Definition read (i : Z) (w : World) : Res (bytes * option error) * World :=
  ReadAt (gateway true) (loc i) 16 0 w.

(** A cache of three 512-byte blocks, last read at times 300, 100 and
    200, with [MaxSize] 1024. *)
Definition world_three : World :=
  {| cache := new_cache "/var/cache/keep" 1024; heap := ∅; goroutines := [];
     files := {[ cached_path 1 := 1%nat; cached_path 2 := 2%nat;
                 cached_path 3 := 3%nat ]};
     dirs := {["/var"; "/var/cache"; "/var/cache/keep"]};
     inodes := {[ 1%nat := {| i_data := repeat Byte.x00 512; i_atime := 300 |};
                  2%nat := {| i_data := repeat Byte.x00 512; i_atime := 100 |};
                  3%nat := {| i_data := repeat Byte.x00 512; i_atime := 200 |} ]};
     fds := ∅; faults := []; rlimit_nofile := Some 1048576;
     statfs := Some (1000000, 4096); now := 1000; trace := [] |}.

(** The same with its cache directory missing. *)
Definition world_nodir : World := set_dirs {["/var"]} world.

(** Two writes of "hello": one that leaves the hash to the cache, one
    that announces a hash that is not the block's. *)
Definition opts_hello : BlockWriteOptions :=
  {| Hash := ""; Data := Some (bytes_of "hello"); Reader_ := None;
     DataSize := 0; Rest := "" |}.

Definition opts_bad_hash : BlockWriteOptions :=
  {| Hash := "deadbeefdeadbeefdeadbeefdeadbeef"; Data := Some (bytes_of "hello");
     Reader_ := None; DataSize := 0; Rest := "" |}.

(** The call when its feeder starts ([idle] if no temp file opens). *)
Definition idle (opts : BlockWriteOptions) (w : World) : BW :=
  {| bw_world := w; bw_opts := opts; bw_tmpfilename := ""; bw_tmpfile := 0%nat;
     bw_feeder := FDone; bw_hashcheck := [];
     bw_main := MDone (resp_for []) None; bw_pipe := None;
     bw_wclosed := true; bw_rclosed := true; bw_copyerr := None;
     bw_cancelled := true |}.

Definition unique : string := "1f.0xc000104f00".

Definition begin (gw : KeepGateway) (opts : BlockWriteOptions) (w : World) : BW :=
  match BlockWrite_begin gw opts unique w with
  | (Ok (BWPiped s), _) => s
  | _ => idle opts w
  end.

(** Whether the call got its temp file and started the feeder. *)
Definition started (gw : KeepGateway) (opts : BlockWriteOptions) (w : World) : bool :=
  match BlockWrite_begin gw opts unique w with
  | (Ok (BWPiped _), _) => true
  | _ => false
  end.

(** The feeder copies and tests while the gateway reads to EOF, then
    the gateway returns. *)
Definition sched_to_test : list Thread := [Feeder; Main; Feeder; Feeder; Feeder].
Definition sched_finish : list Thread := [Feeder; Feeder; Main; Main].

(** The same for a write that passes its tests: the feeder renames the
    file and runs its deferred calls before the gateway sees EOF. *)
Definition sched_commit : list Thread := sched_to_test ++ Feeder :: sched_finish.

(** The gateway reads what it was promised and returns at once; the
    feeder goes on afterwards. *)
Definition sched_early : list Thread :=
  [Feeder; Main; Main; Feeder; Feeder; Feeder; Feeder; Feeder; Feeder].

(** [sort.Slice] on a short slice: insertion of each element before
    the first one it is less than. *)
Fixpoint insert_by (less : entT -> entT -> bool) (x : entT) (l : list entT) : list entT :=
  match l with
  | [] => [x]
  | y :: r => if less x y then x :: y :: r else y :: insert_by less x r
  end.

Definition insertion_sort (less : entT -> entT -> bool) (l : list entT) : list entT :=
  fold_right (insert_by less) [] l.

End Ex.

(** The limit [quickReadAt] works with: the one chosen already, or the
    one it is about to choose. *)
Definition cap_of (w : World) : Z :=
  if heldopenMax (cache w) =? 0 then spec_cap (rlimit_nofile w)
  else heldopenMax (cache w).

(** ** Vocabulary for statements about calls *)

(** [m] returns in every world, and [Q] holds of its result and of the
    events it adds to the log (latest first). *)
Definition returns {A} (m : M A) (Q : A -> list Event -> Prop) : Prop :=
  forall w, exists a w' evs,
    m w = (Ok a, w') /\ trace w' = (evs ++ trace w)%list /\ Q a evs.

(** An event that is neither a gateway call, nor a failed flock or
    seek, nor a rename. *)
Definition quiet (e : Event) : Prop :=
  is_gw_event e = false /\ is_lock_seek_failure e = false /\
  is_rename_event e = false.

(** The source data of a [BlockWrite] call: all the chunks of its reader. *)
Definition src_data (opts : BlockWriteOptions) : bytes :=
  match feeder_src opts with
  | Some r => concat (chunks r)
  | None => []
  end.

(** The feeder stands at the size test of line 149 with a clean copy of
    [n] bytes, a positive [DataSize] and [n] different from it; or at the
    comparison of line 162 with an expected hash that the computed one
    differs from. [mismatch s e] gives the error it is about to record. *)
Definition mismatch (s : BW) (e : error) : Prop :=
  (exists n, bw_feeder s = FCopied n None /\
             DataSize (bw_opts s) > 0 /\ DataSize (bw_opts s) <> n /\
             e = ErrSizeMismatch n (DataSize (bw_opts s))) \/
  (bw_feeder s = FSum /\
   Hash (bw_opts s) <> "" /\
   Hash (bw_opts s) <> hex (md5.Sum (bw_hashcheck s)) /\
   e = ErrHashMismatch (hex (md5.Sum (bw_hashcheck s))) (Hash (bw_opts s))).

(** The renames in a log. *)
Definition renames (tr : list Event) : list Event := filter (fun e => is_rename_event e = true) tr.

(** The feeder has not reached line 170 yet. *)
Definition before_rename (pc : FeederPC) : Prop :=
  match pc with
  | FCopy _ _ _ | FPipe _ _ _ _ | FCopied _ _ | FSum => True
  | _ => False
  end.

(** The calling goroutine is still in the gateway's [BlockWrite]. *)
Definition in_upstream (s : BW) : Prop :=
  match bw_main s with MUpstream _ => True | MDone _ _ => False end.

(** The sum of the sizes of a list of entries. *)
Definition sum_sizes (l : list entT) : Z :=
  fold_right (fun e acc => ent_size e + acc) 0 l.

(** Entries are ordered by access time. *)
Definition atime_le (a b : entT) : Prop := ent_atime a <= ent_atime b.
Definition atime_less (a b : entT) : bool := ent_atime a <? ent_atime b.

(** The files left when the entries [l] are unlinked. *)
Definition unlink_all (l : list entT) (m : gmap string nat) : gmap string nat :=
  fold_left (fun m e => delete (ent_path e) m) l m.

(** After a mismatch: the feeder is in its deferred calls or done, and
    then the temp file is gone; no file was renamed since the log read
    [r0]. *)
Definition winding_down (tmp : string) (r0 : list Event) (s : BW) : Prop :=
  bw_tmpfilename s = tmp /\
  renames (trace (bw_world s)) = r0 /\
  (bw_feeder s = FDefers \/
   (bw_feeder s = FDone /\ files (bw_world s) !! tmp = None)).

(** The error [e] is in the channel for a caller still in the gateway, or
    the call has returned it. *)
Definition surfaces (e : error) (s : BW) : Prop :=
  (bw_feeder s = FDefers \/ bw_feeder s = FDone) /\
  ((in_upstream s /\ bw_copyerr s = Some e) \/
   (exists resp, bw_main s = MDone resp (Some e))).

(** The pool can take an entry for [name]: it has none yet and holds no
    more entries than its limit (or the map is still nil). *)
Definition pool_ready (w : World) (name : string) : Prop :=
  match heldopen (cache w) with
  | None => True
  | Some m => m !! name = None /\ Z.of_nat (size m) <= cap_of w
  end.

(** The renames that succeeded, in a log. *)
Definition is_commit_event (e : Event) : bool :=
  match e with
  | EvSys (SysRename _ _) None => true
  | _ => false
  end.

Definition commits (tr : list Event) : list Event :=
  filter (fun e => is_commit_event e = true) tr.

(** ** The write path, for statements about a committed block *)

(** The last character of a string. *)
Fixpoint last_char (s : string) : option ascii :=
  match s with
  | EmptyString => None
  | String c s' =>
      match last_char s' with
      | None => Some c
      | x => x
      end
  end.

(** The cache file of the block [b] under the directory [D]. *)
Definition block_path (D : string) (b : bytes) : string :=
  filepath.Join [D; String.substring 0 3 (hex (md5.Sum b));
                 hex (md5.Sum b) +:+ cacheFileSuffix].

(** The cache file of the block [b] is on disk, and holds [b]. *)
Definition cached (b : bytes) (w : World) : Prop :=
  exists ino i,
    files w !! block_path (Dir (cache w)) b = Some ino /\
    inodes w !! ino = Some i /\ i_data i = b.

(** The temp file of a [BlockWrite] call is on disk, and holds [d]. *)
Definition tmp_file (s : BW) (d : bytes) : Prop :=
  exists ino i,
    files (bw_world s) !! bw_tmpfilename s = Some ino /\
    inodes (bw_world s) !! ino = Some i /\ i_data i = d.

(** The same, and the call's descriptor is open on it, at its end. *)
Definition tmp_holds (s : BW) (d : bytes) : Prop :=
  exists ino i o,
    files (bw_world s) !! bw_tmpfilename s = Some ino /\
    inodes (bw_world s) !! ino = Some i /\ i_data i = d /\
    fds (bw_world s) !! bw_tmpfile s = Some o /\ of_ino o = ino /\
    of_off o = Z.of_nat (List.length d).

(** What holds all along a [BlockWrite] of the bytes [b] whose log had
    the commits [c0] when the feeder started: up to line 170 nothing is
    committed and the temp file holds what was copied; from the deferred
    calls on, either nothing was committed or the cache file of [b] is
    there with [b] in it. *)
Definition write_inv (b : bytes) (c0 : list Event) (s : BW) : Prop :=
  (forall D, bw_tmpfilename s <> block_path D b) /\
  match bw_feeder s with
  | FCopy rest _ _ =>
      commits (trace (bw_world s)) = c0 /\
      tmp_holds s (bw_hashcheck s) /\ bw_hashcheck s ++ concat rest = b
  | FPipe c rest _ _ =>
      commits (trace (bw_world s)) = c0 /\
      tmp_holds s (bw_hashcheck s ++ c) /\
      bw_hashcheck s ++ c ++ concat rest = b
  | FCopied _ None =>
      commits (trace (bw_world s)) = c0 /\
      tmp_holds s b /\ bw_hashcheck s = b
  | FCopied _ (Some _) => commits (trace (bw_world s)) = c0
  | FSum =>
      commits (trace (bw_world s)) = c0 /\
      tmp_file s b /\ bw_hashcheck s = b
  | FRename hash =>
      commits (trace (bw_world s)) = c0 /\
      tmp_file s b /\ hash = hex (md5.Sum b)
  | FDefers | FDone | FPanicked _ =>
      commits (trace (bw_world s)) = c0 \/ cached b (bw_world s)
  end.

(** ** Vocabulary for further properties *)

(** Whether a string has a slash in it. *)
Fixpoint has_slash (s : string) : bool :=
  match s with
  | EmptyString => false
  | String c s' => Ascii.eqb c "/" || has_slash s'
  end.

(** The tidy goroutines that wait to run. *)
Definition is_tidy (t : Task) : bool :=
  match t with GoTidy => true | _ => false end.

Definition tidy_tasks (w : World) : nat :=
  List.length (filter (fun t => is_tidy t = true) (goroutines w)).

(** The counter [cache.tidying] is the number of tidy goroutines started
    and not finished, and there is at most one. *)
Definition single_flight (w : World) : Prop :=
  tidying (cache w) = Z.of_nat (tidy_tasks w) /\ (tidy_tasks w <= 1)%nat.

(** A file the walk of [tidy] under the directory [D] collects: below
    [D], with one of the two suffixes. *)
Definition tidy_target (D p : string) : bool :=
  String.prefix (walk_prefix D) p
  && (strings.HasSuffix p cacheFileSuffix || strings.HasSuffix p tmpFileSuffix).

(** What the operations other than [tidy] and [BlockWrite] leave as it
    is: the configuration of the cache, the state of the tidy scheduler,
    the clock and the limits of the process, and every name in the file
    system (no file is unlinked or renamed). *)
Definition steady (w w' : World) : Prop :=
  Dir (cache w') = Dir (cache w) /\ MaxSize (cache w') = MaxSize (cache w) /\
  defaultMaxSize (cache w') = defaultMaxSize (cache w) /\
  tidying (cache w') = tidying (cache w) /\
  tidyHoldUntil (cache w') = tidyHoldUntil (cache w) /\
  tidy_tasks w' = tidy_tasks w /\ now w' = now w /\
  rlimit_nofile w' = rlimit_nofile w /\ statfs w' = statfs w /\
  (forall p ino, files w !! p = Some ino -> files w' !! p = Some ino).

(** What [tidy] and [BlockWrite] leave as it is: the same but for
    [defaultMaxSize], and for the names of the files that [T] takes out
    ([T D p]: the file [p] may go when the cache directory is [D]). *)
Definition frame_but (T : string -> string -> bool) (w w' : World) : Prop :=
  Dir (cache w') = Dir (cache w) /\ MaxSize (cache w') = MaxSize (cache w) /\
  tidying (cache w') = tidying (cache w) /\
  tidyHoldUntil (cache w') = tidyHoldUntil (cache w) /\
  tidy_tasks w' = tidy_tasks w /\ now w' = now w /\
  (forall p ino, T (Dir (cache w)) p = false ->
                 files w !! p = Some ino -> files w' !! p = Some ino).

(** Any file. *)
Definition any_file (D p : string) : bool := true.

(** [m] relates every world to the one it leaves by [R], whether it
    returns or panics. *)
Definition always {A} (R : World -> World -> Prop) (m : M A) : Prop :=
  forall w, R w (snd (m w)).


(** The cache of three blocks of [Ex.world_three], with two more files:
    a note in the cache directory, and a file that has the suffix of
    cache files but is not below the cache directory. *)
Definition world_with_notes : World :=
  set_files (<["/var/cache/keep/README" := 8%nat]>
               (<["/var/backup/old.keepcacheblock" := 9%nat]> (files Ex.world_three)))
    (set_inodes (<[8%nat := {| i_data := bytes_of "notes"; i_atime := 1 |}]>
                   (<[9%nat := {| i_data := repeat Byte.x00 4096; i_atime := 2 |}]>
                      (inodes Ex.world_three)))
       Ex.world_three).

(** The pool of open files and what its limit is computed from are as
    they were. *)
Definition pool_same (w w' : World) : Prop :=
  heldopen (cache w') = heldopen (cache w) /\
  heldopenMax (cache w') = heldopenMax (cache w) /\
  rlimit_nofile w' = rlimit_nofile w.

(** The pool holds at most one entry more than its limit [c]. *)
Definition pool_bounded (c : Z) (w : World) : Prop :=
  cap_of w = c /\ 0 <= c /\ heldopen_len w <= c + 1.

(** An upper bound on the steps the feeder goroutine still has to make
    when nothing blocks it: two per chunk left to copy, and the tests,
    the close, the rename and the deferred calls. *)
Definition feeder_steps_left (pc : FeederPC) : nat :=
  match pc with
  | FCopy rest _ _ => 5 + 2 * List.length rest
  | FPipe _ rest _ _ => 6 + 2 * List.length rest
  | FCopied _ _ => 4
  | FSum => 3
  | FRename _ => 2
  | FDefers => 1
  | FDone | FPanicked _ => 0
  end.

(** The number of turns of the feeder in a schedule. *)
Definition is_feeder (t : Thread) : bool :=
  match t with Feeder => true | Main => false end.

Definition feeder_turns (sched : list Thread) : nat :=
  List.length (filter (fun t => is_feeder t = true) sched).

(** The file [name] is there with the bytes [d] in it, the descriptor
    [fd] is open on it at offset [off], and no system call is set to
    fail. *)
Definition file_open (w : World) (name : string) (fd ino : nat) (d : bytes) (off : Z) : Prop :=
  faults w = [] /\ files w !! name = Some ino /\
  (exists i, inodes w !! ino = Some i /\ i_data i = d) /\
  fds w !! fd = Some {| of_name := name; of_ino := ino; of_off := off |}.

(** The file [name] is not there and can be created: its directory
    exists, or can be made in a directory that exists. *)
Definition can_create (w : World) (name : string) : Prop :=
  files w !! name = None /\ (name ∉ dirs w) /\
  (dir_exists w (parent_dir name) = true \/
   (name <> parent_dir name /\ dir_exists w (parent_dir name) = false /\
    files w !! parent_dir name = None /\
    dir_exists w (parent_dir (parent_dir name)) = true)).

(** What [f.ReadAt(dst, off)] gives on a file that holds [d], for
    [len(dst) = len]. *)
Definition read_result (d : bytes) (len off : Z) : bytes * option error :=
  let data := take (Z.to_nat len) (drop (Z.to_nat off) d) in
  (data, if Z.of_nat (List.length data) <? len then Some ErrEOF else None).

(** The pool has an entry for [name] that recorded an error when it was
    made (its removal may still be waiting). *)
Definition stale_entry (w : World) (name : string) : Prop :=
  exists m a ent e,
    heldopen (cache w) = Some m /\ m !! name = Some a /\
    heap w !! a = Some ent /\ ofe_err ent = Some e.


(** * Properties *)

(** ** Strings and paths *)

Lemma substring_length_le (s : string) (n m : nat) :
  (String.length (String.substring n m s) <= m)%nat.
Proof.
  revert n m. induction s as [|c s IH]; intros [|n] [|m]; simpl; try lia.
  - specialize (IH 0%nat m). lia.
  - apply IH.
  - apply IH.
Qed.

Lemma substring_nonempty_lt (s : string) (n m : nat) :
  String.substring n m s <> "" -> (n < String.length s)%nat.
Proof.
  revert n m. induction s as [|c s IH]; intros [|n] [|m]; simpl; try congruence; try lia.
  - intros H. apply IH in H. lia.
  - intros H. apply IH in H. lia.
Qed.

Lemma index_lt (t s : string) (n i : nat) :
  t <> "" -> String.index n t s = Some i -> (i < String.length s)%nat.
Proof.
  intros Ht H. apply String.index_correct1 in H.
  apply (substring_nonempty_lt s i (String.length t)). congruence.
Qed.

Lemma slice_to_ok (s : string) (j : nat) :
  (j <= String.length s)%nat ->
  strings.slice_to s (Z.of_nat j) = Ok (String.substring 0 j s).
Proof.
  intros H. unfold strings.slice_to, strings.len.
  replace ((0 <=? Z.of_nat j) && (Z.of_nat j <=? Z.of_nat (String.length s))) with true.
  - rewrite Nat2Z.id. reflexivity.
  - symmetry. apply andb_true_iff. split; apply Z.leb_le; lia.
Qed.

Lemma slice_to_panic (s : string) (j : nat) :
  (String.length s < j)%nat ->
  strings.slice_to s (Z.of_nat j) = Panic SliceOutOfRange.
Proof.
  intros H. unfold strings.slice_to, strings.len.
  replace (Z.of_nat j <=? Z.of_nat (String.length s)) with false
    by (symmetry; apply Z.leb_gt; lia).
  rewrite andb_false_r. reflexivity.
Qed.

Lemma cacheFile_hash_key (locator : string) :
  cacheFile_hash locator = Ok (key_hash locator).
Proof.
  unfold cacheFile_hash, key_hash, strings.Index.
  destruct (String.index 0 "+" locator) as [[|i]|] eqn:E; try reflexivity.
  assert (Hlt := index_lt "+" locator 0 (Datatypes.S i) ltac:(discriminate) E).
  replace (0 <? Z.of_nat (Datatypes.S i)) with true by (symmetry; apply Z.ltb_lt; lia).
  apply slice_to_ok. lia.
Qed.

(** [cacheFile] in closed form: it panics exactly on a hash part shorter
    than three characters. *)
Lemma cacheFile_spec (D locator : string) :
  cacheFile D locator =
    if (3 <=? String.length (key_hash locator))%nat
    then Ok (filepath.Join [D; String.substring 0 3 (key_hash locator);
                            key_hash locator +:+ cacheFileSuffix])
    else Panic SliceOutOfRange.
Proof.
  unfold cacheFile. rewrite cacheFile_hash_key.
  destruct (3 <=? String.length (key_hash locator))%nat eqn:E.
  - apply Nat.leb_le in E. rewrite (slice_to_ok _ 3) by lia. reflexivity.
  - apply Nat.leb_gt in E. rewrite (slice_to_panic _ 3) by lia. reflexivity.
Qed.

Lemma key_hash_spec_hash (L : string) :
  (1 <= String.length (spec_hash L))%nat -> key_hash L = spec_hash L.
Proof.
  unfold key_hash, spec_hash.
  destruct (String.index 0 "+" L) as [[|i]|]; try reflexivity.
  intros H. exfalso. destruct L; simpl in H; lia.
Qed.

(** ** Path layout *)

(** C5, as the code has it: for every locator L whose hash(L), the prefix
    of L before the first '+', has at least three characters, the
    committed cache-file path is D joined with the first three characters
    of hash(L), joined with hash(L) followed by the fixed suffix
    .keepcacheblock; rest(L) is not part of the path. *)
Theorem cacheFile_layout (D L : string) :
  (3 <= String.length (spec_hash L))%nat ->
  cacheFile D L =
    Ok (filepath.Join [D; String.substring 0 3 (spec_hash L);
                       spec_hash L +:+ cacheFileSuffix]).
Proof.
  intros H. rewrite cacheFile_spec, key_hash_spec_hash by lia.
  apply Nat.leb_le in H. rewrite H. reflexivity.
Qed.

Lemma cacheFile_layout_witness :
  (3 <= String.length (spec_hash "acbd18db4cc2f85cedef654fccc4a4d8+3"))%nat /\
  cacheFile "/var/cache/keep" "acbd18db4cc2f85cedef654fccc4a4d8+3" =
    Ok "/var/cache/keep/acb/acbd18db4cc2f85cedef654fccc4a4d8.keepcacheblock".
Proof.
  split; [vm_compute; lia|].
  exact (cacheFile_layout "/var/cache/keep" "acbd18db4cc2f85cedef654fccc4a4d8+3"
           ltac:(vm_compute; lia)).
Defined.

(** C5 as stated fails: the path the code computes for a locator with a
    size hint is not the one that keeps rest(L) in the file name. *)
Lemma cacheFile_drops_rest :
  cacheFile "/var/cache/keep" "acbd18db4cc2f85cedef654fccc4a4d8+3"
  <> Ok (spec_cacheFile "/var/cache/keep" "acbd18db4cc2f85cedef654fccc4a4d8+3").
Proof. vm_compute. discriminate. Qed.

(** ** Reasoning about stateful code *)

Ltac munfold :=
  unfold bind, ret, get, lift, log, go, upd_cache, set_ent, next_fault, modify in *.

Lemma bind_eq {A B} (m : M A) (k : A -> M B) (w w1 : World) (a : A) :
  m w = (Ok a, w1) -> bind m k w = k a w1.
Proof. intros H. unfold bind. rewrite H. reflexivity. Qed.

Lemma bind_panic {A B} (m : M A) (k : A -> M B) (w w1 : World) (p : PanicKind) :
  m w = (Panic p, w1) -> bind m k w = (Panic p, w1).
Proof. intros H. unfold bind. rewrite H. reflexivity. Qed.

Lemma bind_assoc {A B C} (m : M A) (k : A -> M B) (k' : B -> M C) (w : World) :
  bind (bind m k) k' w = bind m (fun a => bind (k a) k') w.
Proof. unfold bind. destruct (m w) as [[a|p] w1]; reflexivity. Qed.

Lemma bind_ret {A B} (a : A) (k : A -> M B) (w : World) :
  bind (ret a) k w = k a w.
Proof. reflexivity. Qed.

Lemma bind_lift_Ok {A B} (a : A) (k : A -> M B) (w : World) :
  bind (lift (Ok a)) k w = k a w.
Proof. reflexivity. Qed.

Lemma bind_get {B} (k : World -> M B) (w : World) :
  bind get k w = k w w.
Proof. reflexivity. Qed.

(** [gotidy] returns, and leaves everything but its counter and the
    goroutine queue alone. *)
Lemma gotidy_ok (w : World) :
  exists w', gotidy w = (Ok tt, w') /\
    Dir (cache w') = Dir (cache w) /\
    heldopen (cache w') = heldopen (cache w) /\
    heldopenMax (cache w') = heldopenMax (cache w) /\
    heap w' = heap w /\ files w' = files w /\ dirs w' = dirs w /\
    inodes w' = inodes w /\ fds w' = fds w /\ faults w' = faults w /\
    rlimit_nofile w' = rlimit_nofile w /\ trace w' = trace w.
Proof.
  unfold gotidy. munfold. simpl.
  destruct (negb _ || _); simpl; eexists; split; try reflexivity; simpl; tauto.
Qed.

(** ** Short hashes *)

(** C10, as the code has it: for every locator whose hash part, the
    prefix before the first '+' when that prefix is not empty and the
    whole locator otherwise, is shorter than three characters, ReadAt
    and BlockRead fault while computing the cache-file path instead of
    returning an error value. *)
Theorem short_hash_faults (gw : KeepGateway) (L : string) (len_dst offset : Z) (w : World) :
  (String.length (key_hash L) < 3)%nat ->
  fst (ReadAt gw L len_dst offset w) = Panic SliceOutOfRange /\
  fst (BlockRead gw L w) = Panic SliceOutOfRange.
Proof.
  intros H.
  assert (Hc : forall D, cacheFile D L = Panic SliceOutOfRange).
  { intros D. rewrite cacheFile_spec.
    replace (3 <=? String.length (key_hash L))%nat with false; [reflexivity|].
    symmetry. apply Nat.leb_gt. lia. }
  destruct (gotidy_ok w) as (w' & Hg & _).
  unfold ReadAt, BlockRead. munfold. rewrite Hg. cbv beta iota. rewrite !Hc. auto.
Qed.

Lemma short_hash_faults_witness :
  (String.length (key_hash "ab+3") < 3)%nat /\
  fst (ReadAt (Ex.gateway true) "ab+3" 3 0 Ex.world) = Panic SliceOutOfRange /\
  fst (BlockRead (Ex.gateway true) "ab+3" Ex.world) = Panic SliceOutOfRange.
Proof.
  split; [vm_compute; lia|].
  exact (short_hash_faults (Ex.gateway true) "ab+3" 3 0 Ex.world ltac:(vm_compute; lia)).
Defined.

(** C10 as stated fails on a locator that begins with '+': its prefix
    before the first '+' is empty, yet the code takes the whole locator
    for the hash and ReadAt returns normally. *)
Lemma plus_first_no_fault :
  (String.length (spec_hash "+abc") < 3)%nat /\
  is_panic (fst (ReadAt (Ex.gateway true) "+abc" 4 0 Ex.world)) = false /\
  is_panic (fst (BlockRead (Ex.gateway true) "+abc" Ex.world)) = false.
Proof. vm_compute. repeat split; lia. Qed.

(** ** The held-open pool *)

Lemma choose_heldopenMax_spec (w : World) :
  exists w', choose_heldopenMax w = (Ok tt, w') /\
    heldopenMax (cache w') = cap_of w /\
    heldopen (cache w') = heldopen (cache w) /\
    Dir (cache w') = Dir (cache w) /\
    heap w' = heap w /\ goroutines w' = goroutines w /\
    files w' = files w /\ dirs w' = dirs w /\ inodes w' = inodes w /\
    fds w' = fds w /\ faults w' = faults w /\
    rlimit_nofile w' = rlimit_nofile w /\ now w' = now w /\
    gw_history w' = gw_history w.
Proof.
  unfold choose_heldopenMax, cap_of, spec_cap. munfold.
  destruct (heldopenMax (cache w) =? 0) eqn:E; simpl.
  - destruct (rlimit_nofile w) as [cur|] eqn:R; simpl.
    + destruct (cur >? 40000); simpl; eexists; (split; [reflexivity|]);
        simpl; repeat split; auto.
    + eexists; (split; [reflexivity|]); simpl; repeat split; auto.
  - eexists; (split; [reflexivity|]); repeat split; auto.
Qed.

(** Publication in a pool that holds more entries than its limit: the
    map is detached, [cache.heldopen] is nil, and the assignment that
    follows panics. *)
Lemma quickReadAt_locked_full (cachefilename : string) (w : World) (m : gmap string nat) :
  heldopen (cache w) = Some m ->
  m !! cachefilename = None ->
  Z.of_nat (size m) > cap_of w ->
  fst (quickReadAt_locked cachefilename w) = Panic NilMapAssign.
Proof.
  intros Hm Hl Hs. unfold quickReadAt_locked.
  destruct (choose_heldopenMax_spec w) as (w1 & E1 & Hmax & Hh & _).
  unfold bind at 1. rewrite E1. munfold. cbv beta iota.
  rewrite Hh, Hm. simpl. rewrite Hl. simpl.
  rewrite Hmax.
  replace (Z.of_nat (size m) >? cap_of w) with true
    by (symmetry; apply Z.gtb_lt; lia).
  reflexivity.
Qed.

Lemma quickReadAt_full (cachefilename : string) (len_dst offset : Z) (w : World)
  (m : gmap string nat) :
  heldopen (cache w) = Some m ->
  m !! cachefilename = None ->
  Z.of_nat (size m) > cap_of w ->
  fst (quickReadAt cachefilename len_dst offset w) = Panic NilMapAssign.
Proof.
  intros Hm Hl Hs. unfold quickReadAt. unfold bind at 1.
  pose proof (quickReadAt_locked_full cachefilename w m Hm Hl Hs) as H.
  destruct (quickReadAt_locked cachefilename w) as [r w']. simpl in H. subst r.
  reflexivity.
Qed.

(** [ReadAt] of a block that is not in a pool holding more than its
    limit panics, whatever the gateway and the disk. *)
Lemma ReadAt_full_pool (gw : KeepGateway) (L : string) (len_dst offset : Z) (w : World)
  (m : gmap string nat) (cachefilename : string) :
  cacheFile (Dir (cache w)) L = Ok cachefilename ->
  heldopen (cache w) = Some m ->
  m !! cachefilename = None ->
  Z.of_nat (size m) > cap_of w ->
  fst (ReadAt gw L len_dst offset w) = Panic NilMapAssign.
Proof.
  intros Hc Hm Hl Hs. unfold ReadAt.
  destruct (gotidy_ok w) as (w' & Hg & HD & Hh & Hmax & _ & _ & _ & _ & _ & _ & Hr & _).
  unfold bind at 1. rewrite Hg. munfold. cbv beta iota. rewrite HD, Hc.
  assert (Hcap : cap_of w' = cap_of w) by (unfold cap_of; rewrite Hmax, Hr; reflexivity).
  pose proof (quickReadAt_full cachefilename len_dst offset w' m
                ltac:(congruence) Hl ltac:(lia)) as H.
  destruct (quickReadAt cachefilename len_dst offset w') as [r w'']. simpl in H. subst r.
  reflexivity.
Qed.

(** C3 fails on the code: in a process whose soft limit on open files is
    8 the cap is 2, and after ReadAt of three cached blocks (each served
    from the pool, none from the gateway) the heldopen map holds three
    entries. *)
Theorem pool_exceeds_cap :
  let w1 := snd (Ex.read 1 Ex.world_cached) in
  let w2 := snd (Ex.read 2 w1) in
  let w3 := snd (Ex.read 3 w2) in
  fst (Ex.read 1 Ex.world_cached) = Ok (Ex.block, None) /\
  fst (Ex.read 2 w1) = Ok (Ex.block, None) /\
  fst (Ex.read 3 w2) = Ok (Ex.block, None) /\
  spec_cap (rlimit_nofile Ex.world_cached) = 2 /\
  heldopenMax (cache w3) = 2 /\
  heldopen_len w3 = 3.
Proof. vm_compute. repeat split. Qed.

(** C4 fails on the code: the next ReadAt of a block that is not in the
    pool finds three entries for a limit of two, detaches the map, and
    panics on the assignment into the nil map. *)
Theorem publication_panics :
  let w1 := snd (Ex.read 1 Ex.world_cached) in
  let w2 := snd (Ex.read 2 w1) in
  let w3 := snd (Ex.read 3 w2) in
  fst (Ex.read 4 w3) = Panic NilMapAssign /\
  heldopen (cache (snd (Ex.read 4 w3))) = None.
Proof. vm_compute. repeat split. Qed.

(** ** Calls that return: a small program logic over the log *)

Lemma returns_ret {A} (a : A) (Q : A -> list Event -> Prop) :
  Q a [] -> returns (ret a) Q.
Proof. intros H w. exists a, w, []. auto. Qed.

Lemma returns_bind {A B} (m : M A) (k : A -> M B) (Q : B -> list Event -> Prop) :
  returns m (fun a e1 => returns (k a) (fun b e2 => Q b (e2 ++ e1))) ->
  returns (bind m k) Q.
Proof.
  intros H w. destruct (H w) as (a & w1 & e1 & Hm & Ht1 & Hk).
  destruct (Hk w1) as (b & w2 & e2 & Hk' & Ht2 & HQ).
  exists b, w2, (e2 ++ e1). unfold bind. rewrite Hm, Hk'.
  repeat split; auto. rewrite Ht2, Ht1, app_assoc. reflexivity.
Qed.

Lemma returns_conseq {A} (m : M A) (P Q : A -> list Event -> Prop) :
  returns m P -> (forall a evs, P a evs -> Q a evs) -> returns m Q.
Proof.
  intros H HPQ w. destruct (H w) as (a & w' & evs & ? & ? & ?).
  exists a, w', evs. auto.
Qed.

Lemma returns_get (Q : World -> list Event -> Prop) :
  (forall w, Q w []) -> returns get Q.
Proof. intros H w. exists w, w, []. auto. Qed.

Lemma returns_log (e : Event) (Q : unit -> list Event -> Prop) :
  Q tt [e] -> returns (log e) Q.
Proof. intros H w. exists tt, (set_trace (e :: trace w) w), [e]. auto. Qed.

Lemma returns_next_fault (Q : option Errno -> list Event -> Prop) :
  (forall x, Q x []) -> returns next_fault Q.
Proof.
  intros H w. unfold next_fault. destruct (faults w) as [|x r].
  - exists None, w, []. auto.
  - exists x, (set_faults r w), []. auto.
Qed.

(** An update of the world that leaves the log alone. *)
Lemma returns_modify (g : World -> World) (Q : unit -> list Event -> Prop) :
  (forall w, trace (g w) = trace w) -> Q tt [] -> returns (modify g) Q.
Proof. intros Hg H w. exists tt, (g w), []. simpl. auto. Qed.

Ltac mstep :=
  first
    [ apply returns_bind
    | apply returns_get; intros ?
    | apply returns_log
    | apply returns_next_fault; intros ?
    | apply returns_modify; [intros ?; reflexivity|]
    | apply returns_ret ].

Ltac msteps := repeat (mstep; cbv beta).

Lemma Forall_quiet_nil : Forall quiet [].
Proof. constructor. Qed.

#[local] Hint Resolve Forall_quiet_nil : core.

Lemma quiet_nofail (evs : list Event) :
  Forall quiet evs -> Forall (fun e => is_lock_seek_failure e = false) evs.
Proof. intros H. eapply Forall_impl; [exact H|]. intros ? (_ & ? & _); auto. Qed.

Lemma quiet_nogw (evs : list Event) :
  Forall quiet evs -> Forall (fun e => is_gw_event e = false) evs.
Proof. intros H. eapply Forall_impl; [exact H|]. intros ? (? & _); auto. Qed.

Lemma quiet_norename (evs : list Event) :
  Forall quiet evs -> renames evs = [].
Proof.
  induction 1 as [|e evs (_ & _ & He) _ IH]; [reflexivity|].
  unfold renames in *. simpl. rewrite filter_cons, IH.
  destruct (decide _) as [E|E]; [congruence|reflexivity].
Qed.

Lemma renames_app (e1 e2 : list Event) : renames (e1 ++ e2) = renames e1 ++ renames e2.
Proof. unfold renames. apply filter_app. Qed.

(** Goals about the events of a sequence of calls. *)
Ltac solve_events :=
  rewrite ?app_nil_l, ?app_nil_r, ?Forall_app; repeat split;
  try assumption; try (apply quiet_nofail; assumption);
  try (apply quiet_nogw; assumption); repeat constructor.

Lemma syscall_Flock_returns (fd : nat) (how : LockHow) :
  returns (syscall_Flock fd how) (fun r evs =>
    (r = None /\ evs = [EvSys (SysFlock fd how) None]) \/
    (exists e, r = Some (ErrSys "flock" "" e) /\ evs = [EvSys (SysFlock fd how) (Some e)])).
Proof.
  unfold syscall_Flock. msteps.
  destruct x as [e|]; [|destruct (fds w !! fd)]; msteps; simpl; eauto.
Qed.

Lemma File_Seek_returns (fd : nat) (offset : Z) (whence : Whence) :
  returns (File_Seek fd offset whence) (fun r evs =>
    (exists pos, r = (pos, None) /\ evs = [EvSys (SysSeek fd offset whence) None]) \/
    (exists nm e, r = (0, Some (ErrSys "seek" nm e)) /\
                  evs = [EvSys (SysSeek fd offset whence) (Some e)])).
Proof.
  unfold File_Seek. msteps.
  destruct x as [e|]; [|destruct (fds w !! fd) as [o|]]; msteps; simpl; eauto.
  destruct (_ <? 0); msteps; simpl; eauto.
Qed.

Lemma File_ReadAt_returns (fd : nat) (len off : Z) :
  returns (File_ReadAt fd len off) (fun _ evs => Forall quiet evs).
Proof.
  unfold File_ReadAt. destruct (off <? 0); msteps; auto.
  destruct x as [e|]; [|destruct (fds w !! fd) as [o|];
                         [destruct (inodes w !! of_ino o)|]];
    msteps; simpl; repeat constructor.
Qed.

Lemma File_Write_ok_returns (fd : nat) (data : bytes) :
  returns (File_Write_ok fd data) (fun _ evs => Forall quiet evs).
Proof.
  unfold File_Write_ok. msteps.
  destruct (fds w !! fd) as [o|]; [destruct (inodes w !! of_ino o)|];
    msteps; simpl; repeat constructor.
Qed.

Lemma File_Truncate_returns (fd : nat) (size : Z) :
  returns (File_Truncate fd size) (fun _ evs => Forall quiet evs).
Proof.
  unfold File_Truncate. msteps.
  destruct (fds w !! fd) as [o|]; [destruct (inodes w !! of_ino o)|];
    [destruct (size <? 0)| |]; msteps; simpl; repeat constructor.
Qed.

Lemma File_Close_returns (fd : nat) :
  returns (File_Close fd) (fun _ evs => Forall quiet evs).
Proof.
  unfold File_Close. msteps.
  destruct (fds w !! fd) as [o|]; msteps; simpl; repeat constructor.
Qed.

Lemma File_ReadAll_returns (fd : nat) :
  returns (File_ReadAll fd) (fun _ evs => Forall quiet evs).
Proof.
  unfold File_ReadAll. msteps.
  destruct x as [e|]; [|destruct (fds w !! fd) as [o|];
                         [destruct (inodes w !! of_ino o)|]];
    msteps; simpl; repeat constructor.
Qed.

(** The gateway's [BlockRead] into a sink that is quiet: one gateway
    call, no failed flock or seek. *)
Lemma upstream_BlockRead_returns (gw : KeepGateway) (locator : string)
  (sink : bytes -> M unit) :
  (forall data, returns (sink data) (fun _ evs => Forall quiet evs)) ->
  returns (upstream_BlockRead gw locator sink) (fun _ evs =>
    Forall (fun e => is_lock_seek_failure e = false) evs).
Proof.
  intros Hs. unfold upstream_BlockRead. msteps.
  destruct (gw_BlockRead gw (gw_history w) locator) as [[data n] e]. msteps.
  eapply returns_conseq; [apply Hs|]. intros ? evs Hq. msteps.
  simpl. solve_events.
Qed.

Lemma os_OpenFile_returns (name : string) (flags : Z) :
  returns (os_OpenFile name flags) (fun r evs =>
    Forall quiet evs /\
    ((exists fd, r = (Some fd, None)) \/ (exists e, r = (None, Some e)))).
Proof.
  unfold os_OpenFile, new_fd. msteps.
  destruct x as [e|]; msteps; simpl; [split; [repeat constructor|eauto]|].
  destruct (files w !! name) as [ino|].
  - destruct (has_flag flags O_CREATE && has_flag flags O_EXCL); msteps; simpl;
      (split; [repeat constructor|eauto]).
  - destruct (bool_decide (name ∈ dirs w)); [|destruct (has_flag flags O_CREATE);
      [destruct (dir_exists w (parent_dir name))|]]; msteps; simpl;
      (split; [repeat constructor|eauto]).
Qed.

Lemma os_Mkdir_returns (name : string) :
  returns (os_Mkdir name) (fun _ evs => Forall quiet evs).
Proof.
  unfold os_Mkdir. msteps.
  destruct x as [e|]; msteps; simpl; [repeat constructor|].
  destruct (dir_exists w (filepath.Clean name) || _);
    [|destruct (dir_exists w (parent_dir (filepath.Clean name)))];
    msteps; simpl; repeat constructor.
Qed.

Lemma openFile_returns (name : string) (flags : Z) :
  returns (openFile name flags) (fun r evs =>
    Forall quiet evs /\
    ((exists fd, r = (Some fd, None)) \/ (exists e, r = (None, Some e)))).
Proof.
  unfold openFile. mstep.
  eapply returns_conseq; [apply os_OpenFile_returns|].
  intros [fo err] evs [Hq Hr]. cbv beta iota.
  destruct (IsNotExist err).
  - destruct (filepath.Split name) as [parent ?]. mstep.
    eapply returns_conseq; [apply os_Mkdir_returns|]. intros ? evs1 Hq1. cbv beta.
    eapply returns_conseq; [apply os_OpenFile_returns|].
    intros r evs2 [Hq2 Hr2]. split; auto.
    rewrite !Forall_app. auto.
  - mstep. rewrite app_nil_l. auto.
Qed.

(** ** The slow read path *)

Lemma upstream_ReadAt_eq (gw : KeepGateway) (locator : string) (len_dst offset : Z)
  (w : World) :
  upstream_ReadAt gw locator len_dst offset w =
    (Ok (gw_ReadAt gw (gw_history w) locator len_dst offset),
     set_trace (EvGw (GwReadAt locator len_dst offset) :: trace w) w).
Proof. reflexivity. Qed.

(** C7: on the slow path of ReadAt, if opening or creating the cache
    file fails, the call delegates to the gateway's ReadAt and returns
    its result; once the cache file is open, a flock or seek that fails
    makes the call return a diagnostic error, and no gateway operation
    is invoked. *)
Theorem ReadAt_slow_errors (gw : KeepGateway) (locator cachefilename : string)
  (len_dst offset : Z) (w w1 : World) (fo : option nat) (err : option error) :
  openFile cachefilename (Z.lor O_CREATE O_RDWR) w = (Ok (fo, err), w1) ->
  (err <> None ->
     exists w2,
       ReadAt_slow gw locator cachefilename len_dst offset w =
         (Ok (gw_ReadAt gw (gw_history w1) locator len_dst offset), w2) /\
       trace w2 = EvGw (GwReadAt locator len_dst offset) :: trace w1) /\
  (err = None ->
     exists r w2 evs,
       ReadAt_slow gw locator cachefilename len_dst offset w = (Ok r, w2) /\
       trace w2 = (evs ++ trace w1)%list /\
       (forall ev, In ev evs -> is_lock_seek_failure ev = true ->
          (exists what inner, r = ([], Some (ErrFailed what cachefilename inner))) /\
          Forall (fun e => is_gw_event e = false) evs)).
Proof.
  intros Hopen.
  destruct (openFile_returns cachefilename (Z.lor O_CREATE O_RDWR) w)
    as (r0 & w1' & evs0 & Ho & _ & _ & Hshape).
  rewrite Hopen in Ho. injection Ho as <- <-.
  unfold ReadAt_slow. rewrite !(bind_eq _ _ _ _ _ Hopen).
  split.
  - intros Herr. destruct Hshape as [[fd E]|[e E]]; injection E as -> ->; [congruence|].
    rewrite upstream_ReadAt_eq. eexists. split; reflexivity.
  - intros ->. destruct Hshape as [[fd E]|[e E]]; [|discriminate E].
    injection E as ->.
    match goal with
    | |- exists r w2 evs, ?T w1 = _ /\ _ =>
        assert (R : returns T (fun r evs =>
          Forall (fun e => is_lock_seek_failure e = false) evs \/
          ((exists what inner, r = ([], Some (ErrFailed what cachefilename inner))) /\
           Forall (fun e => is_gw_event e = false) evs)))
    end.
    { mstep. mstep.
      eapply returns_conseq; [apply syscall_Flock_returns|].
      intros e1 ev1 [[-> ->]|(e & -> & ->)]; cbv beta iota.
      2:{ mstep. mstep. eapply returns_conseq; [apply File_Close_returns|].
          intros ? evc Hc. mstep. right. split; [eauto|]. solve_events. }
      mstep.
      eapply returns_conseq; [apply File_Seek_returns|].
      intros r1 ev1 [(pos & -> & ->)|(nm & e & -> & ->)]; cbv beta iota.
      2:{ mstep. mstep. eapply returns_conseq; [apply File_Close_returns|].
          intros ? evc Hc. mstep. right. split; [eauto|]. solve_events. }
      mstep.
      assert (Hlock : returns
                (if pos <? int64 (len_dst + offset)
                 then syscall_Flock fd LOCK_EX else ret None)
                (fun r evs =>
                   (r = None /\ Forall quiet evs) \/
                   (exists e, r = Some e /\ Forall (fun e => is_gw_event e = false) evs))).
      { destruct (pos <? _).
        - eapply returns_conseq; [apply syscall_Flock_returns|].
          intros ? ? [[-> ->]|(e & -> & ->)]; [left|right; eexists];
            split; auto; repeat constructor.
        - mstep. left. split; auto. }
      eapply returns_conseq; [apply Hlock|]. clear Hlock.
      intros r2 ev2 [[-> Hq2]|(e & -> & Hg2)]; cbv beta iota.
      2:{ mstep. mstep. eapply returns_conseq; [apply File_Close_returns|].
          intros ? evc Hc. mstep. right. split; [eauto|]. solve_events. }
      mstep.
      eapply returns_conseq; [apply File_Seek_returns|].
      intros r3 ev3 [(pos' & -> & ->)|(nm & e & -> & ->)]; cbv beta iota.
      2:{ mstep. mstep. eapply returns_conseq; [apply File_Close_returns|].
          intros ? evc Hc. mstep. right. split; [eauto|]. solve_events. }
      destruct (pos' <? _).
      2:{ eapply returns_conseq; [apply File_ReadAt_returns|].
          intros r4 ev4 Hq4. mstep.
          eapply returns_conseq; [apply File_Close_returns|].
          intros ? evc Hc. mstep. left. solve_events. }
      mstep.
      eapply returns_conseq; [apply File_Seek_returns|].
      intros r4 ev4 [(pos'' & -> & ->)|(nm & e & -> & ->)]; cbv beta iota.
      2:{ mstep. mstep. eapply returns_conseq; [apply File_Close_returns|].
          intros ? evc Hc. mstep. right. split; [eauto|]. solve_events. }
      mstep.
      eapply returns_conseq.
      { apply upstream_BlockRead_returns. intros data. mstep.
        eapply returns_conseq; [apply File_Write_ok_returns|].
        intros ? evw Hw. mstep. rewrite app_nil_l. exact Hw. }
      intros [n e] ev5 Hq5. cbv beta iota.
      destruct e as [e|].
      + mstep. mstep. eapply returns_conseq; [apply File_Close_returns|].
        intros ? evc Hc. mstep. left. solve_events.
      + mstep. eapply returns_conseq; [apply File_Truncate_returns|].
        intros ? evt Ht. cbv beta.
        eapply returns_conseq; [apply File_ReadAt_returns|].
        intros r6 ev6 Hq6. mstep.
        eapply returns_conseq; [apply File_Close_returns|].
        intros ? evc Hc. mstep. left. solve_events. }
    destruct (R w1) as (r & w2 & evs & E & Ht & HQ).
    exists r, w2, evs. repeat split; auto.
    + destruct HQ as [Hnf|[Hd _]]; [|exact Hd].
      rewrite List.Forall_forall in Hnf. apply Hnf in H. congruence.
    + destruct HQ as [Hnf|[_ Hg]]; [|exact Hg].
      rewrite List.Forall_forall in Hnf. apply Hnf in H. congruence.
Qed.

Lemma ReadAt_slow_errors_witness :
  let w := set_faults [None; None; None; Some EIO] Ex.world in
  let name := "/var/cache/keep/acb/acbd18db4cc2f85cedef654fccc4a4d8.keepcacheblock" in
  let o := openFile name (Z.lor O_CREATE O_RDWR) w in
  o = (Ok (Some 0%nat, None), snd o) /\
  exists r w2 evs,
    ReadAt_slow (Ex.gateway true) "acbd18db4cc2f85cedef654fccc4a4d8+3" name 3 0 w
      = (Ok r, w2) /\
    trace w2 = evs ++ trace (snd o) /\
    (forall ev, In ev evs -> is_lock_seek_failure ev = true ->
       (exists what inner, r = ([], Some (ErrFailed what name inner))) /\
       Forall (fun e => is_gw_event e = false) evs).
Proof.
  intros w name o.
  assert (H : o = (Ok (Some 0%nat, None), snd o)) by (vm_compute; reflexivity).
  split; [exact H|].
  exact (proj2 (ReadAt_slow_errors (Ex.gateway true)
                  "acbd18db4cc2f85cedef654fccc4a4d8+3" name 3 0 w (snd o)
                  (Some 0%nat) None H) eq_refl).
Defined.

(** ** Invalid locators in [BlockRead] *)

Lemma gw_history_app (evs t : list Event) :
  Forall (fun e => is_gw_event e = false) evs ->
  omap (fun e => match e with EvGw c => Some c | EvSys _ _ => None end) (evs ++ t)
  = omap (fun e => match e with EvGw c => Some c | EvSys _ _ => None end) t.
Proof.
  induction 1 as [|e evs He _ IH]; [reflexivity|].
  simpl. destruct e; [exact IH|discriminate He].
Qed.

Lemma gw_history_quiet (w w' : World) (evs : list Event) :
  trace w' = evs ++ trace w -> Forall quiet evs -> gw_history w' = gw_history w.
Proof.
  intros Ht Hq. unfold gw_history. rewrite Ht.
  apply gw_history_app, quiet_nogw, Hq.
Qed.

Lemma Index_spec (s t : string) :
  strings.Index s t = match String.index 0 t s with
                      | Some i => Z.of_nat i
                      | None => -1
                      end.
Proof. reflexivity. Qed.

Lemma slice_from_ok (s : string) (i : nat) :
  (i <= String.length s)%nat ->
  strings.slice_from s (Z.of_nat i) = Ok (String.substring i (String.length s - i) s).
Proof.
  intros H. unfold strings.slice_from, strings.len.
  replace ((0 <=? Z.of_nat i) && (Z.of_nat i <=? Z.of_nat (String.length s))) with true.
  - rewrite Nat2Z.id. reflexivity.
  - symmetry. apply andb_true_iff. split; apply Z.leb_le; lia.
Qed.

(** C6, as the code has it: for every BlockRead call whose cache file
    could be opened or created, if the locator has no '+', or if the text
    the code takes for the size hint is rejected by ParseInt or is
    negative, the call returns an invalid-locator error and invokes no
    gateway operation. *)
Theorem BlockRead_invalid_locator (gw : KeepGateway) (L cachefilename : string)
  (w w1 : World) (fd : nat) :
  cacheFile (Dir (cache w)) L = Ok cachefilename ->
  openFile cachefilename (Z.lor O_CREATE O_RDWR) (snd (gotidy w))
    = (Ok (Some fd, None), w1) ->
  (BlockRead_sizestr L = None \/
   exists sizestr, BlockRead_sizestr L = Some sizestr /\
     (strconv.ParseInt32 sizestr = None \/
      exists v, strconv.ParseInt32 sizestr = Some v /\ v < 0)) ->
  exists e w2,
    BlockRead gw L w = (Ok ([], 0, Some e), w2) /\
    (e = ErrNoSizeHint \/ e = ErrInvalidSizeHint) /\
    gw_history w2 = gw_history w.
Proof.
  intros Hc Hopen Hbad.
  destruct (gotidy_ok w) as (w0 & Hg & HD & _ & _ & _ & _ & _ & _ & _ & _ & _ & Ht0).
  rewrite Hg in Hopen. simpl in Hopen.
  destruct (openFile_returns cachefilename (Z.lor O_CREATE O_RDWR) w0)
    as (r0 & w1' & evs0 & Ho & Ht1 & Hq1 & _).
  rewrite Hopen in Ho. injection Ho as <- <-.
  assert (Hh1 : gw_history w1 = gw_history w).
  { rewrite (gw_history_quiet w0 w1 evs0 Ht1 Hq1). unfold gw_history. rewrite Ht0. reflexivity. }
  unfold BlockRead. rewrite (bind_eq _ _ _ _ _ Hg).
  rewrite bind_get, HD, Hc, bind_lift_Ok, (bind_eq _ _ _ _ _ Hopen). cbv beta iota.
  assert (Hfin : forall e : error, exists w2,
            bind (ret (([] : bytes), 0, Some e))
              (fun r => bind (File_Close fd) (fun _ => ret r)) w1
            = (Ok ([], 0, Some e), w2) /\ gw_history w2 = gw_history w).
  { intros e. destruct (File_Close_returns fd w1) as (rc & w2 & evc & Ec & Htc & Hqc).
    exists w2. split.
    - rewrite bind_ret, (bind_eq _ _ _ _ _ Ec). reflexivity.
    - rewrite (gw_history_quiet w1 w2 evc Htc Hqc). exact Hh1. }
  rewrite Index_spec. unfold BlockRead_sizestr in Hbad.
  destruct (String.index 0 "+" L) as [i|] eqn:Ei.
  - assert (Hlt := index_lt "+" L 0 i ltac:(discriminate) Ei).
    replace ((Z.of_nat i <? 0) || (Z.of_nat i >=? strings.len L)) with false.
    2:{ symmetry. apply orb_false_iff. unfold strings.len. split; [apply Z.ltb_ge|]; lia. }
    replace (Z.of_nat i + 1) with (Z.of_nat (Datatypes.S i)) by lia.
    rewrite slice_from_ok by lia.
    rewrite bind_assoc, bind_lift_Ok, bind_assoc.
    set (s0 := String.substring (Datatypes.S i) (String.length L - Datatypes.S i) L) in *.
    destruct Hbad as [Hbad|(sizestr & Hs & Hp)];
      [destruct (String.index 0 "+" s0) as [[|j]|]; discriminate Hbad|].
    assert (Hsz : (if 0 <? strings.Index s0 "+"
                   then lift (strings.slice_to s0 (strings.Index s0 "+"))
                   else ret s0) = ret sizestr).
    { rewrite Index_spec.
      destruct (String.index 0 "+" s0) as [[|j]|] eqn:Ej; injection Hs as <-; try reflexivity.
      assert (Hj := index_lt "+" s0 0 (Datatypes.S j) ltac:(discriminate) Ej).
      replace (0 <? Z.of_nat (Datatypes.S j)) with true by (symmetry; apply Z.ltb_lt; lia).
      rewrite slice_to_ok by lia. reflexivity. }
    rewrite Hsz, bind_ret.
    destruct Hp as [Hp|(v & Hp & Hv)]; rewrite Hp.
    + destruct (Hfin ErrInvalidSizeHint) as (w2 & E2 & H2). exists ErrInvalidSizeHint, w2. auto.
    + replace (v <? 0) with true by (symmetry; apply Z.ltb_lt; lia).
      destruct (Hfin ErrInvalidSizeHint) as (w2 & E2 & H2). exists ErrInvalidSizeHint, w2. auto.
  - simpl ((-1 <? 0) || _).
    destruct (Hfin ErrNoSizeHint) as (w2 & E2 & H2). exists ErrNoSizeHint, w2. auto.
Qed.

Lemma BlockRead_invalid_locator_witness :
  let L := "acbd18db4cc2f85cedef654fccc4a4d8+x" in
  let name := "/var/cache/keep/acb/acbd18db4cc2f85cedef654fccc4a4d8.keepcacheblock" in
  let o := openFile name (Z.lor O_CREATE O_RDWR) (snd (gotidy Ex.world)) in
  o = (Ok (Some 0%nat, None), snd o) /\
  exists e w2,
    BlockRead (Ex.gateway true) L Ex.world = (Ok ([], 0, Some e), w2) /\
    (e = ErrNoSizeHint \/ e = ErrInvalidSizeHint) /\
    gw_history w2 = gw_history Ex.world.
Proof.
  intros L name o.
  assert (H : o = (Ok (Some 0%nat, None), snd o)) by (vm_compute; reflexivity).
  split; [exact H|].
  refine (BlockRead_invalid_locator (Ex.gateway true) L name Ex.world (snd o) 0%nat _ H _).
  - vm_compute; reflexivity.
  - right. exists "x". split; [vm_compute; reflexivity|]. left. vm_compute; reflexivity.
Defined.

(** C6 as stated fails twice. A locator without a size hint, given to a
    cache whose directory is missing: the cache file cannot be opened,
    BlockRead hands the call to the gateway and returns its answer. And
    a locator whose size-hint field is empty ("hash++16"): the code
    parses "+16" and goes on to fetch the block. *)
Lemma BlockRead_invalid_locator_not_rejected :
  let gw := Ex.gateway true in
  let L1 := "acbd18db4cc2f85cedef654fccc4a4d8" in
  let L2 := "acbd18db4cc2f85cedef654fccc4a4d8++16" in
  (spec_size_hint L1 = None /\
   fst (BlockRead gw L1 Ex.world_nodir) = Ok (Ex.block, 16, None) /\
   gw_history (snd (BlockRead gw L1 Ex.world_nodir)) = [GwBlockRead L1]) /\
  (spec_size_hint L2 = Some "" /\ spec_is_nonneg_int "" = false /\
   fst (BlockRead gw L2 Ex.world) = Ok (Ex.block, 16, None) /\
   gw_history (snd (BlockRead gw L2 Ex.world)) = [GwBlockRead L2]).
Proof. vm_compute. repeat split. Qed.

(** ** Eviction *)

Lemma int64_id (z : Z) : - 2 ^ 63 <= z < 2 ^ 63 -> int64 z = z.
Proof.
  intros H. unfold int64.
  rewrite Z.mod_small by lia. lia.
Qed.

Lemma sum_sizes_app (l1 l2 : list entT) :
  sum_sizes (l1 ++ l2) = sum_sizes l1 + sum_sizes l2.
Proof. induction l1 as [|e l1 IH]; simpl; [reflexivity|]. rewrite IH. lia. Qed.

Lemma sum_sizes_perm (l1 l2 : list entT) :
  Permutation l1 l2 -> sum_sizes l1 = sum_sizes l2.
Proof. induction 1; simpl; lia. Qed.

Lemma sum_sizes_nonneg (l : list entT) :
  Forall (fun e => 0 <= ent_size e) l -> 0 <= sum_sizes l.
Proof. induction 1; simpl; lia. Qed.

Lemma sum_sizes_take_le (l : list entT) (k : nat) :
  Forall (fun e => 0 <= ent_size e) l -> 0 <= sum_sizes (take k l) <= sum_sizes l.
Proof.
  intros H. revert k. induction H as [|e l He Hl IH]; intros [|k]; simpl; try lia.
  - pose proof (sum_sizes_nonneg l Hl). lia.
  - specialize (IH k). lia.
Qed.

(** The running total of the scan is the plain sum when it fits. *)
Lemma scan_total (l : list entT) (t : Z) :
  Forall (fun e => 0 <= ent_size e) l ->
  0 <= t -> t + sum_sizes l < 2 ^ 63 ->
  fold_left (fun t e => int64 (t + ent_size e)) l t = t + sum_sizes l.
Proof.
  intros H. revert t. induction H as [|e l He Hl IH]; intros t Ht Hs; simpl in *; [lia|].
  pose proof (sum_sizes_nonneg l Hl).
  rewrite int64_id by lia. rewrite IH by lia. lia.
Qed.

Lemma tidy_scan_sizes (w : World) : Forall (fun e => 0 <= ent_size e) (tidy_scan w).
Proof.
  unfold tidy_scan. apply List.Forall_forall. intros e He.
  apply list_elem_of_In, list_elem_of_omap in He. destruct He as ([p ino] & _ & He).
  destruct (_ && _); [|discriminate].
  destruct (inodes w !! ino); [|discriminate].
  injection He as <-. simpl. lia.
Qed.

Lemma os_Remove_files (name : string) (w : World) :
  exists w', os_Remove name w = (Ok tt, w') /\
    files w' = delete name (files w) /\ cache w' = cache w.
Proof.
  unfold os_Remove. munfold.
  destruct (files w !! name) as [ino|] eqn:E; simpl.
  - eexists. split; [reflexivity|]. auto.
  - eexists. split; [reflexivity|]. simpl. rewrite delete_id by exact E. auto.
Qed.

Lemma sum_take_S (e : entT) (l : list entT) (k : nat) :
  sum_sizes (take (Datatypes.S k) (e :: l)) = ent_size e + sum_sizes (take k l).
Proof. reflexivity. Qed.

Lemma sum_take_0 (l : list entT) : sum_sizes (take 0 l) = 0.
Proof. rewrite take_0. reflexivity. Qed.

Lemma unlink_take_S (e : entT) (l : list entT) (k : nat) (m : gmap string nat) :
  unlink_all (take (Datatypes.S k) (e :: l)) m
  = unlink_all (take k l) (delete (ent_path e) m).
Proof. reflexivity. Qed.

Lemma unlink_take_0 (l : list entT) (m : gmap string nat) :
  unlink_all (take 0 l) m = m.
Proof. rewrite take_0. reflexivity. Qed.

(** The deletion loop on entries whose sizes add up to no more than the
    running total: it deletes the first [k] of them, [k] being the first
    count at which the total is within the budget (or all of them). *)
Lemma tidy_loop_spec (maxsize : Z) (l : list entT) :
  forall (t d : Z) (w : World),
    l <> [] ->
    Forall (fun e => 0 <= ent_size e) l ->
    sum_sizes l <= t -> t < 2 ^ 63 ->
    exists (k : nat) (w' : World),
      tidy_loop l t maxsize d w
        = (Ok (d + Z.of_nat k, t - sum_sizes (take k l)), w') /\
      (1 <= k <= List.length l)%nat /\
      (forall j, (1 <= j < k)%nat -> maxsize < t - sum_sizes (take j l)) /\
      (t - sum_sizes (take k l) <= maxsize \/ k = List.length l) /\
      files w' = unlink_all (take k l) (files w) /\
      cache w' = cache w.
Proof.
  induction l as [|e l IH]; intros t d w Hne Hf Hs Ht; [congruence|].
  inversion Hf as [|? ? He Hl]; subst. simpl in Hs.
  pose proof (sum_sizes_nonneg l Hl) as Hnn.
  simpl tidy_loop.
  destruct (os_Remove_files (ent_path e) w) as (w1 & E1 & Hf1 & Hc1).
  rewrite (bind_eq _ _ _ _ _ E1).
  rewrite int64_id by lia.
  destruct (t - ent_size e <=? maxsize) eqn:Hle.
  - apply Z.leb_le in Hle.
    exists 1%nat, w1. rewrite sum_take_S, sum_take_0, unlink_take_S, unlink_take_0.
    split; [unfold ret; repeat f_equal; lia|].
    split; [simpl; lia|]. split; [intros j Hj; lia|]. split; [left; lia|].
    split; [exact Hf1|exact Hc1].
  - apply Z.leb_gt in Hle.
    destruct l as [|e' l'].
    + exists 1%nat, w1. rewrite sum_take_S, sum_take_0, unlink_take_S, unlink_take_0.
      split; [simpl tidy_loop; unfold ret; repeat f_equal; lia|].
      split; [simpl; lia|]. split; [intros j Hj; lia|]. split; [right; reflexivity|].
      split; [exact Hf1|exact Hc1].
    + destruct (IH (t - ent_size e) (d + 1) w1 ltac:(discriminate) Hl ltac:(lia) ltac:(lia))
        as (k & w' & E & Hk & Hj & Hstop & Hfiles & Hc).
      exists (Datatypes.S k), w'. rewrite E, sum_take_S, unlink_take_S.
      split; [f_equal; f_equal; f_equal; lia|].
      split; [simpl in *; lia|].
      split.
      { intros j Hjk. destruct j as [|[|j]]; [lia| |].
        - rewrite sum_take_S, sum_take_0. lia.
        - specialize (Hj (Datatypes.S j) ltac:(lia)).
          rewrite sum_take_S. lia. }
      split.
      { destruct Hstop as [Hstop|Hstop]; [left; lia|right; simpl in *; lia]. }
      split; [|rewrite Hc, Hc1; reflexivity].
      rewrite Hfiles, Hf1. reflexivity.
Qed.

Section Tidy.

(** [sort.Slice] leaves the slice a permutation of what it was, sorted
    for the order it was given; that is all [tidy] may rely on. *)
Variable sort_Slice : (entT -> entT -> bool) -> list entT -> list entT.
Hypothesis sort_Slice_perm :
  forall less l, Permutation (sort_Slice less l) l.
Hypothesis sort_Slice_sorted :
  forall l, Sorted atime_le (sort_Slice atime_less l).

Lemma sorted_head_oldest (e : entT) (l : list entT) :
  Sorted atime_le (e :: l) -> Forall (atime_le e) (e :: l).
Proof.
  intros H. apply Sorted_StronglySorted in H.
  - inversion H; subst. constructor; [unfold atime_le; lia|assumption].
  - intros a b c. unfold atime_le. lia.
Qed.

(** C9: a tidy pass that finds more than maxsize sorts the entries by
    access time ascending and deletes them in that order, taking each
    entry's size off the running total and stopping as soon as the
    total is within maxsize; with maxsize 1024 and three 512-byte
    blocks it deletes exactly one, the oldest, and leaves 1024. *)
Theorem tidy_evicts_oldest (maxsize : Z) (w : World) :
  let ents := tidy_scan w in
  let total := sum_sizes ents in
  let sorted := sort_Slice atime_less ents in
  0 < maxsize -> total < 2 ^ 63 -> maxsize < total ->
  Sorted atime_le sorted /\ Permutation sorted ents /\
  exists (k : nat) (w' : World),
    tidy_locked sort_Slice maxsize w
      = (Ok {| checked := Some (total, maxsize);
               remaining := Some (Z.of_nat k, total - sum_sizes (take k sorted)) |},
         w') /\
    (1 <= k <= List.length sorted)%nat /\
    (forall j, (1 <= j < k)%nat -> maxsize < total - sum_sizes (take j sorted)) /\
    total - sum_sizes (take k sorted) <= maxsize /\
    files w' = unlink_all (take k sorted) (files w) /\
    (maxsize = 1024 -> List.length ents = 3%nat ->
     Forall (fun e => ent_size e = 512) ents ->
     k = 1%nat /\ total - sum_sizes (take k sorted) = 1024 /\
     exists oldest, take k sorted = [oldest] /\ Forall (atime_le oldest) ents).
Proof.
  intros ents total sorted Hmax Hfit Hover.
  assert (Hperm : Permutation sorted ents) by apply sort_Slice_perm.
  assert (Hsorted : Sorted atime_le sorted) by apply sort_Slice_sorted.
  split; [exact Hsorted|]. split; [exact Hperm|].
  assert (Hnn : Forall (fun e => 0 <= ent_size e) ents) by apply tidy_scan_sizes.
  assert (Hnn' : Forall (fun e => 0 <= ent_size e) sorted).
  { apply List.Forall_forall. intros e He.
    rewrite List.Forall_forall in Hnn. apply Hnn.
    eapply Permutation_in; [exact Hperm|exact He]. }
  assert (Hsum : sum_sizes sorted = total) by (apply sum_sizes_perm, Hperm).
  assert (Hne : sorted <> []).
  { intros E. rewrite E in Hsum. simpl in Hsum. lia. }
  destruct (tidy_loop_spec maxsize sorted total 0 w Hne Hnn' ltac:(lia) Hfit)
    as (k & w' & E & Hk & Hj & Hstop & Hfiles & _).
  assert (Hfinal : total - sum_sizes (take k sorted) <= maxsize).
  { destruct Hstop as [Hs|Hs]; [assumption|]. rewrite Hs, firstn_all, Hsum. lia. }
  exists k, w'.
  split.
  { unfold tidy_locked. rewrite bind_get.
    fold ents. rewrite (scan_total ents 0 Hnn ltac:(lia) ltac:(fold total; lia)).
    rewrite Z.add_0_l. fold total.
    replace (maxsize =? 0) with false by (symmetry; apply Z.eqb_neq; lia).
    replace (total <=? maxsize) with false by (symmetry; apply Z.leb_gt; lia).
    change (sort_Slice (fun a b => ent_atime a <? ent_atime b) ents) with sorted.
    rewrite (bind_eq _ _ _ _ _ E). rewrite Z.add_0_l. reflexivity. }
  split; [exact Hk|]. split; [exact Hj|]. split; [exact Hfinal|].
  split; [exact Hfiles|].
  intros -> Hlen Hsz.
  assert (Hsz' : Forall (fun e => ent_size e = 512) sorted).
  { apply List.Forall_forall. intros e He.
    rewrite List.Forall_forall in Hsz. apply Hsz.
    eapply Permutation_in; [exact Hperm|exact He]. }
  assert (Hlen' : List.length sorted = 3%nat)
    by (rewrite (Permutation_length Hperm); exact Hlen).
  destruct sorted as [|a [|b [|c [|? ?]]]] eqn:Es; try discriminate Hlen'.
  inversion Hsz' as [|? ? Ha Hsz1]; subst.
  inversion Hsz1 as [|? ? Hb Hsz2]; subst.
  inversion Hsz2 as [|? ? Hc _]; subst.
  assert (Htot : total = 1536) by (rewrite <- Hsum; simpl; lia).
  assert (Hk1 : k = 1%nat).
  { destruct k as [|[|k]]; [lia|reflexivity|].
    specialize (Hj 1%nat ltac:(lia)). simpl in Hj. lia. }
  subst k. split; [reflexivity|]. split; [simpl; lia|].
  exists a. split; [reflexivity|].
  apply List.Forall_forall. intros e He.
  pose proof (sorted_head_oldest a [b; c] Hsorted) as Hold.
  rewrite List.Forall_forall in Hold. apply Hold.
  eapply Permutation_in; [apply Permutation_sym; exact Hperm|exact He].
Qed.

End Tidy.

(** Insertion sort meets the contract of [sort.Slice]. *)
Lemma insert_by_perm (less : entT -> entT -> bool) (x : entT) (l : list entT) :
  Permutation (Ex.insert_by less x l) (x :: l).
Proof.
  induction l as [|y l IH]; simpl; [reflexivity|].
  destruct (less x y); [reflexivity|].
  rewrite IH. apply perm_swap.
Qed.

Lemma insertion_sort_perm (less : entT -> entT -> bool) (l : list entT) :
  Permutation (Ex.insertion_sort less l) l.
Proof.
  induction l as [|x l IH]; simpl; [reflexivity|].
  unfold Ex.insertion_sort in *. simpl.
  rewrite insert_by_perm. constructor. exact IH.
Qed.

Lemma insert_by_sorted (x : entT) (l : list entT) :
  Sorted atime_le l -> Sorted atime_le (Ex.insert_by atime_less x l).
Proof.
  induction 1 as [|y l Hs IH Hhd]; simpl; [repeat constructor|].
  unfold atime_less at 1. destruct (ent_atime x <? ent_atime y) eqn:E.
  - apply Z.ltb_lt in E. constructor; [constructor; assumption|].
    constructor. unfold atime_le. lia.
  - apply Z.ltb_ge in E. constructor; [exact IH|].
    destruct l as [|z l]; simpl.
    + constructor. exact E.
    + unfold atime_less at 1. destruct (ent_atime x <? ent_atime z).
      * constructor. exact E.
      * inversion Hhd; subst. constructor. assumption.
Qed.

Lemma insertion_sort_sorted (l : list entT) :
  Sorted atime_le (Ex.insertion_sort atime_less l).
Proof.
  induction l as [|x l IH]; [constructor|].
  unfold Ex.insertion_sort in *. simpl. apply insert_by_sorted, IH.
Qed.

Lemma tidy_evicts_oldest_witness :
  let w := Ex.world_three in
  let sorted := Ex.insertion_sort atime_less (tidy_scan w) in
  (0 < 1024 /\ sum_sizes (tidy_scan w) < 2 ^ 63 /\ 1024 < sum_sizes (tidy_scan w)) /\
  exists (k : nat) (w' : World),
    tidy_locked Ex.insertion_sort 1024 w
      = (Ok {| checked := Some (sum_sizes (tidy_scan w), 1024);
               remaining := Some (Z.of_nat k,
                                  sum_sizes (tidy_scan w) - sum_sizes (take k sorted)) |},
         w') /\
    (1 <= k <= List.length sorted)%nat /\
    (forall j, (1 <= j < k)%nat ->
       1024 < sum_sizes (tidy_scan w) - sum_sizes (take j sorted)) /\
    sum_sizes (tidy_scan w) - sum_sizes (take k sorted) <= 1024 /\
    files w' = unlink_all (take k sorted) (files w) /\
    (1024 = 1024 -> List.length (tidy_scan w) = 3%nat ->
     Forall (fun e => ent_size e = 512) (tidy_scan w) ->
     k = 1%nat /\ sum_sizes (tidy_scan w) - sum_sizes (take k sorted) = 1024 /\
     exists oldest, take k sorted = [oldest] /\ Forall (atime_le oldest) (tidy_scan w)).
Proof.
  intros w sorted.
  assert (H1 : 0 < 1024) by lia.
  assert (H2 : sum_sizes (tidy_scan w) < 2 ^ 63) by (vm_compute; reflexivity).
  assert (H3 : 1024 < sum_sizes (tidy_scan w)) by (vm_compute; reflexivity).
  split; [auto|].
  exact (proj2 (proj2 (tidy_evicts_oldest Ex.insertion_sort insertion_sort_perm
                         insertion_sort_sorted 1024 w H1 H2 H3))).
Defined.

(** The scenario end to end: the goroutine started by [gotidy] runs
    [tidy] on the three blocks, unlinks the one read longest ago and
    reports one file deleted and 1024 bytes left. *)
Example tidy_three_blocks :
  let r := tidy Ex.insertion_sort Ex.world_three in
  fst r = Ok {| checked := Some (1536, 1024); remaining := Some (1, 1024) |} /\
  files (snd r) !! Ex.cached_path 2 = None /\
  is_Some (files (snd r) !! Ex.cached_path 1) /\
  is_Some (files (snd r) !! Ex.cached_path 3).
Proof. vm_compute. repeat split; eauto. Qed.

(** ** [BlockWrite]: what each goroutine leaves alone *)

Lemma feeder_do_cases {A} (m : M A) (s : BW) (k : A -> BW -> BW) :
  (exists a w', m (bw_world s) = (Ok a, w') /\
                feeder_do m s k = k a (set_world w' s)) \/
  (exists p w', m (bw_world s) = (Panic p, w') /\
                feeder_do m s k = set_feeder (FPanicked p) (set_world w' s)).
Proof.
  unfold feeder_do. destruct (m (bw_world s)) as [[a|p] w']; [left|right]; eauto.
Qed.

(** The feeder never touches the caller's program point, the options,
    or the names of the temp file. *)
Lemma feeder_step_frame (s : BW) :
  bw_main (feeder_step s) = bw_main s /\
  bw_opts (feeder_step s) = bw_opts s /\
  bw_tmpfilename (feeder_step s) = bw_tmpfilename s /\
  bw_tmpfile (feeder_step s) = bw_tmpfile s /\
  bw_rclosed (feeder_step s) = bw_rclosed s.
Proof.
  unfold feeder_step, feeder_fail.
  destruct (bw_feeder s) as [[|c rest] fin n|c rest fin n|n [e|]| |h| | |p];
    try (simpl; tauto).
  - destruct (feeder_do_cases (File_Write (bw_tmpfile s) c) s
      (fun '(_, e) s => match e with
                        | Some e => set_feeder (FCopied n (Some e)) s
                        | None => set_feeder (FPipe c rest fin n) (set_pipe (Some c) s)
                        end))
      as [([z [e|]] & w' & _ & ->)|(p & w' & _ & ->)]; simpl; tauto.
  - destruct (bw_pipe s) as [[|b pending]|]; simpl; try tauto.
    destruct (bw_rclosed s) eqn:Er; simpl; rewrite ?Er; tauto.
  - destruct (_ && _); [simpl; tauto|].
    destruct (feeder_do_cases (File_Close (bw_tmpfile s)) s
      (fun e s => match e with
                  | Some _ => set_feeder FDefers s
                  | None => set_feeder FSum s
                  end))
      as [([e|] & w' & _ & ->)|(p & w' & _ & ->)]; simpl; tauto.
  - destruct (_ && _); simpl; tauto.
  - match goal with
    | |- context [feeder_do ?m s ?k] =>
        destruct (feeder_do_cases m s k) as [(a & w' & _ & ->)|(p & w' & _ & ->)]
    end; simpl; tauto.
  - match goal with
    | |- context [feeder_do ?m ?s' ?k] =>
        destruct (feeder_do_cases m s' k) as [(a & w' & _ & ->)|(p & w' & _ & ->)]
    end; simpl; tauto.
Qed.

(** The caller never touches the world or the feeder. *)
Lemma main_step_frame (s : BW) :
  bw_world (main_step s) = bw_world s /\
  bw_feeder (main_step s) = bw_feeder s /\
  bw_hashcheck (main_step s) = bw_hashcheck s /\
  bw_opts (main_step s) = bw_opts s /\
  bw_tmpfilename (main_step s) = bw_tmpfilename s /\
  bw_tmpfile (main_step s) = bw_tmpfile s.
Proof.
  unfold main_step.
  destruct (bw_main s) as [[resp e|max k|k]|resp e]; try (simpl; tauto).
  destruct (bw_pipe s) as [[|b pending]|]; try destruct (bw_wclosed s); simpl; tauto.
Qed.

Lemma bw_run_cons (t : Thread) (sched : list Thread) (s : BW) :
  bw_run (t :: sched) s = bw_run sched (bw_step s t).
Proof. reflexivity. Qed.

Lemma bw_run_app (sched1 sched2 : list Thread) (s : BW) :
  bw_run (sched1 ++ sched2) s = bw_run sched2 (bw_run sched1 s).
Proof. unfold bw_run. apply fold_left_app. Qed.


(** ** Error precedence *)


(** ** What the feeder's system calls do to the disk *)

Lemma File_Write_spec (fd : nat) (c : bytes) (w : World) :
  exists r w' evs,
    File_Write fd c w = (Ok r, w') /\
    trace w' = evs ++ trace w /\ Forall quiet evs /\
    files w' = files w /\ cache w' = cache w /\ dirs w' = dirs w /\
    ((exists nm en, snd r = Some (ErrSys "write" nm en)) \/
     (snd r = None /\
      exists o i, fds w !! fd = Some o /\ inodes w !! of_ino o = Some i /\
        fds w' = <[fd := {| of_name := of_name o; of_ino := of_ino o;
                            of_off := of_off o + Z.of_nat (List.length c) |}]> (fds w) /\
        inodes w' = <[of_ino o := {| i_data := overwrite (i_data i) (Z.to_nat (of_off o)) c;
                                     i_atime := i_atime i |}]> (inodes w))).
Proof.
  unfold File_Write, File_Write_ok. munfold.
  destruct (faults w) as [|[e|] fl]; simpl.
  - destruct (fds w !! fd) as [o|] eqn:Ef; simpl;
      [destruct (inodes w !! of_ino o) as [i|] eqn:Ei; simpl|].
    + do 3 eexists. split; [reflexivity|]. simpl.
      split; [instantiate (1 := [_]); reflexivity|].
      split; [repeat constructor|]. repeat split; auto.
      right. split; [reflexivity|]. exists o, i. auto.
    + do 3 eexists. split; [reflexivity|]. simpl.
      split; [instantiate (1 := [_]); reflexivity|].
      split; [repeat constructor|]. repeat split; eauto.
    + do 3 eexists. split; [reflexivity|]. simpl.
      split; [instantiate (1 := [_]); reflexivity|].
      split; [repeat constructor|]. repeat split; eauto.
  - do 3 eexists. split; [reflexivity|]. simpl.
    split; [instantiate (1 := [_]); reflexivity|].
    split; [repeat constructor|]. repeat split; eauto.
  - destruct (fds w !! fd) as [o|] eqn:Ef; simpl;
      [destruct (inodes w !! of_ino o) as [i|] eqn:Ei; simpl|].
    + do 3 eexists. split; [reflexivity|]. simpl.
      split; [instantiate (1 := [_]); reflexivity|].
      split; [repeat constructor|]. repeat split; auto.
      right. split; [reflexivity|]. exists o, i. auto.
    + do 3 eexists. split; [reflexivity|]. simpl.
      split; [instantiate (1 := [_]); reflexivity|].
      split; [repeat constructor|]. repeat split; eauto.
    + do 3 eexists. split; [reflexivity|]. simpl.
      split; [instantiate (1 := [_]); reflexivity|].
      split; [repeat constructor|]. repeat split; eauto.
Qed.

Lemma File_Close_spec (fd : nat) (w : World) :
  exists r w' evs,
    File_Close fd w = (Ok r, w') /\
    trace w' = evs ++ trace w /\ Forall quiet evs /\
    files w' = files w /\ inodes w' = inodes w /\ cache w' = cache w /\
    dirs w' = dirs w /\ heap w' = heap w /\
    (r = None -> faults w' = tl (faults w) /\ fds w' = delete fd (fds w)).
Proof.
  unfold File_Close. munfold.
  destruct (fds w !! fd) as [o|] eqn:Ef; simpl.
  - destruct (faults w) as [|[e|] fl] eqn:Efl; simpl.
    + do 3 eexists. split; [reflexivity|]. simpl.
      split; [instantiate (1 := [_]); reflexivity|].
      split; [repeat constructor|]. repeat split; auto.
    + do 3 eexists. split; [reflexivity|]. simpl.
      split; [instantiate (1 := [_]); reflexivity|].
      split; [repeat constructor|]. repeat split; auto; discriminate.
    + do 3 eexists. split; [reflexivity|]. simpl.
      split; [instantiate (1 := [_]); reflexivity|].
      split; [repeat constructor|]. repeat split; auto.
  - exists (Some (ErrSys "close" "" EBADF)), w, []. repeat split; auto; discriminate.
Qed.

Lemma os_Remove_spec (name : string) (w : World) :
  exists w' evs,
    os_Remove name w = (Ok tt, w') /\
    trace w' = evs ++ trace w /\ Forall quiet evs /\
    files w' = delete name (files w) /\ inodes w' = inodes w /\
    cache w' = cache w /\ dirs w' = dirs w /\ fds w' = fds w /\
    heap w' = heap w /\ faults w' = faults w.
Proof.
  unfold os_Remove. munfold.
  destruct (files w !! name) as [ino|] eqn:E; simpl.
  - do 2 eexists. split; [reflexivity|]. simpl.
    split; [instantiate (1 := [_]); reflexivity|].
    split; [repeat constructor|]. repeat split; auto.
  - do 2 eexists. split; [reflexivity|]. simpl.
    split; [instantiate (1 := [_]); reflexivity|].
    split; [repeat constructor|]. rewrite delete_id by exact E. repeat split; auto.
Qed.

Lemma feeder_do_ok {A} (m : M A) (s : BW) (k : A -> BW -> BW) (a : A) (w' : World) :
  m (bw_world s) = (Ok a, w') -> feeder_do m s k = k a (set_world w' s).
Proof. intros H. unfold feeder_do. rewrite H. reflexivity. Qed.

Lemma renames_quiet (w w' : World) (evs : list Event) :
  trace w' = evs ++ trace w -> Forall quiet evs -> renames (trace w') = renames (trace w).
Proof.
  intros Ht Hq. rewrite Ht, renames_app, (quiet_norename evs Hq). reflexivity.
Qed.

(** ** No commit before the checks *)

(** A step that leaves the feeder before line 170 started there, and
    renamed nothing. *)
Lemma step_before_rename (s : BW) (t : Thread) :
  before_rename (bw_feeder (bw_step s t)) ->
  before_rename (bw_feeder s) /\
  renames (trace (bw_world (bw_step s t))) = renames (trace (bw_world s)).
Proof.
  destruct t; simpl.
  - destruct (main_step_frame s) as (-> & -> & _). auto.
  - unfold feeder_step, feeder_fail.
    destruct (bw_feeder s) as [[|c rest] fin n|c rest fin n|n [e|]| |h| | |p] eqn:Epc;
      simpl; try tauto.
    + destruct (File_Write_spec (bw_tmpfile s) c (bw_world s))
        as ([z e] & w' & evs & E & Ht & Hq & _).
      rewrite (feeder_do_ok _ _ _ _ _ E).
      destruct e; simpl; intros _; (split; [exact I|]);
        apply (renames_quiet _ _ _ Ht Hq).
    + destruct (bw_pipe s) as [[|b pending]|]; simpl; try tauto.
      destruct (bw_rclosed s); simpl; tauto.
    + destruct (_ && _); simpl; [tauto|].
      destruct (File_Close_spec (bw_tmpfile s) (bw_world s))
        as (r & w' & evs & E & Ht & Hq & _).
      rewrite (feeder_do_ok _ _ _ _ _ E).
      destruct r; simpl; [tauto|]. intros _. split; [exact I|].
      apply (renames_quiet _ _ _ Ht Hq).
    + destruct (_ && _); simpl; tauto.
    + match goal with
      | |- context [feeder_do ?m s ?k] =>
          destruct (feeder_do_cases m s k) as [(a & w' & _ & ->)|(p & w' & _ & ->)]
      end; simpl; tauto.
    + match goal with
      | |- context [feeder_do ?m ?s' ?k] =>
          destruct (feeder_do_cases m s' k) as [(a & w' & _ & ->)|(p & w' & _ & ->)]
      end; simpl; tauto.
    + rewrite Epc. simpl. tauto.
    + rewrite Epc. simpl. tauto.
Qed.

Lemma run_before_rename (sched : list Thread) (s : BW) :
  before_rename (bw_feeder (bw_run sched s)) ->
  before_rename (bw_feeder s) /\
  renames (trace (bw_world (bw_run sched s))) = renames (trace (bw_world s)).
Proof.
  revert s. induction sched as [|t sched IH]; intros s H; [simpl in *; auto|].
  rewrite bw_run_cons in *. destruct (IH _ H) as [H1 H2].
  destruct (step_before_rename s t H1) as [H3 H4].
  split; [exact H3|]. rewrite H2, H4. reflexivity.
Qed.

(** ** After a mismatch *)

Lemma mismatch_step (s : BW) (e : error) :
  mismatch s e ->
  bw_feeder (feeder_step s) = FDefers /\
  bw_copyerr (feeder_step s) = Some e /\
  bw_world (feeder_step s) = bw_world s /\
  bw_main (feeder_step s) = bw_main s /\
  bw_tmpfilename (feeder_step s) = bw_tmpfilename s.
Proof.
  intros [(n & Hpc & Hpos & Hne & ->)|(Hpc & Hh & Hne & ->)];
    unfold feeder_step, feeder_fail; rewrite Hpc.
  - replace ((DataSize (bw_opts s) >? 0) && negb (DataSize (bw_opts s) =? n)) with true.
    + simpl. auto.
    + symmetry. apply andb_true_iff. split; [apply Z.gtb_lt; lia|].
      apply negb_true_iff, Z.eqb_neq. exact Hne.
  - replace (negb (Hash (bw_opts s) =? "")%string
             && negb (Hash (bw_opts s) =? hex (md5.Sum (bw_hashcheck s)))%string) with true.
    + simpl. auto.
    + symmetry. apply andb_true_iff.
      split; apply negb_true_iff, String.eqb_neq; assumption.
Qed.

Lemma defers_spec (tmp : string) (fd : nat) (w : World) :
  exists r w' evs,
    bind (os_Remove tmp) (fun _ => File_Close fd) w = (Ok r, w') /\
    trace w' = evs ++ trace w /\ Forall quiet evs /\
    files w' = delete tmp (files w) /\ inodes w' = inodes w /\
    cache w' = cache w /\ heap w' = heap w /\
    (faults w = [] -> faults w' = []).
Proof.
  destruct (os_Remove_spec tmp w)
    as (w1 & ev1 & E1 & Ht1 & Hq1 & Hf1 & Hi1 & Hc1 & _ & _ & Hh1 & Hfl1).
  destruct (File_Close_spec fd w1)
    as (r & w2 & ev2 & E2 & Ht2 & Hq2 & Hf2 & Hi2 & Hc2 & _ & Hh2 & Hfl2).
  exists r, w2, (ev2 ++ ev1). rewrite (bind_eq _ _ _ _ _ E1), E2.
  split; [reflexivity|].
  split; [rewrite Ht2, Ht1, app_assoc; reflexivity|].
  split; [apply Forall_app; auto|].
  repeat split; try congruence.
  intros Hnil. rewrite Hnil in Hfl1.
  revert E2. unfold File_Close. munfold.
  destruct (fds w1 !! fd); rewrite ?Hfl1; simpl; intros E2; injection E2 as <- <-;
    simpl; auto.
Qed.

Lemma winding_down_step (tmp : string) (r0 : list Event) (s : BW) (t : Thread) :
  winding_down tmp r0 s -> winding_down tmp r0 (bw_step s t).
Proof.
  intros (Htmp & Hr & Hpc). destruct t; simpl.
  - destruct (main_step_frame s) as (Hw & Hf & _ & _ & Hn & _).
    unfold winding_down. rewrite Hw, Hf, Hn. auto.
  - unfold feeder_step. destruct Hpc as [Hpc|[Hpc Hgone]]; rewrite Hpc.
    + destruct (defers_spec (bw_tmpfilename s) (bw_tmpfile s) (bw_world s))
        as (r & w' & evs & E & Ht & Hq & Hfiles & _).
      rewrite (feeder_do_ok _ (set_wclosed true s) _ r w') by exact E.
      unfold winding_down. simpl.
      split; [exact Htmp|]. split.
      * rewrite (renames_quiet _ _ _ Ht Hq). exact Hr.
      * right. split; [reflexivity|]. rewrite Hfiles, <- Htmp. apply lookup_delete_eq.
    + unfold winding_down. rewrite Hpc. auto.
Qed.

Lemma winding_down_run (tmp : string) (r0 : list Event) (sched : list Thread) (s : BW) :
  winding_down tmp r0 s -> winding_down tmp r0 (bw_run sched s).
Proof.
  revert s. induction sched as [|t sched IH]; intros s H; [exact H|].
  rewrite bw_run_cons. apply IH, winding_down_step, H.
Qed.

Lemma surfaces_step (e : error) (s : BW) (t : Thread) :
  surfaces e s -> surfaces e (bw_step s t).
Proof.
  intros (Hpc & Hres). destruct t; simpl.
  - destruct (main_step_frame s) as (_ & Hf & _).
    split; [rewrite Hf; exact Hpc|].
    destruct Hres as [[Hup Hch]|[resp Hd]].
    + unfold in_upstream in *. unfold main_step.
      destruct (bw_main s) as [[resp uerr|max k|k]|] eqn:Em; try contradiction.
      * right. exists resp. simpl. rewrite Hch. reflexivity.
      * left. destruct (bw_pipe s) as [[|b pending]|]; try destruct (bw_wclosed s);
          simpl; rewrite ?Em; auto.
      * left. simpl. auto.
    + right. exists resp. unfold main_step. rewrite Hd. exact Hd.
  - assert (Hsame : bw_main (feeder_step s) = bw_main s /\
                    bw_copyerr (feeder_step s) = bw_copyerr s /\
                    (bw_feeder (feeder_step s) = FDefers \/
                     bw_feeder (feeder_step s) = FDone)).
    { unfold feeder_step. destruct Hpc as [Hpc|Hpc]; rewrite Hpc.
      - destruct (defers_spec (bw_tmpfilename s) (bw_tmpfile s) (bw_world s))
          as (r & w' & evs & E & _).
        rewrite (feeder_do_ok _ (set_wclosed true s) _ r w') by exact E.
        simpl. auto.
      - rewrite Hpc. auto. }
    destruct Hsame as (Hm & Hc & Hpc').
    split; [exact Hpc'|]. unfold in_upstream. rewrite Hm, Hc. exact Hres.
Qed.

Lemma surfaces_run (e : error) (sched : list Thread) (s : BW) :
  surfaces e s -> surfaces e (bw_run sched s).
Proof.
  revert s. induction sched as [|t sched IH]; intros s H; [exact H|].
  rewrite bw_run_cons. apply IH, surfaces_step, H.
Qed.

(** X6, what the code keeps of C2: when the feeder finds that the bytes
    it copied are not as many as a positive DataSize, or that their MD5
    is not the expected hash, it records a size-mismatch (resp.
    hash-mismatch) error; the call returns that error if the gateway's
    BlockWrite had not returned before; in every case no file is renamed
    during the call, and once the feeder is done the temp file is
    removed. [s0] is the call when the feeder starts, [s1] the state in
    which the feeder makes the test. *)
Theorem mismatch_not_committed (s0 : BW) (sched1 sched2 : list Thread) (e : error) :
  let s1 := bw_run sched1 s0 in
  let s2 := bw_run sched2 (feeder_step s1) in
  mismatch s1 e ->
  bw_copyerr (feeder_step s1) = Some e /\
  (in_upstream s1 ->
   forall resp err, bw_main s2 = MDone resp err -> err = Some e) /\
  renames (trace (bw_world s2)) = renames (trace (bw_world s0)) /\
  (bw_feeder s2 = FDone -> files (bw_world s2) !! bw_tmpfilename s1 = None).
Proof.
  intros s1 s2 Hmis.
  destruct (mismatch_step s1 e Hmis) as (Hpc & Hch & Hw & Hm & Hn).
  assert (Hbefore : before_rename (bw_feeder s1)).
  { destruct Hmis as [(n & -> & _)|(-> & _)]; exact I. }
  destruct (run_before_rename sched1 s0 Hbefore) as [_ Hr1].
  assert (Hwd : winding_down (bw_tmpfilename s1) (renames (trace (bw_world s0))) s2).
  { apply winding_down_run. unfold winding_down.
    rewrite Hn, Hw, Hpc. fold s1 in Hr1. auto. }
  split; [exact Hch|]. split; [|split].
  - intros Hup resp err Hdone.
    assert (Hs : surfaces e s2).
    { apply surfaces_run. split; [left; exact Hpc|].
      left. unfold in_upstream. rewrite Hm. auto. }
    destruct Hs as (_ & [[Hup2 _]|[resp' Hd]]).
    + unfold in_upstream in Hup2. rewrite Hdone in Hup2. contradiction.
    + rewrite Hd in Hdone. congruence.
  - apply Hwd.
  - intros Hdone. destruct Hwd as (_ & _ & [Hpc2|[_ Hgone]]); [congruence|exact Hgone].
Qed.

Lemma mismatch_not_committed_witness :
  let s0 := Ex.begin (Ex.gateway true) Ex.opts_bad_hash Ex.world in
  let s1 := bw_run Ex.sched_to_test s0 in
  let s2 := bw_run Ex.sched_finish (feeder_step s1) in
  let e := ErrHashMismatch (hex (md5.Sum (bw_hashcheck s1))) (Hash (bw_opts s1)) in
  mismatch s1 e /\
  bw_copyerr (feeder_step s1) = Some e /\
  (in_upstream s1 ->
   forall resp err, bw_main s2 = MDone resp err -> err = Some e) /\
  renames (trace (bw_world s2)) = renames (trace (bw_world s0)) /\
  (bw_feeder s2 = FDone -> files (bw_world s2) !! bw_tmpfilename s1 = None).
Proof.
  intros s0 s1 s2 e.
  assert (H : mismatch s1 e).
  { right. split; [vm_compute; reflexivity|].
    split; [vm_compute; discriminate|].
    split; [vm_compute; discriminate|reflexivity]. }
  split; [exact H|].
  exact (mismatch_not_committed s0 Ex.sched_to_test Ex.sched_finish e H).
Defined.

(** C2 fails on the code: a gateway that reads the five bytes it was
    promised and returns lets the call return its response without an
    error, although the MD5 of "hello" is not the hash that was given;
    the feeder records the mismatch afterwards, where nobody reads it,
    so what "should count as an error" (lines 163-165) is lost to the
    test of len(copyerr) at line 187, which does not wait for the
    feeder. *)
Lemma mismatch_returns_no_error :
  let s0 := Ex.begin (Ex.gateway false) Ex.opts_bad_hash Ex.world in
  let s := bw_run Ex.sched_early s0 in
  Hash Ex.opts_bad_hash <> "" /\
  Hash Ex.opts_bad_hash <> hex (md5.Sum (bytes_of "hello")) /\
  bw_main s = MDone (Ex.resp_for (bytes_of "hello")) None /\
  bw_feeder s = FDone /\
  bw_copyerr s = Some (ErrHashMismatch (hex (md5.Sum (bytes_of "hello")))
                         (Hash Ex.opts_bad_hash)).
Proof.
  intros s0 s.
  split; [vm_compute; discriminate|].
  split; [vm_compute; discriminate|].
  split; [vm_compute; reflexivity|].
  split; vm_compute; reflexivity.
Qed.


(** ** A read that hits the cache *)

Lemma quickReadAt_locked_new (name : string) (w : World) :
  pool_ready w name ->
  exists w1,
    quickReadAt_locked name w = (Ok (fresh (dom (heap w)), true), w1) /\
    heap w1 = <[fresh (dom (heap w)) := {| ofe_f := None; ofe_err := None |}]> (heap w) /\
    files w1 = files w /\ inodes w1 = inodes w /\ fds w1 = fds w /\
    faults w1 = faults w /\ gw_history w1 = gw_history w.
Proof.
  intros Hready. unfold quickReadAt_locked.
  destruct (choose_heldopenMax_spec w)
    as (w0 & E0 & Hmax & Hh & _ & Hheap & _ & Hf & _ & Hi & Hfd & Hfl & _ & _ & Hgw).
  rewrite (bind_eq _ _ _ _ _ E0), bind_get.
  unfold pool_ready in Hready. rewrite Hh, Hheap, Hmax.
  destruct (heldopen (cache w)) as [m|] eqn:Em.
  - destruct Hready as [Hnone Hsize]. simpl. rewrite Hnone.
    replace (Z.of_nat (size m) >? cap_of w) with false
      by (symmetry; rewrite Z.gtb_ltb; apply Z.ltb_ge; lia).
    munfold. simpl. rewrite Hh. eexists. split; [reflexivity|]. simpl.
    unfold gw_history in *. simpl. repeat split; congruence.
  - munfold. simpl. rewrite ?Hh. simpl. eexists. split; [reflexivity|]. simpl.
    unfold gw_history in *. simpl. repeat split; congruence.
Qed.

Lemma open_heldopen_hit (name : string) (a ino : nat) (w : World) :
  files w !! name = Some ino -> faults w = [] ->
  exists w2 fd,
    open_heldopen name a w = (Ok tt, w2) /\
    heap w2 = <[a := {| ofe_f := Some fd; ofe_err := None |}]> (heap w) /\
    fds w2 !! fd = Some {| of_name := name; of_ino := ino; of_off := 0 |} /\
    inodes w2 = inodes w /\ faults w2 = [] /\ gw_history w2 = gw_history w.
Proof.
  intros Hfile Hfl.
  unfold open_heldopen, os_OpenFile, new_fd, syscall_Flock. munfold.
  rewrite Hfl. simpl. rewrite Hfile. simpl. rewrite Hfl. simpl.
  rewrite lookup_insert_eq. simpl.
  do 2 eexists. split; [reflexivity|]. simpl.
  rewrite lookup_insert_eq. repeat split; auto.
Qed.

Lemma File_ReadAt_hit (fd : nat) (len : Z) (w : World) (o : OpenFile) (i : Inode) :
  faults w = [] -> fds w !! fd = Some o -> inodes w !! of_ino o = Some i ->
  exists w3,
    File_ReadAt fd len 0 w
      = (Ok (take (Z.to_nat len) (i_data i),
             if Z.of_nat (List.length (take (Z.to_nat len) (i_data i))) <? len
             then Some ErrEOF else None), w3) /\
    gw_history w3 = gw_history w.
Proof.
  intros Hfl Hfd Hino. unfold File_ReadAt. munfold. simpl.
  rewrite Hfl, Hfd, Hino. simpl. rewrite drop_0.
  eexists. split; [reflexivity|]. reflexivity.
Qed.

(** [ReadAt] of a block whose cache file is there, in a process whose
    pool can take the entry and whose system calls succeed: the quick
    path serves it, and the gateway is not called. *)
Lemma ReadAt_hit (gw : KeepGateway) (L name : string) (b : bytes) (ino : nat) (i : Inode)
  (w : World) :
  cacheFile (Dir (cache w)) L = Ok name ->
  files w !! name = Some ino -> inodes w !! ino = Some i -> i_data i = b ->
  faults w = [] -> pool_ready w name ->
  exists w',
    ReadAt gw L (Z.of_nat (List.length b)) 0 w = (Ok (b, None), w') /\
    gw_history w' = gw_history w.
Proof.
  intros Hc Hfile Hino Hdata Hfl Hready.
  destruct (gotidy_ok w)
    as (w0 & Hg & HD & Hh & Hmax & Hheap & Hf & _ & Hi & Hfd & Hfl0 & Hrl & Ht).
  assert (Hready0 : pool_ready w0 name).
  { unfold pool_ready, cap_of in *. rewrite Hh, Hmax, Hrl. exact Hready. }
  destruct (quickReadAt_locked_new name w0 Hready0)
    as (w1 & E1 & Hheap1 & Hf1 & Hi1 & Hfd1 & Hfl1 & Hgw1).
  destruct (open_heldopen_hit name (fresh (dom (heap w0))) ino w1
              ltac:(congruence) ltac:(congruence))
    as (w2 & fd & E2 & Hheap2 & Hfd2 & Hi2 & Hfl2 & Hgw2).
  destruct (File_ReadAt_hit fd (Z.of_nat (List.length b)) w2 _ i Hfl2 Hfd2
              ltac:(simpl; congruence))
    as (w3 & E3 & Hgw3).
  exists w3. split.
  - unfold ReadAt. rewrite (bind_eq _ _ _ _ _ Hg), bind_get, HD, Hc, bind_lift_Ok.
    unfold quickReadAt.
    rewrite bind_assoc, (bind_eq _ _ _ _ _ E1). cbv beta iota.
    rewrite bind_assoc, (bind_eq _ _ _ _ _ E2), bind_assoc, bind_get.
    rewrite Hheap2, lookup_insert_eq. cbv beta iota. simpl ofe_err. simpl ofe_f.
    cbv beta iota.
    rewrite !bind_assoc, (bind_eq _ _ _ _ _ E3).
    rewrite Hdata, Nat2Z.id, firstn_all, Z.ltb_irrefl. reflexivity.
  - rewrite Hgw3, Hgw2, Hgw1. unfold gw_history. rewrite Ht. reflexivity.
Qed.

(** ** Hashes in hexadecimal, and the paths made of them *)

Lemma md5_Sum_length (m : bytes) : List.length (md5.Sum m) = 16%nat.
Proof.
  unfold md5.Sum.
  destruct (md5.blocks _ _ _) as [[[A B] C] D]. reflexivity.
Qed.

Lemma hex_length (bs : bytes) : String.length (hex bs) = (2 * List.length bs)%nat.
Proof. induction bs as [|x bs IH]; simpl; [reflexivity|]. rewrite IH. lia. Qed.

Lemma hex_digits_not_plus (x : Byte.byte) :
  hex_digit (byte_val x / 16) <> "+"%char /\ hex_digit (byte_val x mod 16) <> "+"%char.
Proof. destruct x; vm_compute; split; discriminate. Qed.

Lemma index_plus_cons (c : ascii) (s : string) :
  c <> "+"%char ->
  String.index 0 "+" (String c s) = option_map Datatypes.S (String.index 0 "+" s).
Proof.
  intros Hc. cbn [String.index String.prefix].
  destruct (ascii_dec "+" c) as [E|_]; [congruence|].
  destruct (String.index 0 "+" s); reflexivity.
Qed.

Lemma index_plus_here (s : string) : String.index 0 "+" (String "+" s) = Some 0%nat.
Proof.
  cbn [String.index String.prefix].
  destruct (ascii_dec "+" "+") as [_|E]; [|congruence]. destruct s; reflexivity.
Qed.

Lemma append_String (c : ascii) (s t : string) : String c s +:+ t = String c (s +:+ t).
Proof. reflexivity. Qed.

Lemma append_Empty (t : string) : "" +:+ t = t.
Proof. reflexivity. Qed.

Lemma hex_index_plus (bs : bytes) (rest : string) :
  String.index 0 "+" (hex bs +:+ String "+" rest) = Some (String.length (hex bs)).
Proof.
  induction bs as [|x bs IH]; [apply index_plus_here|].
  destruct (hex_digits_not_plus x) as [H1 H2].
  cbn [hex String.length]. rewrite !append_String.
  rewrite (index_plus_cons _ _ H1), (index_plus_cons _ _ H2), IH. reflexivity.
Qed.

Lemma hex_index_none (bs : bytes) : String.index 0 "+" (hex bs) = None.
Proof.
  induction bs as [|x bs IH]; [reflexivity|].
  destruct (hex_digits_not_plus x) as [H1 H2].
  cbn [hex].
  rewrite (index_plus_cons _ _ H1), (index_plus_cons _ _ H2), IH. reflexivity.
Qed.

Lemma substring_append_prefix (h x : string) :
  String.substring 0 (String.length h) (h +:+ x) = h.
Proof.
  induction h as [|c h IH]; [destruct x; reflexivity|].
  rewrite append_String. simpl. rewrite IH. reflexivity.
Qed.

Lemma key_hash_hex (bs : bytes) : key_hash (hex bs) = hex bs.
Proof. unfold key_hash. rewrite hex_index_none. reflexivity. Qed.

Lemma key_hash_hex_plus (bs : bytes) (rest : string) :
  bs <> [] -> key_hash (hex bs +:+ String "+" rest) = hex bs.
Proof.
  intros Hbs. unfold key_hash. rewrite hex_index_plus.
  destruct (String.length (hex bs)) as [|n] eqn:E.
  - destruct bs; [congruence|discriminate E].
  - rewrite <- E. apply substring_append_prefix.
Qed.

(** The path [cacheFile] gives for the hash of a block, and for a
    locator that starts with it. *)
Lemma cacheFile_hash_of (D : string) (b : bytes) :
  cacheFile D (hex (md5.Sum b)) = Ok (block_path D b).
Proof.
  rewrite cacheFile_spec, key_hash_hex, hex_length, md5_Sum_length. reflexivity.
Qed.

Lemma cacheFile_locator_of (D : string) (b : bytes) (rest : string) :
  cacheFile D (hex (md5.Sum b) +:+ String "+" rest) = Ok (block_path D b).
Proof.
  assert (Hne : md5.Sum b <> []).
  { intros E. assert (H := md5_Sum_length b). rewrite E in H. discriminate H. }
  rewrite cacheFile_spec, key_hash_hex_plus, hex_length, md5_Sum_length by exact Hne.
  reflexivity.
Qed.

(** *** The last character of a cleaned path *)

Lemma last_char_app (s1 s2 : string) :
  last_char (s1 +:+ s2) =
    match last_char s2 with None => last_char s1 | x => x end.
Proof.
  induction s1 as [|c s1 IH].
  - rewrite append_Empty. simpl. destruct (last_char s2); reflexivity.
  - rewrite append_String. simpl. rewrite IH. destruct (last_char s2); reflexivity.
Qed.

Lemma last_char_None (s : string) : last_char s = None -> s = "".
Proof. destruct s as [|c s]; [reflexivity|]. simpl. destruct (last_char s); discriminate. Qed.

Lemma split_slash_last (s : string) :
  exists l f, strings.split_slash s = l ++ [f] /\
    (last_char f = last_char s \/ last_char s = Some "/"%char).
Proof.
  induction s as [|a s (l & f & E & H)].
  - exists [], "". split; [reflexivity|left; reflexivity].
  - cbn [strings.split_slash last_char]. destruct (Ascii.eqb a "/") eqn:Ea.
    + apply Ascii.eqb_eq in Ea. subst a.
      exists ("" :: l), f. rewrite E. split; [reflexivity|].
      destruct (last_char s) as [x|]; [|right; reflexivity].
      destruct H as [H|H]; [left; exact H|right; exact H].
    + rewrite E. destruct l as [|x l]; simpl.
      * exists [], (String a f). split; [reflexivity|]. simpl.
        destruct H as [H|H]; [left; rewrite H; reflexivity|right; rewrite H; reflexivity].
      * exists (String a x :: l), f. split; [reflexivity|].
        destruct (last_char s) as [y|] eqn:El.
        -- destruct H as [H|H]; [left; exact H|right; exact H].
        -- apply last_char_None in El. subst s. destruct l; discriminate E.
Qed.

Lemma concat_cons_cons (sep x y : string) (r : list string) :
  String.concat sep (x :: y :: r) = x +:+ sep +:+ String.concat sep (y :: r).
Proof. reflexivity. Qed.

Lemma last_char_concat (l : list string) (f : string) (c : ascii) :
  last_char f = Some c -> last_char (String.concat "/" (l ++ [f])) = Some c.
Proof.
  intros Hf. induction l as [|x l IH]; [exact Hf|].
  change ((x :: l) ++ [f]) with (x :: l ++ [f]).
  destruct (l ++ [f]) as [|y r] eqn:E; [destruct l; discriminate E|].
  rewrite concat_cons_cons, !last_char_app, IH. reflexivity.
Qed.

Lemma last_char_Clean (s : string) (c : ascii) :
  last_char s = Some c -> c <> "/"%char -> c <> "."%char ->
  last_char (filepath.Clean s) = Some c.
Proof.
  intros Hs H1 H2. unfold filepath.Clean.
  destruct (decide (s = "")) as [->|_]; [discriminate Hs|].
  destruct (split_slash_last s) as (l & f & E & [H|H]); [|congruence].
  rewrite Hs in H. rewrite E, fold_left_app. cbn [fold_left].
  assert (Hstep : forall r out, filepath.clean_step r out f = f :: out).
  { intros r out. unfold filepath.clean_step.
    destruct (decide (f = "")) as [->|_]; [discriminate H|].
    destruct (decide (f = ".")) as [->|_]; [simpl in H; congruence|].
    destruct (decide (f = "..")) as [->|_]; [simpl in H; congruence|].
    reflexivity. }
  rewrite Hstep. cbn [rev].
  assert (Hb := last_char_concat (rev (fold_left (filepath.clean_step (String.prefix "/" s)) l [])) f c H).
  destruct (String.prefix "/" s).
  - rewrite last_char_app, Hb. reflexivity.
  - destruct (decide (_ = "")) as [E0|_]; [rewrite E0 in Hb; discriminate Hb|exact Hb].
Qed.

Lemma last_char_Join (l : list string) (f : string) (c : ascii) :
  last_char f = Some c -> c <> "/"%char -> c <> "."%char ->
  last_char (filepath.Join (l ++ [f])) = Some c.
Proof.
  intros Hf H1 H2. induction l as [|e l IH].
  - simpl. destruct (decide (f = "")) as [->|_]; [discriminate Hf|].
    apply last_char_Clean; auto.
  - change ((e :: l) ++ [f]) with (e :: l ++ [f]). cbn [filepath.Join].
    destruct (decide (e = "")); [exact IH|].
    apply last_char_Clean; auto.
    apply (last_char_concat (e :: l) f c Hf).
Qed.

(** The temp file of a write is never the cache file of a block. *)
Lemma tmp_not_block_path (D D' unique : string) (b : bytes) :
  filepath.Join [D; "tmp"; unique +:+ tmpFileSuffix] <> block_path D' b.
Proof.
  intros E.
  assert (H1 : last_char (filepath.Join ([D; "tmp"] ++ [unique +:+ tmpFileSuffix]))
               = Some "p"%char).
  { apply last_char_Join; [rewrite last_char_app; reflexivity|discriminate|discriminate]. }
  assert (H2 : last_char (filepath.Join ([D'; String.substring 0 3 (hex (md5.Sum b))]
                            ++ [hex (md5.Sum b) +:+ cacheFileSuffix]))
               = Some "k"%char).
  { apply last_char_Join; [rewrite last_char_app; reflexivity|discriminate|discriminate]. }
  unfold block_path in E. simpl app in H1, H2. rewrite E in H1. congruence.
Qed.

(** ** What a write leaves on disk *)

Lemma commits_app (e1 e2 : list Event) : commits (e1 ++ e2) = commits e1 ++ commits e2.
Proof. unfold commits. apply filter_app. Qed.

Lemma quiet_nocommit (evs : list Event) : Forall quiet evs -> commits evs = [].
Proof.
  induction 1 as [|e evs (_ & _ & He) _ IH]; [reflexivity|].
  unfold commits in *. rewrite filter_cons, IH.
  destruct (decide _) as [E|E]; [|reflexivity].
  destruct e as [[] [|]|]; simpl in *; congruence.
Qed.

Lemma commits_quiet (w w' : World) (evs : list Event) :
  trace w' = evs ++ trace w -> Forall quiet evs ->
  commits (trace w') = commits (trace w).
Proof.
  intros Ht Hq. rewrite Ht, commits_app, (quiet_nocommit evs Hq). reflexivity.
Qed.

Lemma overwrite_end (d c : bytes) : overwrite d (List.length d) c = d ++ c.
Proof.
  unfold overwrite.
  rewrite firstn_all, Nat.sub_diag, skipn_all2 by lia.
  simpl. rewrite app_nil_r. reflexivity.
Qed.

Lemma os_Rename_spec (old new : string) (w : World) :
  exists r w',
    os_Rename old new w = (Ok r, w') /\
    cache w' = cache w /\ inodes w' = inodes w /\
    ((r <> None /\ files w' = files w /\ commits (trace w') = commits (trace w)) \/
     (r = None /\
      exists ino, files w !! old = Some ino /\
                  files w' = <[new := ino]> (delete old (files w)))).
Proof.
  unfold os_Rename. munfold.
  destruct (faults w) as [|[e|] fl]; simpl;
    try (destruct (files w !! old) as [ino|] eqn:Eo; simpl;
         [destruct (bool_decide (new ∈ dirs w)); simpl;
          [|destruct (dir_exists _ (parent_dir new)); simpl]|]);
    (do 2 eexists); (split; [reflexivity|]); simpl;
    (split; [reflexivity|]); (split; [reflexivity|]);
    first [ left; split; [discriminate|split; reflexivity]
          | right; split; [reflexivity|]; eauto ].
Qed.

Lemma os_Mkdir_spec (name : string) (w : World) :
  exists r w',
    os_Mkdir name w = (Ok r, w') /\
    cache w' = cache w /\ inodes w' = inodes w /\ files w' = files w /\
    commits (trace w') = commits (trace w).
Proof.
  unfold os_Mkdir. munfold.
  destruct (faults w) as [|[e|] fl]; simpl;
    try (destruct (_ || _); simpl; [|destruct (dir_exists _ _); simpl]);
    do 2 eexists; (split; [reflexivity|]); simpl; repeat split; auto.
Qed.

Lemma rename_spec (old new : string) (w : World) :
  exists r w',
    rename old new w = (Ok r, w') /\
    cache w' = cache w /\ inodes w' = inodes w /\
    (commits (trace w') = commits (trace w) \/
     (exists ino, files w !! old = Some ino /\ files w' !! new = Some ino)).
Proof.
  unfold rename.
  destruct (os_Rename_spec old new w) as (r1 & w1 & E1 & Hc1 & Hi1 & H1).
  rewrite (bind_eq _ _ _ _ _ E1).
  destruct H1 as [(Hr1 & Hf1 & Ht1)|(-> & ino & Hold & Hnew)].
  - destruct r1 as [e1|]; [|congruence].
    destruct (filepath.Split new) as [parent base].
    destruct (os_Mkdir_spec parent w1) as (r2 & w2 & E2 & Hc2 & Hi2 & Hf2 & Ht2).
    rewrite (bind_eq _ _ _ _ _ E2).
    destruct (os_Rename_spec old new w2) as (r3 & w3 & E3 & Hc3 & Hi3 & H3).
    exists r3, w3. split; [exact E3|].
    split; [congruence|]. split; [congruence|].
    destruct H3 as [(_ & Hf3 & Ht3)|(_ & ino & Hold & Hnew)].
    + left. congruence.
    + right. exists ino. split; [congruence|]. rewrite Hnew. apply lookup_insert_eq.
  - exists None, w1. split; [reflexivity|]. split; [exact Hc1|]. split; [exact Hi1|].
    right. exists ino. split; [exact Hold|]. rewrite Hnew. apply lookup_insert_eq.
Qed.

(** A file opened with [O_CREATE|O_EXCL] is new and empty. *)
Lemma os_OpenFile_excl (name : string) (w w' : World) (fd : nat) (e : option error) :
  os_OpenFile name (Z.lor (Z.lor O_CREATE O_EXCL) O_RDWR) w = (Ok (Some fd, e), w') ->
  exists ino i,
    files w' !! name = Some ino /\ inodes w' !! ino = Some i /\ i_data i = [] /\
    fds w' !! fd = Some {| of_name := name; of_ino := ino; of_off := 0 |}.
Proof.
  unfold os_OpenFile, new_fd. munfold.
  change (has_flag (Z.lor (Z.lor O_CREATE O_EXCL) O_RDWR) O_CREATE) with true.
  change (has_flag (Z.lor (Z.lor O_CREATE O_EXCL) O_RDWR) O_EXCL) with true.
  destruct (faults w) as [|[e0|] fl]; simpl;
    try (destruct (files w !! name) as [ino|] eqn:Eo; simpl;
         [|destruct (bool_decide (name ∈ dirs w)); simpl;
           [|destruct (dir_exists _ (parent_dir name)); simpl]]);
    intros E; injection E as E1 E2 E3; try discriminate E1; subst;
    (do 2 eexists); simpl; rewrite !lookup_insert_eq; repeat split.
Qed.

Lemma openFile_excl (name : string) (w w' : World) (fd : nat) (e : option error) :
  openFile name (Z.lor (Z.lor O_CREATE O_EXCL) O_RDWR) w = (Ok (Some fd, e), w') ->
  exists ino i,
    files w' !! name = Some ino /\ inodes w' !! ino = Some i /\ i_data i = [] /\
    fds w' !! fd = Some {| of_name := name; of_ino := ino; of_off := 0 |}.
Proof.
  unfold openFile.
  destruct (os_OpenFile name (Z.lor (Z.lor O_CREATE O_EXCL) O_RDWR) w)
    as [[[f1 e1]|p] w1] eqn:E1.
  - rewrite (bind_eq _ _ _ _ _ E1).
    destruct (IsNotExist e1).
    + destruct (filepath.Split name) as [parent base].
      destruct (os_Mkdir_spec parent w1) as (r2 & w2 & E2 & _).
      rewrite (bind_eq _ _ _ _ _ E2). apply os_OpenFile_excl.
    + unfold ret. intros E. injection E as -> -> ->. exact (os_OpenFile_excl _ _ _ _ _ E1).
  - rewrite (bind_panic _ _ _ _ _ E1). discriminate.
Qed.

(** How a call that got its temp file starts. *)
Lemma BlockWrite_begin_piped (gw : KeepGateway) (opts : BlockWriteOptions)
  (unique : string) (w0 w1 : World) (s0 : BW) :
  BlockWrite_begin gw opts unique w0 = (Ok (BWPiped s0), w1) ->
  bw_opts s0 = opts /\ bw_hashcheck s0 = [] /\
  bw_feeder s0 = match feeder_src opts with
                 | Some r => FCopy (chunks r) (final r) 0
                 | None => FPanicked NilDeref
                 end /\
  (exists D, bw_tmpfilename s0 = filepath.Join [D; "tmp"; unique +:+ tmpFileSuffix]) /\
  tmp_holds s0 [].
Proof.
  unfold BlockWrite_begin.
  destruct (gotidy_ok w0) as (wg & Hg & _).
  rewrite (bind_eq _ _ _ _ _ Hg), bind_get.
  destruct (openFile (filepath.Join [Dir (cache wg); "tmp"; unique +:+ tmpFileSuffix])
              (Z.lor (Z.lor O_CREATE O_EXCL) O_RDWR) wg) as [[[fo err]|p] w2] eqn:Eo.
  - rewrite (bind_eq _ _ _ _ _ Eo).
    destruct err as [e|]; [|destruct fo as [fd|]].
    + munfold. simpl. destruct (run_direct _ _ _) as [[resp0 err0]|p]; discriminate.
    + destruct (openFile_excl _ _ _ _ _ Eo) as (ino & i & Hf & Hi & Hd & Hfd).
      munfold. simpl. intros E. injection E as <- <-. simpl.
      split; [reflexivity|]. split; [reflexivity|]. split; [reflexivity|].
      split; [eexists; reflexivity|].
      exists ino, i, {| of_name := filepath.Join [Dir (cache wg); "tmp"; unique +:+ tmpFileSuffix];
                        of_ino := ino; of_off := 0 |}.
      simpl. repeat split; auto.
    + munfold. simpl. destruct (run_direct _ _ _) as [[resp0 err0]|p]; discriminate.
  - rewrite (bind_panic _ _ _ _ _ Eo). discriminate.
Qed.

(** ** The invariant of a write *)

Lemma write_inv_step (b : bytes) (c0 : list Event) (s : BW) (t : Thread) :
  write_inv b c0 s -> write_inv b c0 (bw_step s t).
Proof.
  intros [Htmp Hpc]. destruct t; simpl.
  - destruct (main_step_frame s) as (Hw & Hf & Hh & _ & Hn & Hfd).
    unfold write_inv, tmp_holds, tmp_file. rewrite Hw, Hf, Hh, Hn, Hfd.
    split; assumption.
  - unfold feeder_step, feeder_fail.
    destruct (bw_feeder s) as [[|c rest] fin n|c rest fin n|n [e|]| |h| | |p] eqn:Epc.
    + (* the source is exhausted *)
      destruct Hpc as (Hc & Hholds & Hb). simpl in Hb. rewrite app_nil_r in Hb.
      split; [exact Htmp|]. simpl.
      destruct fin; [exact Hc|]. rewrite <- Hb at 1. auto.
    + (* a chunk goes to the temp file *)
      destruct Hpc as (Hc & (ino & i & o & Hf & Hi & Hd & Hfd & Hoi & Hoff) & Hb).
      destruct (File_Write_spec (bw_tmpfile s) c (bw_world s))
        as ([z e] & w' & evs & E & Ht & Hq & Hfiles & Hcache & _ & Hres).
      rewrite (feeder_do_ok _ _ _ _ _ E).
      assert (Hc' : commits (trace w') = c0)
        by (rewrite (commits_quiet _ _ _ Ht Hq); exact Hc).
      destruct e as [e|]; (split; [exact Htmp|]); simpl; [exact Hc'|].
      destruct Hres as [(nm & en & Hr)|(_ & o' & i' & Hfd' & Hi' & Hfds & Hinodes)];
        [discriminate Hr|].
      rewrite Hfd in Hfd'. injection Hfd' as <-.
      rewrite Hoi, Hi in Hi'. injection Hi' as <-.
      split; [exact Hc'|]. split; [|simpl in Hb; exact Hb].
      unfold tmp_holds. simpl.
      exists ino, {| i_data := overwrite (i_data i) (Z.to_nat (of_off o)) c;
                     i_atime := i_atime i |},
        {| of_name := of_name o; of_ino := of_ino o;
           of_off := of_off o + Z.of_nat (List.length c) |}.
      rewrite Hfiles, Hinodes, Hfds, Hoi, !lookup_insert_eq. simpl.
      repeat split; auto.
      * rewrite Hoff, Nat2Z.id, Hd. apply overwrite_end.
      * rewrite Hoff, length_app. lia.
    + (* the chunk goes through the pipe *)
      destruct Hpc as (Hc & Hholds & Hb).
      assert (Hnext : write_inv b c0
                (set_feeder (FCopy rest fin (n + Z.of_nat (List.length c)))
                   (set_hashcheck (bw_hashcheck s ++ c) (set_pipe None s)))).
      { split; [exact Htmp|]. simpl. split; [exact Hc|].
        split; [exact Hholds|]. rewrite <- app_assoc. exact Hb. }
      destruct (bw_pipe s) as [[|x pending]|]; try exact Hnext.
      destruct (bw_rclosed s).
      * split; [exact Htmp|]. simpl. exact Hc.
      * unfold write_inv. rewrite Epc. auto.
    + (* the copy failed *)
      split; [exact Htmp|]. simpl. left. exact Hpc.
    + (* the size test, and the close *)
      destruct Hpc as (Hc & (ino & i & o & Hf & Hi & Hd & _) & Hb).
      destruct (_ && _); [split; [exact Htmp|]; simpl; left; exact Hc|].
      destruct (File_Close_spec (bw_tmpfile s) (bw_world s))
        as (r & w' & evs & E & Ht & Hq & Hfiles & Hinodes & _).
      rewrite (feeder_do_ok _ _ _ _ _ E).
      assert (Hc' : commits (trace w') = c0)
        by (rewrite (commits_quiet _ _ _ Ht Hq); exact Hc).
      destruct r; (split; [exact Htmp|]); simpl; [left; exact Hc'|].
      split; [exact Hc'|]. split; [|exact Hb].
      exists ino, i. simpl. rewrite Hfiles, Hinodes. auto.
    + (* the hash test *)
      destruct Hpc as (Hc & Hfile & Hb).
      destruct (_ && _); (split; [exact Htmp|]); simpl; [left; exact Hc|].
      rewrite Hb. auto.
    + (* the rename *)
      destruct Hpc as (Hc & (ino & i & Hf & Hi & Hd) & ->).
      destruct (rename_spec (bw_tmpfilename s)
                  (block_path (Dir (cache (bw_world s))) b) (bw_world s))
        as (r & w' & E & Hcache & Hinodes & Hres).
      assert (E' : bind (lift (cacheFile (Dir (cache (bw_world s))) (hex (md5.Sum b))))
                     (fun cachefilename => rename (bw_tmpfilename s) cachefilename)
                     (bw_world s) = (Ok r, w'))
        by (rewrite cacheFile_hash_of, bind_lift_Ok; exact E).
      rewrite (feeder_do_ok _ _ _ _ _ E').
      split; [exact Htmp|]. simpl.
      destruct Hres as [Hsame|(ino' & Hold & Hnew)]; [left; congruence|].
      right. exists ino, i. rewrite Hcache, Hinodes.
      rewrite Hf in Hold. injection Hold as <-. auto.
    + (* the deferred calls *)
      destruct (defers_spec (bw_tmpfilename s) (bw_tmpfile s) (bw_world s))
        as (r & w' & evs & E & Ht & Hq & Hfiles & Hinodes & Hcache & _).
      rewrite (feeder_do_ok _ (set_wclosed true s) _ r w') by exact E.
      split; [exact Htmp|]. simpl.
      destruct Hpc as [Hc|(ino & i & Hf & Hi & Hd)].
      * left. rewrite (commits_quiet _ _ _ Ht Hq). exact Hc.
      * right. exists ino, i. rewrite Hcache, Hfiles, Hinodes.
        rewrite lookup_delete_ne by apply Htmp. auto.
    + unfold write_inv. rewrite Epc. auto.
    + unfold write_inv. rewrite Epc. auto.
Qed.

Lemma write_inv_run (b : bytes) (c0 : list Event) (sched : list Thread) (s : BW) :
  write_inv b c0 s -> write_inv b c0 (bw_run sched s).
Proof.
  revert s. induction sched as [|t sched IH]; intros s H; [exact H|].
  rewrite bw_run_cons. apply IH, write_inv_step, H.
Qed.

Lemma write_inv_begin (gw : KeepGateway) (opts : BlockWriteOptions) (unique : string)
  (b : bytes) (w0 w1 : World) (s0 : BW) :
  Data opts = Some b ->
  BlockWrite_begin gw opts unique w0 = (Ok (BWPiped s0), w1) ->
  write_inv b (commits (trace (bw_world s0))) s0.
Proof.
  intros Hdata Hbegin.
  destruct (BlockWrite_begin_piped _ _ _ _ _ _ Hbegin)
    as (Hopts & Hh & Hpc & (D & Htmp) & Hholds).
  split.
  - intros D'. rewrite Htmp. apply tmp_not_block_path.
  - rewrite Hpc. unfold feeder_src. rewrite Hdata. simpl.
    split; [reflexivity|]. rewrite Hh. split; [exact Hholds|].
    destruct (decide (b = [])) as [->|_]; simpl; [reflexivity|apply app_nil_r].
Qed.

(** A write that committed left the block in its cache file. *)
Lemma committed_cached (b : bytes) (c0 : list Event) (s : BW) :
  write_inv b c0 s -> commits (trace (bw_world s)) <> c0 -> cached b (bw_world s).
Proof.
  intros [_ Hpc] Hne.
  destruct (bw_feeder s) as [rest fin n|c rest fin n|n [e|]| |h| | |p];
    try (destruct Hpc as [Hc|Hc]; [congruence|exact Hc]);
    try (destruct Hpc as (Hc & _); congruence); congruence.
Qed.

(** ** Round trip *)

(** X5, the round trip of C1 where the pool can take the block: for
    every byte string b, once BlockWrite with data b has its temp file
    and, under any interleaving of the caller and the feeder goroutine,
    the feeder has committed the cache file, a ReadAt that follows for a
    locator derived from b (the hash of b in hexadecimal, a '+' and any
    hints), with dst of length len(b) and offset 0, returns exactly b
    with no error and calls no operation of the wrapped gateway,
    provided that no system call of the read fails, and that the pool of
    open files has no entry for the block and is not over its limit. *)
Theorem write_then_read (gw : KeepGateway) (opts : BlockWriteOptions)
  (unique rest : string) (b : bytes) (w0 w1 : World) (s0 : BW) (sched : list Thread) :
  Data opts = Some b ->
  BlockWrite_begin gw opts unique w0 = (Ok (BWPiped s0), w1) ->
  commits (trace (bw_world (bw_run sched s0))) <> commits (trace (bw_world s0)) ->
  faults (bw_world (bw_run sched s0)) = [] ->
  pool_ready (bw_world (bw_run sched s0))
    (block_path (Dir (cache (bw_world (bw_run sched s0)))) b) ->
  exists w',
    ReadAt gw (hex (md5.Sum b) +:+ "+" +:+ rest) (Z.of_nat (List.length b)) 0
      (bw_world (bw_run sched s0)) = (Ok (b, None), w') /\
    gw_history w' = gw_history (bw_world (bw_run sched s0)).
Proof.
  intros Hdata Hbegin Hcommit Hfaults Hpool.
  assert (Hinv := write_inv_run b _ sched s0 (write_inv_begin _ _ _ _ _ _ _ Hdata Hbegin)).
  destruct (committed_cached _ _ _ Hinv Hcommit) as (ino & i & Hf & Hi & Hd).
  apply (ReadAt_hit gw _ _ b ino i _ (cacheFile_locator_of _ b rest) Hf Hi Hd Hfaults Hpool).
Qed.

(** The call of the examples, when it got its temp file. *)
Lemma begin_started (gw : KeepGateway) (opts : BlockWriteOptions) (w : World) :
  Ex.started gw opts w = true ->
  BlockWrite_begin gw opts Ex.unique w
  = (Ok (BWPiped (Ex.begin gw opts w)), snd (BlockWrite_begin gw opts Ex.unique w)).
Proof.
  unfold Ex.started, Ex.begin.
  destruct (BlockWrite_begin gw opts Ex.unique w) as [[[resp err|s]|p] w1];
    simpl; intros H; try discriminate H; reflexivity.
Qed.

Lemma write_then_read_witness :
  let gw := Ex.gateway true in
  let b := bytes_of "hello" in
  let s0 := Ex.begin gw Ex.opts_hello Ex.world in
  let s := bw_run Ex.sched_commit s0 in
  Data Ex.opts_hello = Some b /\
  Ex.started gw Ex.opts_hello Ex.world = true /\
  bw_main s = MDone (Ex.resp_for b) None /\
  commits (trace (bw_world s)) <> commits (trace (bw_world s0)) /\
  faults (bw_world s) = [] /\
  pool_ready (bw_world s) (block_path (Dir (cache (bw_world s))) b) /\
  exists w',
    ReadAt gw "5d41402abc4b2a76b9719d911017c592+5" 5 0 (bw_world s) = (Ok (b, None), w') /\
    gw_history w' = gw_history (bw_world s).
Proof.
  intros gw b s0 s.
  assert (H0 : Ex.started gw Ex.opts_hello Ex.world = true) by (vm_compute; reflexivity).
  assert (H1 : commits (trace (bw_world s)) <> commits (trace (bw_world s0)))
    by (vm_compute; discriminate).
  assert (H2 : faults (bw_world s) = []) by (vm_compute; reflexivity).
  assert (H3 : pool_ready (bw_world s) (block_path (Dir (cache (bw_world s))) b))
    by (vm_compute; exact I).
  assert (H4 : hex (md5.Sum b) +:+ "+" +:+ "5" = "5d41402abc4b2a76b9719d911017c592+5")
    by (vm_compute; reflexivity).
  split; [reflexivity|]. split; [exact H0|].
  split; [vm_compute; reflexivity|].
  split; [exact H1|]. split; [exact H2|]. split; [exact H3|].
  rewrite <- H4.
  exact (write_then_read gw Ex.opts_hello Ex.unique "5" b Ex.world _ s0 Ex.sched_commit
           eq_refl (begin_started gw Ex.opts_hello Ex.world H0) H1 H2 H3).
Defined.

(** The same read, run: the bytes come back, and the only gateway call in
    the log is the write's. *)
Example hello_round_trip :
  let s := bw_run Ex.sched_commit (Ex.begin (Ex.gateway true) Ex.opts_hello Ex.world) in
  let r := ReadAt (Ex.gateway true) "5d41402abc4b2a76b9719d911017c592+5" 5 0 (bw_world s) in
  fst r = Ok (bytes_of "hello", None) /\
  List.length (gw_history (snd r)) = 1%nat /\
  files (bw_world s) !! "/var/cache/keep/5d4/5d41402abc4b2a76b9719d911017c592.keepcacheblock"
    = Some 0%nat.
Proof. vm_compute. repeat split. Qed.


(** ** The round trip in a pool that is over its limit *)

(** C1 fails on the code: in a process whose limit on open files gives a
    cap of 2, after ReadAt of three cached blocks the pool holds three
    entries; BlockWrite of "hello" then returns without an error, its
    feeder renames the temp file to the cache file of the block, which
    holds "hello", and finishes; no system call of the ReadAt that
    follows is made to fail; and that ReadAt, for the locator of "hello"
    with dst of length 5 and offset 0, panics on the assignment into the
    nil map instead of returning the five bytes. *)
Theorem round_trip_panics :
  let gw := Ex.gateway true in
  let b := bytes_of "hello" in
  let w3 := snd (Ex.read 3 (snd (Ex.read 2 (snd (Ex.read 1 Ex.world_cached))))) in
  let s0 := Ex.begin gw Ex.opts_hello w3 in
  let s := bw_run Ex.sched_commit s0 in
  heldopen_len w3 = 3 /\ heldopenMax (cache w3) = 2 /\
  Data Ex.opts_hello = Some b /\
  Ex.started gw Ex.opts_hello w3 = true /\
  bw_main s = MDone (Ex.resp_for b) None /\
  bw_feeder s = FDone /\
  commits (trace (bw_world s)) =
    [EvSys (SysRename "/var/cache/keep/tmp/1f.0xc000104f00.tmp"
              "/var/cache/keep/5d4/5d41402abc4b2a76b9719d911017c592.keepcacheblock") None] /\
  match files (bw_world s)
          !! "/var/cache/keep/5d4/5d41402abc4b2a76b9719d911017c592.keepcacheblock" with
  | Some ino => option_map i_data (inodes (bw_world s) !! ino)
  | None => None
  end = Some b /\
  faults (bw_world s) = [] /\
  hex (md5.Sum b) +:+ "+" +:+ "5" = "5d41402abc4b2a76b9719d911017c592+5" /\
  fst (ReadAt gw "5d41402abc4b2a76b9719d911017c592+5" 5 0 (bw_world s))
    = Panic NilMapAssign.
Proof. vm_compute. repeat split. Qed.


(** ** More on paths: the file name of a cleaned path *)

Lemma append_assoc (a b c : string) : (a +:+ b) +:+ c = a +:+ b +:+ c.
Proof. induction a as [|x a IH]; [reflexivity|]. rewrite !append_String, IH. reflexivity. Qed.

Lemma append_length (a b : string) :
  String.length (a +:+ b) = (String.length a + String.length b)%nat.
Proof. induction a as [|x a IH]; [reflexivity|]. rewrite append_String. simpl. rewrite IH. reflexivity. Qed.

Lemma append_inv_r (a b t : string) : a +:+ t = b +:+ t -> a = b.
Proof.
  revert b. induction a as [|x a IH]; intros [|y b] H.
  - reflexivity.
  - exfalso. apply (f_equal String.length) in H.
    rewrite append_String, append_Empty in H. simpl in H. rewrite append_length in H. lia.
  - exfalso. apply (f_equal String.length) in H.
    rewrite append_String, append_Empty in H. simpl in H. rewrite append_length in H. lia.
  - rewrite !append_String in H. injection H as -> H. f_equal. apply IH, H.
Qed.

Lemma substring_append_suffix (pre t : string) :
  String.substring (String.length pre) (String.length t) (pre +:+ t) = t.
Proof.
  induction pre as [|c pre IH]; [|rewrite append_String; exact IH].
  rewrite append_Empty. simpl. clear. induction t as [|c t IH]; [reflexivity|].
  simpl. rewrite IH. reflexivity.
Qed.

Lemma HasSuffix_append (pre t : string) : strings.HasSuffix (pre +:+ t) t = true.
Proof.
  unfold strings.HasSuffix. rewrite append_length.
  replace (String.length pre + String.length t - String.length t)%nat
    with (String.length pre) by lia.
  rewrite substring_append_suffix, String.eqb_refl.
  apply andb_true_iff. split; [apply Nat.leb_le; lia|reflexivity].
Qed.

Lemma no_slash_split (s : string) : has_slash s = false -> strings.split_slash s = [s].
Proof.
  induction s as [|c s IH]; [reflexivity|]. simpl.
  destruct (Ascii.eqb c "/"); [discriminate|]. simpl. intros H. rewrite (IH H). reflexivity.
Qed.

(** The last field of [s +:+ t], for [t] without a slash, is the last
    field of [s] followed by [t]. *)
Lemma split_slash_app (s t : string) :
  has_slash t = false ->
  exists l f, strings.split_slash s = l ++ [f] /\
              strings.split_slash (s +:+ t) = l ++ [f +:+ t].
Proof.
  intros Ht. induction s as [|a s (l & f & E1 & E2)].
  - exists [], "". split; [reflexivity|]. rewrite !append_Empty. apply no_slash_split, Ht.
  - rewrite append_String. cbn [strings.split_slash]. rewrite E1, E2.
    destruct (Ascii.eqb a "/").
    + exists ("" :: l), f. split; reflexivity.
    + destruct l as [|x l]; simpl.
      * exists [], (String a f). split; reflexivity.
      * exists (String a x :: l), f. split; reflexivity.
Qed.

Lemma concat_last (l : list string) (f : string) :
  exists pre, String.concat "/" (l ++ [f]) = pre +:+ f /\
              (l = [] -> pre = "") /\
              (l <> [] -> exists q, pre = q +:+ "/").
Proof.
  induction l as [|x l (pre & E & H0 & H1)].
  - exists "". split; [reflexivity|]. split; [reflexivity|]. congruence.
  - change ((x :: l) ++ [f]) with (x :: l ++ [f]).
    destruct (l ++ [f]) as [|y r] eqn:El; [destruct l; discriminate El|].
    rewrite concat_cons_cons, E.
    exists (x +:+ "/" +:+ pre). split; [rewrite !append_assoc; reflexivity|].
    split; [discriminate|]. intros _.
    destruct l as [|z l].
    + rewrite (H0 eq_refl). exists x. reflexivity.
    + destruct (H1 ltac:(discriminate)) as (q & ->).
      exists (x +:+ "/" +:+ q). rewrite !append_assoc. reflexivity.
Qed.

(** A path whose last field is a name (not empty, not a dot name) keeps
    it when cleaned: [Clean s] is that field, or ends in a slash and
    that field. *)
Lemma Clean_last_field (s : string) (l : list string) (f : string) :
  strings.split_slash s = l ++ [f] ->
  f <> "" -> f <> "." -> f <> ".." ->
  exists pre, filepath.Clean s = pre +:+ f /\
              (pre = "" \/ exists q, pre = q +:+ "/").
Proof.
  intros E H0 H1 H2. unfold filepath.Clean.
  destruct (decide (s = "")) as [->|_].
  { destruct l as [|x [|y l]]; simpl in E; try discriminate E.
    injection E as <-. congruence. }
  rewrite E, fold_left_app. cbn [fold_left].
  assert (Hstep : forall r out, filepath.clean_step r out f = f :: out).
  { intros r out. unfold filepath.clean_step.
    destruct (decide (f = "")); [congruence|].
    destruct (decide (f = ".")); [congruence|].
    destruct (decide (f = "..")); [congruence|]. reflexivity. }
  rewrite Hstep. cbn [rev].
  destruct (concat_last (rev (fold_left (filepath.clean_step (String.prefix "/" s)) l [])) f)
    as (pre & Eb & Hnil & Hcons).
  rewrite Eb.
  assert (Hpre : pre = "" \/ exists q, pre = q +:+ "/").
  { destruct (rev (fold_left (filepath.clean_step (String.prefix "/" s)) l [])) as [|z r].
    - left. apply Hnil. reflexivity.
    - right. apply Hcons. discriminate. }
  destruct (String.prefix "/" s).
  - exists ("/" +:+ pre). split; [rewrite append_assoc; reflexivity|].
    right. destruct Hpre as [->|(q & ->)]; [exists ""; reflexivity|].
    exists ("/" +:+ q). rewrite append_assoc. reflexivity.
  - destruct (decide (pre +:+ f = "")) as [E0|_].
    + exfalso. destruct pre; [rewrite append_Empty in E0; congruence|].
      rewrite append_String in E0. discriminate E0.
    + exists pre. auto.
Qed.

(** [Join] of elements the last of which is [g +:+ t], for a [t] that
    has no slash and ends in a letter that is no dot: the result ends
    in [t]. *)
Lemma Join_suffix (l : list string) (g t : string) (c : ascii) :
  has_slash t = false -> last_char t = Some c -> c <> "."%char ->
  exists pre, filepath.Join (l ++ [g +:+ t]) = pre +:+ t.
Proof.
  intros Hs Hc Hdot.
  assert (Hclean : forall s, exists pre, filepath.Clean (s +:+ t) = pre +:+ t).
  { intros s. destruct (split_slash_app s t Hs) as (l0 & f & _ & E).
    assert (Hl : last_char (f +:+ t) = Some c) by (rewrite last_char_app, Hc; reflexivity).
    destruct (Clean_last_field _ _ _ E) as (pre & Ep & _).
    - intros E0. rewrite E0 in Hl. discriminate Hl.
    - intros E0. rewrite E0 in Hl. simpl in Hl. congruence.
    - intros E0. rewrite E0 in Hl. simpl in Hl. congruence.
    - exists (pre +:+ f). rewrite Ep, append_assoc. reflexivity. }
  assert (Hne : g +:+ t <> "").
  { intros E0. assert (Hl := last_char_app g t). rewrite E0, Hc in Hl. discriminate Hl. }
  induction l as [|e l IH].
  - simpl. destruct (decide (g +:+ t = "")); [congruence|]. apply Hclean.
  - change ((e :: l) ++ [g +:+ t]) with (e :: l ++ [g +:+ t]). cbn [filepath.Join].
    destruct (decide (e = "")); [exact IH|].
    destruct (concat_last (e :: l) (g +:+ t)) as (pre & E & _).
    change ((e :: l) ++ [g +:+ t]) with (e :: l ++ [g +:+ t]) in E.
    rewrite E, <- append_assoc. apply Hclean.
Qed.

(** X1: every path cacheFile returns ends in .keepcacheblock, and the
    path BlockWrite makes for its temp file ends in .tmp, whatever the
    directory, the locator and the unique part are: the test on names in
    the walk of tidy (line 474) accepts them all. *)
Theorem cache_paths_have_suffix (D L p unique : string) :
  cacheFile D L = Ok p ->
  strings.HasSuffix p cacheFileSuffix = true /\
  strings.HasSuffix (filepath.Join [D; "tmp"; unique +:+ tmpFileSuffix]) tmpFileSuffix = true.
Proof.
  intros Hp. split.
  - rewrite cacheFile_spec in Hp.
    destruct (3 <=? String.length (key_hash L))%nat; [|discriminate Hp].
    destruct (Join_suffix [D; String.substring 0 3 (key_hash L)] (key_hash L)
                cacheFileSuffix "k" eq_refl eq_refl ltac:(discriminate)) as (pre & E).
    cbn [app] in E. rewrite E in Hp. injection Hp as <-. apply HasSuffix_append.
  - destruct (Join_suffix [D; "tmp"] unique tmpFileSuffix "p" eq_refl eq_refl
                ltac:(discriminate)) as (pre & E).
    cbn [app] in E. rewrite E. apply HasSuffix_append.
Qed.

Lemma cache_paths_have_suffix_witness :
  cacheFile "/var/cache/keep" "acbd18db4cc2f85cedef654fccc4a4d8+3"
    = Ok "/var/cache/keep/acb/acbd18db4cc2f85cedef654fccc4a4d8.keepcacheblock" /\
  strings.HasSuffix "/var/cache/keep/acb/acbd18db4cc2f85cedef654fccc4a4d8.keepcacheblock"
    cacheFileSuffix = true /\
  strings.HasSuffix (filepath.Join ["/var/cache/keep"; "tmp"; "1f.0xc000104f00" +:+ tmpFileSuffix])
    tmpFileSuffix = true.
Proof.
  split; [vm_compute; reflexivity|].
  exact (cache_paths_have_suffix "/var/cache/keep" "acbd18db4cc2f85cedef654fccc4a4d8+3"
           _ "1f.0xc000104f00" ltac:(vm_compute; reflexivity)).
Defined.

Lemma has_slash_app (a b : string) : has_slash (a +:+ b) = has_slash a || has_slash b.
Proof.
  induction a as [|c a IH]; [reflexivity|]. rewrite append_String. simpl.
  rewrite IH, orb_assoc. reflexivity.
Qed.

Lemma split_slash_dir (q : string) :
  exists x l, strings.split_slash (q +:+ "/") = x :: l ++ [""].
Proof.
  induction q as [|a q (x & l & E)].
  - exists "", []. reflexivity.
  - rewrite append_String. cbn [strings.split_slash]. rewrite E.
    destruct (Ascii.eqb a "/").
    + exists "", (x :: l). reflexivity.
    + exists (String a x), l. reflexivity.
Qed.

Lemma split_slash_last_noslash (pre g : string) :
  pre = "" \/ (exists q, pre = q +:+ "/") -> has_slash g = false ->
  exists l, strings.split_slash (pre +:+ g) = l ++ [g].
Proof.
  intros Hpre Hg. destruct (split_slash_app pre g Hg) as (l & f & E1 & E2).
  assert (Hf : f = "").
  { destruct Hpre as [->|(q & ->)].
    - destruct l as [|x [|y l]]; simpl in E1; try discriminate E1. congruence.
    - destruct (split_slash_dir q) as (x & l' & E'). rewrite E' in E1.
      change (x :: l' ++ [""]) with ((x :: l') ++ [""]) in E1.
      apply app_inj_tail in E1. destruct E1 as [_ E1]. congruence. }
  subst f. exists l. exact E2.
Qed.

Lemma after_last_slash_noslash (f : string) :
  has_slash f = false -> filepath.after_last_slash f = 0%nat.
Proof.
  induction f as [|c f IH]; [reflexivity|]. simpl.
  destruct (Ascii.eqb c "/"); [discriminate|]. simpl. intros H. rewrite (IH H). reflexivity.
Qed.

Lemma after_last_slash_dir (q f : string) :
  has_slash f = false ->
  filepath.after_last_slash ((q +:+ "/") +:+ f) = Datatypes.S (String.length q).
Proof.
  intros Hf. induction q as [|c q IH].
  - rewrite append_Empty, append_String, append_Empty. simpl.
    rewrite (after_last_slash_noslash f Hf). reflexivity.
  - rewrite !append_String. cbn [filepath.after_last_slash String.length]. rewrite IH.
    reflexivity.
Qed.

(** The file part of a path that ends in a slash-free name. *)
Lemma Split_base (pre g : string) :
  pre = "" \/ (exists q, pre = q +:+ "/") -> has_slash g = false ->
  snd (filepath.Split (pre +:+ g)) = g.
Proof.
  intros [->|(q & ->)] Hg; unfold filepath.Split; cbn [snd].
  - rewrite append_Empty, (after_last_slash_noslash g Hg), Nat.sub_0_r.
    apply (substring_append_suffix "" g).
  - rewrite (after_last_slash_dir q g Hg), append_length, append_length.
    cbn [String.length].
    replace (String.length q + 1 + String.length g - Datatypes.S (String.length q))%nat
      with (String.length g) by lia.
    replace (Datatypes.S (String.length q)) with (String.length (q +:+ "/"))
      by (rewrite append_length; simpl; lia).
    apply substring_append_suffix.
Qed.

Lemma Clean_base (s pre g : string) :
  s = pre +:+ g -> pre = "" \/ (exists q, pre = q +:+ "/") ->
  has_slash g = false -> g <> "" -> g <> "." -> g <> ".." ->
  snd (filepath.Split (filepath.Clean s)) = g.
Proof.
  intros -> Hpre Hg H0 H1 H2.
  destruct (split_slash_last_noslash pre g Hpre Hg) as (l & E).
  destruct (Clean_last_field _ _ _ E H0 H1 H2) as (pre' & -> & Hpre').
  apply Split_base; assumption.
Qed.

Lemma Join_base (l : list string) (g : string) :
  has_slash g = false -> g <> "" -> g <> "." -> g <> ".." ->
  snd (filepath.Split (filepath.Join (l ++ [g]))) = g.
Proof.
  intros Hg H0 H1 H2. induction l as [|e l IH].
  - simpl. destruct (decide (g = "")); [congruence|].
    apply (Clean_base g "" g); auto.
  - change ((e :: l) ++ [g]) with (e :: l ++ [g]). cbn [filepath.Join].
    destruct (decide (e = "")); [exact IH|].
    destruct (concat_last (e :: l) g) as (pre & E & _ & Hpre).
    change ((e :: l) ++ [g]) with (e :: l ++ [g]) in E.
    apply (Clean_base _ pre g); auto.
Qed.

(** The file name of a cache file is the hash part and the suffix. *)
Lemma cacheFile_base (D L p : string) :
  has_slash (key_hash L) = false -> cacheFile D L = Ok p ->
  snd (filepath.Split p) = key_hash L +:+ cacheFileSuffix.
Proof.
  intros Hs Hp. rewrite cacheFile_spec in Hp.
  destruct (3 <=? String.length (key_hash L))%nat; [|discriminate Hp].
  injection Hp as <-.
  assert (Hl : last_char (key_hash L +:+ cacheFileSuffix) = Some "k"%char)
    by (rewrite last_char_app; reflexivity).
  apply (Join_base [D; String.substring 0 3 (key_hash L)]).
  - rewrite has_slash_app, Hs. reflexivity.
  - intros E0. rewrite E0 in Hl. discriminate Hl.
  - intros E0. rewrite E0 in Hl. discriminate Hl.
  - intros E0. rewrite E0 in Hl. discriminate Hl.
Qed.

(** X2: two locators whose hash parts have no slash and that cacheFile
    sends to the same path under a directory have the same hash part: no
    two blocks share a cache file. *)
Theorem cacheFile_injective (D L1 L2 p : string) :
  has_slash (key_hash L1) = false -> has_slash (key_hash L2) = false ->
  cacheFile D L1 = Ok p -> cacheFile D L2 = Ok p ->
  key_hash L1 = key_hash L2.
Proof.
  intros H1 H2 E1 E2.
  apply (append_inv_r _ _ cacheFileSuffix).
  rewrite <- (cacheFile_base D L1 p H1 E1). apply (cacheFile_base D L2 p H2 E2).
Qed.

Lemma cacheFile_injective_witness :
  cacheFile "/var/cache/keep" "acbd18db4cc2f85cedef654fccc4a4d8+3"
    = cacheFile "/var/cache/keep" "acbd18db4cc2f85cedef654fccc4a4d8+3+Afe1@5f" /\
  key_hash "acbd18db4cc2f85cedef654fccc4a4d8+3"
    = key_hash "acbd18db4cc2f85cedef654fccc4a4d8+3+Afe1@5f".
Proof.
  split; [vm_compute; reflexivity|].
  exact (cacheFile_injective "/var/cache/keep" "acbd18db4cc2f85cedef654fccc4a4d8+3"
           "acbd18db4cc2f85cedef654fccc4a4d8+3+Afe1@5f"
           "/var/cache/keep/acb/acbd18db4cc2f85cedef654fccc4a4d8.keepcacheblock"
           ltac:(vm_compute; reflexivity) ltac:(vm_compute; reflexivity)
           ltac:(vm_compute; reflexivity) ltac:(vm_compute; reflexivity)).
Defined.


(** ** What an operation leaves alone *)

Lemma steady_refl (w : World) : steady w w.
Proof. unfold steady. repeat split; auto. Qed.

Lemma steady_trans (w1 w2 w3 : World) : steady w1 w2 -> steady w2 w3 -> steady w1 w3.
Proof.
  unfold steady. intros (A1 & A2 & A3 & A4 & A5 & A6 & A7 & A8 & A9 & A10)
    (B1 & B2 & B3 & B4 & B5 & B6 & B7 & B8 & B9 & B10).
  repeat split; try congruence. auto.
Qed.

Lemma frame_but_refl (T : string -> string -> bool) (w : World) : frame_but T w w.
Proof. unfold frame_but. repeat split; auto. Qed.

Lemma frame_but_trans (T : string -> string -> bool) (w1 w2 w3 : World) :
  frame_but T w1 w2 -> frame_but T w2 w3 -> frame_but T w1 w3.
Proof.
  unfold frame_but. intros (A1 & A2 & A3 & A4 & A5 & A6 & A7)
    (B1 & B2 & B3 & B4 & B5 & B6 & B7).
  repeat split; try congruence.
  intros p ino Hp Hf. apply B7; [rewrite A1; exact Hp|]. apply A7; assumption.
Qed.

#[export] Instance steady_preorder : PreOrder steady.
Proof. split; [exact steady_refl|exact steady_trans]. Qed.

#[export] Instance frame_but_preorder (T : string -> string -> bool) : PreOrder (frame_but T).
Proof. split; [exact (frame_but_refl T)|exact (frame_but_trans T)]. Qed.

Section Always.

Context (R : World -> World -> Prop) `{!PreOrder R}.

Lemma always_ret {A} (a : A) : always R (ret a).
Proof. intros w. simpl. reflexivity. Qed.

Lemma always_get : always R get.
Proof. intros w. simpl. reflexivity. Qed.

Lemma always_lift {A} (r : Res A) : always R (lift r).
Proof. intros w. simpl. reflexivity. Qed.

Lemma always_next_fault_of :
  (forall w x r, faults w = x :: r -> R w (set_faults r w)) -> always R next_fault.
Proof.
  intros H w. unfold next_fault. destruct (faults w) as [|x r] eqn:E; simpl.
  - reflexivity.
  - apply (H w x r E).
Qed.

Lemma always_bind {A B} (m : M A) (k : A -> M B) :
  always R m -> (forall a, always R (k a)) -> always R (bind m k).
Proof.
  intros Hm Hk w. unfold bind. specialize (Hm w).
  destruct (m w) as [[a|p] w1]; simpl in *; [|exact Hm].
  transitivity w1; [exact Hm|apply Hk].
Qed.

Lemma always_modify (g : World -> World) :
  (forall w, R w (g w)) -> always R (modify g).
Proof. intros H w. apply H. Qed.

End Always.

Lemma always_weaken {A} (R S : World -> World -> Prop) (m : M A) :
  (forall w w', R w w' -> S w w') -> always R m -> always S m.
Proof. intros H Hm w. apply H, Hm. Qed.

Lemma steady_frame_but (T : string -> string -> bool) (w w' : World) :
  steady w w' -> frame_but T w w'.
Proof.
  unfold steady, frame_but.
  intros (A1 & A2 & A3 & A4 & A5 & A6 & A7 & A8 & A9 & A10).
  repeat split; auto.
Qed.

(** *** Steps of the world that are steady *)

Ltac steady_fields :=
  unfold steady, tidy_tasks; simpl; repeat split; auto.

Lemma steady_log (e : Event) : always steady (log e).
Proof. intros w. steady_fields. Qed.

Lemma steady_next_fault : always steady next_fault.
Proof. apply always_next_fault_of; [typeclasses eauto|]. intros. steady_fields. Qed.

Lemma steady_set_ent (a : nat) (e : openFileEnt) : always steady (set_ent a e).
Proof. intros w. steady_fields. Qed.

Lemma steady_go (t : Task) : is_tidy t = false -> always steady (go t).
Proof.
  intros Ht w. unfold steady, tidy_tasks. simpl. repeat split; auto.
  rewrite filter_app, length_app. simpl. rewrite filter_cons.
  destruct (decide (is_tidy t = true)); [congruence|]. simpl. lia.
Qed.

Lemma steady_set_fds (g : World -> gmap nat OpenFile) :
  always steady (modify (fun w => set_fds (g w) w)).
Proof. intros w. steady_fields. Qed.

Lemma steady_set_inodes (g : World -> gmap nat Inode) :
  always steady (modify (fun w => set_inodes (g w) w)).
Proof. intros w. steady_fields. Qed.

Lemma steady_set_heldopen (x : option (gmap string nat)) :
  always steady (upd_cache (set_heldopen x)).
Proof. intros w. steady_fields. Qed.

Lemma steady_set_heldopenMax (x : Z) : always steady (upd_cache (set_heldopenMax x)).
Proof. intros w. steady_fields. Qed.

Create HintDb steady.

#[export] Hint Resolve steady_log steady_next_fault steady_set_ent steady_set_heldopen
  steady_set_heldopenMax : steady.

(** One step of a proof that a call is steady. *)
Ltac sstep :=
  lazymatch goal with
  | |- always _ (bind _ _) => apply always_bind; [typeclasses eauto| |intros ?]
  | |- always _ (ret _) => apply always_ret; typeclasses eauto
  | |- always _ get => apply always_get; typeclasses eauto
  | |- always _ (lift _) => apply always_lift; typeclasses eauto
  | |- always _ (match ?x with _ => _ end) => destruct x
  | |- always _ (let _ := _ in _) => cbv zeta
  | |- always _ (modify _) => apply always_modify; [typeclasses eauto|]; intros ?
  end.

Ltac ssteps := repeat (first [solve [auto with steady] | sstep]; cbv beta).

Lemma steady_new_fd (name : string) (ino : nat) : always steady (new_fd name ino).
Proof. unfold new_fd. ssteps; steady_fields. Qed.

Lemma steady_os_OpenFile (name : string) (flags : Z) :
  always steady (os_OpenFile name flags).
Proof.
  intros w. unfold os_OpenFile, new_fd. munfold.
  destruct (faults w) as [|[e|] fl]; simpl;
    try (destruct (files w !! name) as [ino|] eqn:Eo; simpl;
         [destruct (_ && _); simpl
         |destruct (bool_decide (name ∈ dirs w)); simpl;
           [|destruct (has_flag flags O_CREATE); simpl;
             [destruct (dir_exists _ (parent_dir name)); simpl|]]]);
    steady_fields.
  all: intros p i Hp; rewrite lookup_insert_ne by congruence; exact Hp.
Qed.

Lemma steady_os_Mkdir (name : string) : always steady (os_Mkdir name).
Proof.
  intros w. unfold os_Mkdir. munfold.
  destruct (faults w) as [|[e|] fl]; simpl;
    try (destruct (_ || _); simpl; [|destruct (dir_exists _ _); simpl]);
    steady_fields.
Qed.

Lemma steady_syscall_Flock (fd : nat) (how : LockHow) : always steady (syscall_Flock fd how).
Proof.
  intros w. unfold syscall_Flock. munfold.
  destruct (faults w) as [|[e|] fl]; simpl; try destruct (fds w !! fd); simpl; steady_fields.
Qed.

Lemma steady_File_Seek (fd : nat) (offset : Z) (whence : Whence) :
  always steady (File_Seek fd offset whence).
Proof.
  intros w. unfold File_Seek. munfold.
  destruct (faults w) as [|[e|] fl]; simpl;
    try (destruct (fds w !! fd) as [o|]; simpl; [destruct (_ <? 0); simpl|]);
    steady_fields.
Qed.

Lemma steady_File_ReadAt (fd : nat) (len off : Z) : always steady (File_ReadAt fd len off).
Proof.
  intros w. unfold File_ReadAt. destruct (off <? 0); [apply steady_refl|]. munfold.
  destruct (faults w) as [|[e|] fl]; simpl;
    try (destruct (fds w !! fd) as [o|]; simpl;
         [destruct (inodes w !! of_ino o); simpl|]);
    steady_fields.
Qed.

Lemma steady_File_Write_ok (fd : nat) (data : bytes) : always steady (File_Write_ok fd data).
Proof.
  intros w. unfold File_Write_ok. munfold.
  destruct (fds w !! fd) as [o|]; simpl; [destruct (inodes w !! of_ino o); simpl|];
    steady_fields.
Qed.

Lemma steady_File_Write (fd : nat) (data : bytes) : always steady (File_Write fd data).
Proof.
  unfold File_Write. sstep; [apply steady_next_fault|].
  destruct a; [ssteps|apply steady_File_Write_ok].
Qed.

Lemma steady_File_Truncate (fd : nat) (size : Z) : always steady (File_Truncate fd size).
Proof.
  intros w. unfold File_Truncate. munfold.
  destruct (fds w !! fd) as [o|]; simpl;
    [destruct (inodes w !! of_ino o); simpl; [destruct (size <? 0); simpl|]|];
    steady_fields.
Qed.

Lemma steady_File_Close (fd : nat) : always steady (File_Close fd).
Proof.
  intros w. unfold File_Close. munfold.
  destruct (fds w !! fd) as [o|]; simpl; [destruct (faults w) as [|[e|] fl]; simpl|];
    steady_fields.
Qed.

Lemma steady_File_ReadAll (fd : nat) : always steady (File_ReadAll fd).
Proof.
  intros w. unfold File_ReadAll. munfold.
  destruct (faults w) as [|[e|] fl]; simpl;
    try (destruct (fds w !! fd) as [o|]; simpl;
         [destruct (inodes w !! of_ino o); simpl|]);
    steady_fields.
Qed.

#[export] Hint Resolve steady_new_fd steady_os_OpenFile steady_os_Mkdir steady_syscall_Flock
  steady_File_Seek steady_File_ReadAt steady_File_Write_ok steady_File_Write
  steady_File_Truncate steady_File_Close steady_File_ReadAll : steady.

Lemma steady_openFile (name : string) (flags : Z) : always steady (openFile name flags).
Proof. unfold openFile. ssteps. Qed.

Lemma steady_upstream_ReadAt (gw : KeepGateway) (locator : string) (len_dst offset : Z) :
  always steady (upstream_ReadAt gw locator len_dst offset).
Proof. unfold upstream_ReadAt. ssteps. Qed.

Lemma steady_upstream_BlockRead (gw : KeepGateway) (locator : string)
  (sink : bytes -> M unit) :
  (forall data, always steady (sink data)) ->
  always steady (upstream_BlockRead gw locator sink).
Proof. intros Hs. unfold upstream_BlockRead. ssteps. Qed.

Lemma steady_choose_heldopenMax : always steady choose_heldopenMax.
Proof. unfold choose_heldopenMax. ssteps. Qed.

Lemma steady_deleteHeldopen (name : string) (a : nat) :
  always steady (deleteHeldopen name a).
Proof. unfold deleteHeldopen. ssteps. Qed.

#[export] Hint Resolve steady_openFile steady_upstream_ReadAt steady_choose_heldopenMax
  steady_deleteHeldopen : steady.

Lemma steady_quickReadAt_locked (name : string) : always steady (quickReadAt_locked name).
Proof. unfold quickReadAt_locked. ssteps; apply steady_go; reflexivity. Qed.

Lemma steady_open_heldopen (name : string) (a : nat) : always steady (open_heldopen name a).
Proof. unfold open_heldopen. ssteps; apply steady_go; reflexivity. Qed.

#[export] Hint Resolve steady_quickReadAt_locked steady_open_heldopen : steady.

Lemma steady_quickReadAt (name : string) (len_dst offset : Z) :
  always steady (quickReadAt name len_dst offset).
Proof. unfold quickReadAt. ssteps; apply steady_go; reflexivity. Qed.

Lemma steady_ReadAt_slow (gw : KeepGateway) (locator name : string) (len_dst offset : Z) :
  always steady (ReadAt_slow gw locator name len_dst offset).
Proof.
  unfold ReadAt_slow. ssteps.
  all: try (apply steady_upstream_BlockRead; intros; ssteps).
Qed.

Lemma steady_closeAll (m : gmap string nat) : always steady (closeAll m).
Proof.
  unfold closeAll. induction (map_to_list m) as [|[n a] l IH]; simpl; ssteps.
Qed.


(** ** The tidy scheduler *)

Lemma int32_id (z : Z) : - 2 ^ 31 <= z < 2 ^ 31 -> int32 z = z.
Proof.
  intros H. unfold int32. rewrite Z.mod_small by lia. lia.
Qed.

(** Adding one and taking one off, both with wrap-around, gives the
    counter back. *)
Lemma int32_incr_decr (t : Z) :
  - 2 ^ 31 <= t < 2 ^ 31 -> int32 (int32 (t + 1) - 1) = t.
Proof.
  intros H. destruct (Z.eq_dec t (2 ^ 31 - 1)) as [->|Hne].
  - reflexivity.
  - rewrite (int32_id (t + 1)) by lia. rewrite int32_id by lia. lia.
Qed.

Lemma int32_incr_one (t : Z) :
  - 2 ^ 31 <= t < 2 ^ 31 -> (int32 (t + 1) =? 1) = (t =? 0).
Proof.
  intros H. destruct (Z.eq_dec t (2 ^ 31 - 1)) as [->|Hne].
  - reflexivity.
  - rewrite (int32_id (t + 1)) by lia.
    destruct (Z.eqb_spec (t + 1) 1), (Z.eqb_spec t 0); try reflexivity; lia.
Qed.

Lemma world_eta (w : World) :
  {| cache := cache w; heap := heap w; goroutines := goroutines w; files := files w;
     dirs := dirs w; inodes := inodes w; fds := fds w; faults := faults w;
     rlimit_nofile := rlimit_nofile w; statfs := statfs w; now := now w;
     trace := trace w |} = w.
Proof. destruct w. reflexivity. Qed.

Lemma cache_eta (c : DiskCache) :
  {| Dir := Dir c; MaxSize := MaxSize c; tidying := tidying c;
     tidyHoldUntil := tidyHoldUntil c; defaultMaxSize := defaultMaxSize c;
     heldopen := heldopen c; heldopenMax := heldopenMax c |} = c.
Proof. destruct c. reflexivity. Qed.

(** [gotidy] when a tidy goroutine is under way, or within the hold-off:
    nothing changes. *)
Lemma gotidy_bails (w : World) :
  - 2 ^ 31 <= tidying (cache w) < 2 ^ 31 ->
  tidying (cache w) <> 0 \/ now w < tidyHoldUntil (cache w) ->
  gotidy w = (Ok tt, w).
Proof.
  intros Hr Hb. unfold gotidy. munfold. simpl.
  rewrite (int32_incr_one _ Hr).
  assert (Hc : negb (tidying (cache w) =? 0) || (now w <? tidyHoldUntil (cache w)) = true).
  { destruct Hb as [Hb|Hb].
    - apply Z.eqb_neq in Hb. rewrite Hb. reflexivity.
    - apply Z.ltb_lt in Hb. rewrite Hb. apply orb_true_r. }
  rewrite Hc. simpl. rewrite (int32_incr_decr _ Hr).
  f_equal. unfold set_cache, set_tidying. simpl. rewrite cache_eta. apply world_eta.
Qed.

(** [gotidy] when none is under way and the hold-off is over: the
    counter goes to 1 and one tidy goroutine is started. *)
Lemma gotidy_starts (w : World) :
  tidying (cache w) = 0 -> tidyHoldUntil (cache w) <= now w ->
  gotidy w = (Ok tt, set_goroutines (goroutines w ++ [GoTidy])
                       (set_cache (set_tidying 1 (cache w)) w)).
Proof.
  intros Ht Hh. unfold gotidy. munfold. simpl. rewrite Ht. simpl.
  replace (now w <? tidyHoldUntil (cache w)) with false
    by (symmetry; apply Z.ltb_ge; exact Hh).
  reflexivity.
Qed.

Lemma gotidy_single_flight (w : World) :
  single_flight w -> single_flight (snd (gotidy w)).
Proof.
  intros [Hc Hn].
  destruct (Z.eq_dec (tidying (cache w)) 0) as [H0|H0];
    [destruct (Z_lt_le_dec (now w) (tidyHoldUntil (cache w))) as [Hh|Hh]|].
  - rewrite gotidy_bails; [split; assumption|rewrite H0; lia|auto].
  - rewrite (gotidy_starts w H0 Hh). unfold single_flight, tidy_tasks in *. simpl.
    rewrite filter_app, length_app. simpl.
    rewrite H0 in Hc. split; lia.
  - rewrite gotidy_bails; [split; assumption|rewrite Hc; lia|auto].
Qed.

Lemma frame_but_single_flight (T : string -> string -> bool) (w w' : World) :
  frame_but T w w' -> single_flight w -> single_flight w'.
Proof.
  unfold frame_but, single_flight. intros (_ & _ & Ht & _ & Hn & _) [H1 H2].
  rewrite Ht, Hn. auto.
Qed.

Lemma steady_single_flight (w w' : World) :
  steady w w' -> single_flight w -> single_flight w'.
Proof. intros H. apply (frame_but_single_flight any_file), steady_frame_but, H. Qed.

(** *** What [tidy] leaves alone *)

Lemma frame_but_of_steady {A} (T : string -> string -> bool) (m : M A) :
  always steady m -> always (frame_but T) m.
Proof. apply always_weaken. apply steady_frame_but. Qed.

Lemma frame_set_defaultMaxSize (T : string -> string -> bool) (x : Z) :
  always (frame_but T) (upd_cache (set_defaultMaxSize x)).
Proof. intros w. unfold frame_but, tidy_tasks. simpl. repeat split; auto. Qed.

(** Unlinking a file that [T] takes out. *)
Lemma frame_os_Remove (T : string -> string -> bool) (name : string) (w : World) :
  T (Dir (cache w)) name = true -> frame_but T w (snd (os_Remove name w)).
Proof.
  intros Ht. unfold os_Remove. munfold.
  destruct (files w !! name) as [ino|] eqn:E; simpl;
    unfold frame_but, tidy_tasks; simpl; repeat split; auto.
  intros p i Hp Hf. rewrite lookup_delete_ne by congruence. exact Hf.
Qed.

Lemma frame_tidy_loop (T : string -> string -> bool) (ents : list entT)
  (totalsize maxsize deleted : Z) (w : World) :
  Forall (fun e => T (Dir (cache w)) (ent_path e) = true) ents ->
  frame_but T w (snd (tidy_loop ents totalsize maxsize deleted w)).
Proof.
  revert totalsize deleted w. induction ents as [|e ents IH]; intros t d w Hall.
  - apply frame_but_refl.
  - inversion Hall as [|? ? He Hrest]; subst. cbn [tidy_loop].
    assert (H1 := frame_os_Remove T (ent_path e) w He).
    destruct (os_Remove_spec (ent_path e) w) as (w1 & evs & E1 & _ & _ & _ & _ & Hc & _).
    rewrite (bind_eq _ _ _ _ _ E1). rewrite E1 in H1. simpl in H1.
    destruct (_ <=? maxsize); [exact H1|].
    eapply frame_but_trans; [exact H1|]. apply IH. rewrite Hc. exact Hrest.
Qed.

Section TidyFrame.

Variable sort_Slice : (entT -> entT -> bool) -> list entT -> list entT.
Variable T : string -> string -> bool.

(** What is sorted for deletion is among what [T] takes out. *)
Hypothesis sorted_targets :
  forall w, Forall (fun e => T (Dir (cache w)) (ent_path e) = true)
              (sort_Slice (fun a b => ent_atime a <? ent_atime b) (tidy_scan w)).

Lemma frame_tidy_locked (maxsize : Z) : always (frame_but T) (tidy_locked sort_Slice maxsize).
Proof.
  intros w. unfold tidy_locked. rewrite bind_get. cbv zeta.
  destruct (maxsize =? 0).
  - apply always_bind; [typeclasses eauto|apply frame_set_defaultMaxSize|].
    intros ?. apply always_ret. typeclasses eauto.
  - destruct (_ <=? maxsize); [apply frame_but_refl|].
    unfold bind.
    assert (H := frame_tidy_loop T _ (fold_left (fun t e => int64 (t + ent_size e))
                                        (tidy_scan w) 0) maxsize 0 w (sorted_targets w)).
    destruct (tidy_loop _ _ _ _ w) as [[r|p] w1]; exact H.
Qed.

Lemma frame_tidy : always (frame_but T) (tidy sort_Slice).
Proof.
  unfold tidy.
  apply always_bind; [typeclasses eauto|apply always_get; typeclasses eauto|]. intros w0.
  apply always_bind; [typeclasses eauto| |].
  { destruct (_ <? 1); [|apply always_ret; typeclasses eauto].
    destruct (_ =? 0); [|apply always_ret; typeclasses eauto].
    apply always_bind; [typeclasses eauto|apply frame_but_of_steady, steady_log|].
    intros ?.
    apply always_bind; [typeclasses eauto|apply frame_set_defaultMaxSize|].
    intros ?. apply always_ret. typeclasses eauto. }
  intros maxsize.
  apply always_bind; [typeclasses eauto|apply always_get; typeclasses eauto|]. intros w1.
  apply always_bind; [typeclasses eauto|apply frame_but_of_steady, steady_openFile|].
  intros [fo err].
  destruct err; [apply always_ret; typeclasses eauto|].
  destruct fo as [lockfile|]; [|apply always_ret; typeclasses eauto].
  apply always_bind; [typeclasses eauto| |].
  { apply always_bind; [typeclasses eauto|apply frame_but_of_steady, steady_syscall_Flock|].
    intros [e|]; [apply always_ret; typeclasses eauto|apply frame_tidy_locked]. }
  intros r.
  apply always_bind; [typeclasses eauto|apply frame_but_of_steady, steady_File_Close|].
  intros ?. apply always_ret. typeclasses eauto.
Qed.

End TidyFrame.

Lemma any_file_targets (sort_Slice : (entT -> entT -> bool) -> list entT -> list entT)
  (w : World) :
  Forall (fun e => any_file (Dir (cache w)) (ent_path e) = true)
    (sort_Slice (fun a b => ent_atime a <? ent_atime b) (tidy_scan w)).
Proof. apply List.Forall_forall. intros. reflexivity. Qed.

(** *** [tidy] returns *)

Lemma returns_any {A} (m : M A) (Q : A -> list Event -> Prop) :
  returns m Q -> returns m (fun _ _ => True).
Proof. intros H. eapply returns_conseq; [exact H|]. auto. Qed.

Lemma returns_bind_any {A B} (m : M A) (k : A -> M B) :
  returns m (fun _ _ => True) -> (forall a, returns (k a) (fun _ _ => True)) ->
  returns (bind m k) (fun _ _ => True).
Proof.
  intros Hm Hk. apply returns_bind. eapply returns_conseq; [exact Hm|].
  intros a ? _. eapply returns_conseq; [apply Hk|]. auto.
Qed.

Lemma os_Remove_returns (name : string) : returns (os_Remove name) (fun _ _ => True).
Proof.
  intros w. destruct (os_Remove_spec name w) as (w' & evs & E & Ht & _).
  exists tt, w', evs. auto.
Qed.

Ltac rstep :=
  lazymatch goal with
  | |- returns (bind _ _) _ => apply returns_bind_any; [|intros ?]
  | |- returns (ret _) _ => apply returns_ret; exact I
  | |- returns get _ => apply returns_get; intros; exact I
  | |- returns (log _) _ => apply returns_log; exact I
  | |- returns (upd_cache _) _ => apply returns_modify; [intros; reflexivity|exact I]
  | |- returns (match ?x with _ => _ end) _ => destruct x
  | |- returns (let _ := _ in _) _ => cbv zeta
  end.

Lemma tidy_loop_returns (ents : list entT) (totalsize maxsize deleted : Z) :
  returns (tidy_loop ents totalsize maxsize deleted) (fun _ _ => True).
Proof.
  revert totalsize deleted. induction ents as [|e ents IH]; intros t d; cbn [tidy_loop].
  - rstep.
  - rstep; [apply os_Remove_returns|]. cbv zeta. rstep; [rstep|apply IH].
Qed.

Lemma tidy_returns (sort_Slice : (entT -> entT -> bool) -> list entT -> list entT) :
  returns (tidy sort_Slice) (fun _ _ => True).
Proof.
  unfold tidy, tidy_locked.
  repeat first
    [ apply tidy_loop_returns
    | eapply returns_any; apply openFile_returns
    | eapply returns_any; apply syscall_Flock_returns
    | eapply returns_any; apply File_Close_returns
    | rstep ].
Qed.

(** The tidy goroutine, from start to end: [tidy] returns, the hold-off
    is set to ten seconds from now, and the counter goes down by one. *)
Lemma run_tidy_spec (sort_Slice : (entT -> entT -> bool) -> list entT -> list entT)
  (w : World) :
  exists w1,
    run_task sort_Slice GoTidy w = (Ok tt, w1) /\
    tidyHoldUntil (cache w1) = now w + tidyHoldDuration /\
    tidying (cache w1) = int32 (tidying (cache w) - 1) /\
    tidy_tasks w1 = tidy_tasks w /\ now w1 = now w.
Proof.
  destruct (tidy_returns sort_Slice w) as (r & w' & evs & E & _).
  assert (H := frame_tidy sort_Slice any_file (any_file_targets sort_Slice) w).
  rewrite E in H. simpl in H. destruct H as (_ & _ & Ht & _ & Hn & Hnow & _).
  cbn [run_task]. rewrite (bind_eq _ _ _ _ _ E). munfold. simpl.
  eexists. split; [reflexivity|]. unfold tidy_tasks in *. simpl.
  rewrite Ht, Hnow. auto.
Qed.


(** *** The invariant of the scheduler *)

Lemma single_flight_after_gotidy {A} (k : unit -> M A) (w : World) :
  (forall a, always steady (k a)) ->
  single_flight w -> single_flight (snd (bind gotidy k w)).
Proof.
  intros Hk Hw. destruct (gotidy_ok w) as (w' & Hg & _).
  assert (H := gotidy_single_flight w Hw). rewrite Hg in H. simpl in H.
  rewrite (bind_eq _ _ _ _ _ Hg).
  apply (steady_single_flight w'); [apply Hk|exact H].
Qed.

#[export] Hint Resolve steady_quickReadAt steady_ReadAt_slow : steady.

Ltac ssteps' :=
  repeat (first [ solve [auto with steady]
                | apply steady_upstream_BlockRead; intros ?
                | sstep ]; cbv beta).

Lemma ReadAt_single_flight (gw : KeepGateway) (L : string) (len_dst offset : Z) (w : World) :
  single_flight w -> single_flight (snd (ReadAt gw L len_dst offset w)).
Proof. unfold ReadAt. apply single_flight_after_gotidy. intros ?. ssteps'. Qed.

Lemma BlockRead_single_flight (gw : KeepGateway) (L : string) (w : World) :
  single_flight w -> single_flight (snd (BlockRead gw L w)).
Proof. unfold BlockRead. apply single_flight_after_gotidy. intros ?. ssteps'. Qed.

Lemma BlockWrite_begin_single_flight (gw : KeepGateway) (opts : BlockWriteOptions)
  (unique : string) (w : World) :
  single_flight w -> single_flight (snd (BlockWrite_begin gw opts unique w)).
Proof. unfold BlockWrite_begin. apply single_flight_after_gotidy. intros ?. ssteps'. Qed.

Lemma tidy_tasks_remove (w : World) (i : nat) (t : Task) :
  goroutines w !! i = Some t ->
  tidy_tasks w =
    ((if is_tidy t then 1 else 0)
     + tidy_tasks (set_goroutines (take i (goroutines w) ++ drop (Datatypes.S i) (goroutines w)) w))%nat.
Proof.
  intros Hi. unfold tidy_tasks. simpl.
  rewrite <- (take_drop_middle (goroutines w) i t Hi) at 1.
  rewrite !filter_app, !length_app, filter_cons.
  destruct (is_tidy t); simpl; lia.
Qed.

Lemma run_goroutine_single_flight
  (sort_Slice : (entT -> entT -> bool) -> list entT -> list entT) (i : nat) (w : World) :
  single_flight w -> single_flight (snd (run_goroutine sort_Slice i w)).
Proof.
  intros [Hc Hn]. unfold run_goroutine. rewrite bind_get.
  destruct (goroutines w !! i) as [t|] eqn:Hi; [|split; assumption].
  assert (Hrm := tidy_tasks_remove w i t Hi).
  munfold. cbv beta iota.
  set (w0 := set_goroutines _ w) in *.
  destruct t as [name a|m|].
  - apply (steady_single_flight w0); [apply steady_deleteHeldopen|].
    simpl in Hrm. split; [simpl; lia|lia].
  - apply (steady_single_flight w0); [apply steady_closeAll|].
    simpl in Hrm. split; [simpl; lia|lia].
  - destruct (run_tidy_spec sort_Slice w0) as (w1 & E & _ & Ht & Hn1 & _).
    rewrite E. simpl in *. split; [|lia].
    rewrite Ht, Hn1. change (tidying (cache w0)) with (tidying (cache w)).
    assert (tidy_tasks w = 1%nat) by lia. assert (tidy_tasks w0 = 0%nat) by lia.
    rewrite Hc, H, H0. reflexivity.
Qed.

(** The feeder's steps change the world by system calls only. *)
Lemma frame_os_Rename (old new : string) : always (frame_but any_file) (os_Rename old new).
Proof.
  intros w. unfold os_Rename. munfold.
  destruct (faults w) as [|[e|] fl]; simpl;
    try (destruct (files w !! old) as [ino|]; simpl;
         [destruct (bool_decide (new ∈ dirs w)); simpl;
          [|destruct (dir_exists _ (parent_dir new)); simpl]|]);
    unfold frame_but, tidy_tasks; simpl; repeat split; auto; discriminate.
Qed.

Lemma frame_rename (old new : string) : always (frame_but any_file) (rename old new).
Proof.
  unfold rename.
  apply always_bind; [typeclasses eauto|apply frame_os_Rename|]. intros [e|].
  - destruct (filepath.Split new).
    apply always_bind; [typeclasses eauto|apply frame_but_of_steady, steady_os_Mkdir|].
    intros ?. apply frame_os_Rename.
  - apply always_ret. typeclasses eauto.
Qed.

Lemma feeder_do_world {A} (m : M A) (s : BW) (k : A -> BW -> BW) :
  (forall a s', bw_world (k a s') = bw_world s') ->
  bw_world (feeder_do m s k) = snd (m (bw_world s)).
Proof.
  intros Hk. unfold feeder_do. destruct (m (bw_world s)) as [[a|p] w']; simpl; [|reflexivity].
  rewrite Hk. reflexivity.
Qed.

Lemma feeder_step_frame_world (s : BW) :
  frame_but any_file (bw_world s) (bw_world (feeder_step s)).
Proof.
  unfold feeder_step, feeder_fail.
  destruct (bw_feeder s) as [[|c rest] fin n|c rest fin n|n [e|]| |h| | |p];
    try apply frame_but_refl.
  - rewrite feeder_do_world; [apply frame_but_of_steady, steady_File_Write|].
    intros [z [e|]] s'; reflexivity.
  - destruct (bw_pipe s) as [[|x pending]|]; try apply frame_but_refl.
    destruct (bw_rclosed s); apply frame_but_refl.
  - destruct (_ && _); [apply frame_but_refl|].
    rewrite feeder_do_world; [apply frame_but_of_steady, steady_File_Close|].
    intros [e|] s'; reflexivity.
  - destruct (_ && _); apply frame_but_refl.
  - rewrite feeder_do_world by reflexivity.
    apply always_bind; [typeclasses eauto|apply always_lift; typeclasses eauto|].
    intros ?. apply frame_rename.
  - rewrite feeder_do_world by reflexivity.
    change (bw_world (set_wclosed true s)) with (bw_world s).
    intros. unfold bind.
    assert (H1 := frame_os_Remove any_file (bw_tmpfilename s) (bw_world s) eq_refl).
    destruct (os_Remove (bw_tmpfilename s) (bw_world s)) as [[[]|p] w1]; [|exact H1].
    eapply frame_but_trans; [exact H1|].
    apply frame_but_of_steady, steady_File_Close.
Qed.

Lemma bw_run_single_flight (sched : list Thread) (s : BW) :
  single_flight (bw_world s) -> single_flight (bw_world (bw_run sched s)).
Proof.
  revert s. induction sched as [|t sched IH]; intros s H; [exact H|].
  rewrite bw_run_cons. apply IH. destruct t; simpl.
  - destruct (main_step_frame s) as (-> & _). exact H.
  - apply (frame_but_single_flight any_file (bw_world s)); [|exact H].
    apply feeder_step_frame_world.
Qed.

(** X3: single flight. The counter cache.tidying is the number of tidy
    goroutines started and not finished, and there is at most one: this
    holds of a world after gotidy, ReadAt, BlockRead, the start of
    BlockWrite and any run of its two goroutines, and after any waiting
    goroutine has run, if it held before. *)
Theorem single_flight_kept (gw : KeepGateway)
  (sort_Slice : (entT -> entT -> bool) -> list entT -> list entT) (w : World) :
  single_flight w ->
  single_flight (snd (gotidy w)) /\
  (forall L len_dst offset, single_flight (snd (ReadAt gw L len_dst offset w))) /\
  (forall L, single_flight (snd (BlockRead gw L w))) /\
  (forall opts unique, single_flight (snd (BlockWrite_begin gw opts unique w))) /\
  (forall s sched, bw_world s = w -> single_flight (bw_world (bw_run sched s))) /\
  (forall i, single_flight (snd (run_goroutine sort_Slice i w))).
Proof.
  intros H. split; [apply gotidy_single_flight, H|].
  split; [intros; apply ReadAt_single_flight, H|].
  split; [intros; apply BlockRead_single_flight, H|].
  split; [intros; apply BlockWrite_begin_single_flight, H|].
  split; [intros s sched <-; apply bw_run_single_flight, H|].
  intros; apply run_goroutine_single_flight, H.
Qed.

Lemma single_flight_kept_witness :
  let gw := Ex.gateway true in
  let w := snd (Ex.read 1 Ex.world_cached) in
  single_flight w /\
  tidy_tasks w = 1%nat /\
  single_flight (snd (gotidy w)) /\
  (forall L len_dst offset, single_flight (snd (ReadAt gw L len_dst offset w))) /\
  (forall L, single_flight (snd (BlockRead gw L w))) /\
  (forall opts unique, single_flight (snd (BlockWrite_begin gw opts unique w))) /\
  (forall s sched, bw_world s = w -> single_flight (bw_world (bw_run sched s))) /\
  (forall i, single_flight (snd (run_goroutine Ex.insertion_sort i w))).
Proof.
  intros gw w.
  assert (H : single_flight w) by (split; vm_compute; [reflexivity|lia]).
  split; [exact H|]. split; [vm_compute; reflexivity|].
  exact (single_flight_kept gw Ex.insertion_sort w H).
Defined.







(** ** What [tidy] never deletes *)

Lemma tidy_scan_targets (w : World) :
  Forall (fun e => tidy_target (Dir (cache w)) (ent_path e) = true) (tidy_scan w).
Proof.
  unfold tidy_scan, tidy_target. apply List.Forall_forall. intros e He.
  apply list_elem_of_In, list_elem_of_omap in He. destruct He as ([p ino] & _ & He).
  destruct (_ && _) eqn:E; [|discriminate].
  destruct (inodes w !! ino); [|discriminate].
  injection He as <-. exact E.
Qed.

(** X7: a tidy pass, whatever it deletes, leaves in place every file
    that is not below the cache directory or has neither the suffix of
    cache files nor that of temp files (its own tidy.lock among them),
    and leaves the directory, the size limit and the scheduler's state of
    the cache as they were. sort.Slice is taken to return a permutation
    of its input. *)
Theorem tidy_spares_other_files
  (sort_Slice : (entT -> entT -> bool) -> list entT -> list entT) (w : World)
  (p : string) (ino : nat) :
  (forall less l, Permutation (sort_Slice less l) l) ->
  tidy_target (Dir (cache w)) p = false ->
  files w !! p = Some ino ->
  files (snd (tidy sort_Slice w)) !! p = Some ino /\
  Dir (cache (snd (tidy sort_Slice w))) = Dir (cache w) /\
  MaxSize (cache (snd (tidy sort_Slice w))) = MaxSize (cache w).
Proof.
  intros Hperm Hp Hf.
  assert (Ht : forall w0, Forall (fun e => tidy_target (Dir (cache w0)) (ent_path e) = true)
                 (sort_Slice (fun a b => ent_atime a <? ent_atime b) (tidy_scan w0))).
  { intros w0. eapply Permutation_Forall; [symmetry; apply Hperm|apply tidy_scan_targets]. }
  destruct (frame_tidy sort_Slice tidy_target Ht w) as (HD & HM & _ & _ & _ & _ & Hfiles).
  split; [apply Hfiles; assumption|]. split; assumption.
Qed.

Lemma tidy_spares_other_files_witness :
  let w' := snd (tidy Ex.insertion_sort world_with_notes) in
  (forall less l, Permutation (Ex.insertion_sort less l) l) /\
  tidy_target (Dir (cache world_with_notes)) "/var/cache/keep/README" = false /\
  files world_with_notes !! "/var/cache/keep/README" = Some 8%nat /\
  files w' !! Ex.cached_path 2 = None /\
  files w' !! "/var/cache/keep/README" = Some 8%nat /\
  Dir (cache w') = Dir (cache world_with_notes) /\
  MaxSize (cache w') = MaxSize (cache world_with_notes).
Proof.
  intros w'.
  assert (H1 : tidy_target (Dir (cache world_with_notes)) "/var/cache/keep/README" = false)
    by (vm_compute; reflexivity).
  assert (H2 : files world_with_notes !! "/var/cache/keep/README" = Some 8%nat)
    by (vm_compute; reflexivity).
  split; [exact insertion_sort_perm|]. split; [exact H1|]. split; [exact H2|].
  split; [vm_compute; reflexivity|].
  exact (tidy_spares_other_files Ex.insertion_sort world_with_notes
           "/var/cache/keep/README" 8%nat insertion_sort_perm H1 H2).
Defined.

(** The file with the suffix that is outside the cache directory stays
    as well, and the oldest block goes. *)
Example tidy_with_notes :
  let w' := snd (tidy Ex.insertion_sort world_with_notes) in
  fst (tidy Ex.insertion_sort world_with_notes)
    = Ok {| checked := Some (1536, 1024); remaining := Some (1, 1024) |} /\
  files w' !! "/var/backup/old.keepcacheblock" = Some 9%nat /\
  files w' !! "/var/cache/keep/README" = Some 8%nat /\
  files w' !! Ex.cached_path 2 = None /\
  files w' !! Ex.cached_path 1 = Some 1%nat /\
  files w' !! Ex.cached_path 3 = Some 3%nat.
Proof. vm_compute. repeat split. Qed.


(** ** The size of the pool *)

Lemma pool_same_refl (w : World) : pool_same w w.
Proof. unfold pool_same. auto. Qed.

Lemma pool_same_trans (w1 w2 w3 : World) :
  pool_same w1 w2 -> pool_same w2 w3 -> pool_same w1 w3.
Proof. unfold pool_same. intros (A1 & A2 & A3) (B1 & B2 & B3). repeat split; congruence. Qed.

#[export] Instance pool_same_preorder : PreOrder pool_same.
Proof. split; [exact pool_same_refl|exact pool_same_trans]. Qed.

Lemma pool_same_bounded (c : Z) (w w' : World) :
  pool_same w w' -> pool_bounded c w -> pool_bounded c w'.
Proof.
  unfold pool_same, pool_bounded, cap_of, heldopen_len.
  intros (-> & -> & ->). auto.
Qed.

Ltac pool_fields := unfold pool_same; simpl; repeat split; auto.

Lemma pool_log (e : Event) : always pool_same (log e).
Proof. intros w. pool_fields. Qed.

Lemma pool_next_fault : always pool_same next_fault.
Proof. apply always_next_fault_of; [typeclasses eauto|]. intros. pool_fields. Qed.

Lemma pool_set_ent (a : nat) (e : openFileEnt) : always pool_same (set_ent a e).
Proof. intros w. pool_fields. Qed.

Lemma pool_go (t : Task) : always pool_same (go t).
Proof. intros w. pool_fields. Qed.

Lemma pool_os_OpenFile (name : string) (flags : Z) : always pool_same (os_OpenFile name flags).
Proof.
  intros w. unfold os_OpenFile, new_fd. munfold.
  destruct (faults w) as [|[e|] fl]; simpl;
    try (destruct (files w !! name) as [ino|] eqn:Eo; simpl;
         [destruct (_ && _); simpl
         |destruct (bool_decide (name ∈ dirs w)); simpl;
           [|destruct (has_flag flags O_CREATE); simpl;
             [destruct (dir_exists _ (parent_dir name)); simpl|]]]);
    pool_fields.
Qed.

Lemma pool_os_Mkdir (name : string) : always pool_same (os_Mkdir name).
Proof.
  intros w. unfold os_Mkdir. munfold.
  destruct (faults w) as [|[e|] fl]; simpl;
    try (destruct (_ || _); simpl; [|destruct (dir_exists _ _); simpl]);
    pool_fields.
Qed.

Lemma pool_syscall_Flock (fd : nat) (how : LockHow) : always pool_same (syscall_Flock fd how).
Proof.
  intros w. unfold syscall_Flock. munfold.
  destruct (faults w) as [|[e|] fl]; simpl; try destruct (fds w !! fd); simpl; pool_fields.
Qed.

Lemma pool_File_Seek (fd : nat) (offset : Z) (whence : Whence) :
  always pool_same (File_Seek fd offset whence).
Proof.
  intros w. unfold File_Seek. munfold.
  destruct (faults w) as [|[e|] fl]; simpl;
    try (destruct (fds w !! fd) as [o|]; simpl; [destruct (_ <? 0); simpl|]);
    pool_fields.
Qed.

Lemma pool_File_ReadAt (fd : nat) (len off : Z) : always pool_same (File_ReadAt fd len off).
Proof.
  intros w. unfold File_ReadAt. destruct (off <? 0); [apply pool_same_refl|]. munfold.
  destruct (faults w) as [|[e|] fl]; simpl;
    try (destruct (fds w !! fd) as [o|]; simpl;
         [destruct (inodes w !! of_ino o); simpl|]);
    pool_fields.
Qed.

Lemma pool_File_Write_ok (fd : nat) (data : bytes) : always pool_same (File_Write_ok fd data).
Proof.
  intros w. unfold File_Write_ok. munfold.
  destruct (fds w !! fd) as [o|]; simpl; [destruct (inodes w !! of_ino o); simpl|];
    pool_fields.
Qed.

Lemma pool_File_Truncate (fd : nat) (size : Z) : always pool_same (File_Truncate fd size).
Proof.
  intros w. unfold File_Truncate. munfold.
  destruct (fds w !! fd) as [o|]; simpl;
    [destruct (inodes w !! of_ino o); simpl; [destruct (size <? 0); simpl|]|];
    pool_fields.
Qed.

Lemma pool_File_Close (fd : nat) : always pool_same (File_Close fd).
Proof.
  intros w. unfold File_Close. munfold.
  destruct (fds w !! fd) as [o|]; simpl; [destruct (faults w) as [|[e|] fl]; simpl|];
    pool_fields.
Qed.

Lemma pool_File_ReadAll (fd : nat) : always pool_same (File_ReadAll fd).
Proof.
  intros w. unfold File_ReadAll. munfold.
  destruct (faults w) as [|[e|] fl]; simpl;
    try (destruct (fds w !! fd) as [o|]; simpl;
         [destruct (inodes w !! of_ino o); simpl|]);
    pool_fields.
Qed.

Lemma pool_gotidy : always pool_same gotidy.
Proof.
  intros w. destruct (gotidy_ok w) as (w' & E & _ & Hh & Hm & _ & _ & _ & _ & _ & _ & Hr & _).
  rewrite E. simpl. unfold pool_same. auto.
Qed.

Create HintDb pool.

#[export] Hint Resolve pool_log pool_next_fault pool_set_ent pool_go pool_os_OpenFile
  pool_os_Mkdir pool_syscall_Flock pool_File_Seek pool_File_ReadAt pool_File_Write_ok
  pool_File_Truncate pool_File_Close pool_File_ReadAll pool_gotidy : pool.

Ltac psteps :=
  repeat (first [ solve [auto with pool] | sstep ]; cbv beta).

Lemma pool_openFile (name : string) (flags : Z) : always pool_same (openFile name flags).
Proof. unfold openFile. psteps. Qed.

Lemma pool_upstream_BlockRead (gw : KeepGateway) (locator : string) (sink : bytes -> M unit) :
  (forall data, always pool_same (sink data)) ->
  always pool_same (upstream_BlockRead gw locator sink).
Proof. intros Hs. unfold upstream_BlockRead. psteps. Qed.

#[export] Hint Resolve pool_openFile : pool.

Ltac psteps' :=
  repeat (first [ solve [auto with pool]
                | apply pool_upstream_BlockRead; intros ?
                | sstep ]; cbv beta).

Lemma pool_open_heldopen (name : string) (a : nat) : always pool_same (open_heldopen name a).
Proof. unfold open_heldopen. psteps. Qed.

Lemma pool_ReadAt_slow (gw : KeepGateway) (locator name : string) (len_dst offset : Z) :
  always pool_same (ReadAt_slow gw locator name len_dst offset).
Proof. unfold ReadAt_slow, upstream_ReadAt. psteps'. Qed.

Lemma pool_BlockRead (gw : KeepGateway) (L : string) : always pool_same (BlockRead gw L).
Proof. unfold BlockRead. psteps'. Qed.

Lemma pool_closeAll (m : gmap string nat) : always pool_same (closeAll m).
Proof.
  unfold closeAll. induction (map_to_list m) as [|[n a] l IH]; simpl; psteps.
Qed.

(** The part of [quickReadAt] under the lock: an entry is added only
    to a map that holds no more entries than the limit. *)
Lemma quickReadAt_locked_bounded (c : Z) (name : string) (w : World) :
  pool_bounded c w -> pool_bounded c (snd (quickReadAt_locked name w)).
Proof.
  intros (Hcap & Hc & Hlen). unfold quickReadAt_locked.
  destruct (choose_heldopenMax_spec w)
    as (w0 & E0 & Hmax & Hh & _ & _ & _ & _ & _ & _ & _ & _ & Hrl & _).
  rewrite (bind_eq _ _ _ _ _ E0), bind_get.
  assert (Hcap0 : cap_of w0 = c).
  { rewrite Hcap in Hmax. unfold cap_of. rewrite Hmax, Hrl.
    destruct (Z.eqb_spec c 0) as [Ec|Ec]; [|reflexivity].
    unfold cap_of in Hcap.
    destruct (Z.eqb_spec (heldopenMax (cache w)) 0) as [Ez|Ez]; [exact Hcap|lia]. }
  assert (Hb0 : pool_bounded c w0).
  { unfold pool_bounded, heldopen_len in *. rewrite Hh. auto. }
  unfold heldopen_len in Hlen. rewrite <- Hh in Hlen.
  destruct (heldopen (cache w0)) as [m|] eqn:Em; simpl.
  - destruct (m !! name) as [a|] eqn:En; [exact Hb0|].
    rewrite Hmax, Hcap.
    destruct (Z.of_nat (size m) >? c) eqn:Egt; munfold; simpl.
    + unfold pool_bounded, cap_of, heldopen_len in *. simpl. split; [exact Hcap0|]. lia.
    + rewrite Em. simpl. unfold pool_bounded, cap_of, heldopen_len in *. simpl.
      split; [exact Hcap0|]. split; [exact Hc|].
      rewrite map_size_insert_None by exact En.
      rewrite Z.gtb_ltb in Egt. apply Z.ltb_ge in Egt. lia.
  - munfold. simpl.
    unfold pool_bounded, cap_of, heldopen_len in *. simpl.
    split; [exact Hcap0|]. split; [exact Hc|].
    rewrite map_size_insert_None by apply lookup_empty. rewrite map_size_empty. lia.
Qed.

Lemma bounded_bind {A B} (c : Z) (m : M A) (k : A -> M B) (w : World) :
  pool_bounded c (snd (m w)) ->
  (forall a w1, pool_bounded c w1 -> pool_bounded c (snd (k a w1))) ->
  pool_bounded c (snd (bind m k w)).
Proof.
  intros Hm Hk. unfold bind. destruct (m w) as [[a|p] w1]; simpl in *; [|exact Hm].
  apply Hk, Hm.
Qed.

Lemma bounded_always {A} (c : Z) (m : M A) (w : World) :
  always pool_same m -> pool_bounded c w -> pool_bounded c (snd (m w)).
Proof. intros Hm. apply pool_same_bounded, Hm. Qed.

Lemma quickReadAt_bounded (c : Z) (name : string) (len_dst offset : Z) (w : World) :
  pool_bounded c w -> pool_bounded c (snd (quickReadAt name len_dst offset w)).
Proof.
  intros H. unfold quickReadAt.
  apply bounded_bind; [apply quickReadAt_locked_bounded, H|].
  intros [a isnew] w1. apply bounded_always. psteps. apply pool_open_heldopen.
Qed.

Lemma ReadAt_bounded (gw : KeepGateway) (c : Z) (L : string) (len_dst offset : Z) (w : World) :
  pool_bounded c w -> pool_bounded c (snd (ReadAt gw L len_dst offset w)).
Proof.
  intros H. unfold ReadAt.
  apply bounded_bind; [apply bounded_always; [apply pool_gotidy|exact H]|].
  intros _ w1 H1. rewrite bind_get.
  apply bounded_bind; [exact H1|]. intros name w2 H2.
  apply bounded_bind; [apply quickReadAt_bounded, H2|].
  intros [data [e|]] w3; apply bounded_always;
    [apply pool_ReadAt_slow|apply always_ret; typeclasses eauto].
Qed.

Lemma deleteHeldopen_bounded (c : Z) (name : string) (a : nat) (w : World) :
  pool_bounded c w -> pool_bounded c (snd (deleteHeldopen name a w)).
Proof.
  intros (Hcap & Hc & Hlen). unfold deleteHeldopen. rewrite bind_get.
  destruct (heldopen (cache w)) as [m|] eqn:Em; [|repeat split; assumption].
  destruct (bool_decide _); [|repeat split; assumption].
  unfold pool_bounded, cap_of, heldopen_len in *. munfold. simpl. rewrite Em in Hlen.
  split; [exact Hcap|]. split; [exact Hc|].
  assert (Hs := map_size_delete name m).
  destruct (m !! name); unfold id in Hs; simpl in Hs; lia.
Qed.

(** X8: the pool of open files never holds more than one entry above
    its limit. If the limit computed for a process is c >= 0 and the
    pool holds at most c + 1 entries, the same is true after ReadAt,
    BlockRead, deleteHeldopen and the goroutine that closes a detached
    map, whatever their arguments and whether they return or panic; the
    limit stays c. *)
Theorem pool_bounded_kept (gw : KeepGateway) (c : Z) (w : World) :
  pool_bounded c w ->
  (forall L len_dst offset, pool_bounded c (snd (ReadAt gw L len_dst offset w))) /\
  (forall L, pool_bounded c (snd (BlockRead gw L w))) /\
  (forall name a, pool_bounded c (snd (deleteHeldopen name a w))) /\
  (forall m, pool_bounded c (snd (closeAll m w))).
Proof.
  intros H. split; [intros; apply ReadAt_bounded, H|].
  split; [intros; apply bounded_always; [apply pool_BlockRead|exact H]|].
  split; [intros; apply deleteHeldopen_bounded, H|].
  intros; apply bounded_always; [apply pool_closeAll|exact H].
Qed.

Lemma pool_bounded_kept_witness :
  let gw := Ex.gateway true in
  let w3 := snd (Ex.read 3 (snd (Ex.read 2 (snd (Ex.read 1 Ex.world_cached))))) in
  pool_bounded 2 w3 /\ heldopen_len w3 = 3 /\
  (forall L len_dst offset, pool_bounded 2 (snd (ReadAt gw L len_dst offset w3))) /\
  (forall L, pool_bounded 2 (snd (BlockRead gw L w3))) /\
  (forall name a, pool_bounded 2 (snd (deleteHeldopen name a w3))) /\
  (forall m, pool_bounded 2 (snd (closeAll m w3))).
Proof.
  intros gw w3.
  assert (H : pool_bounded 2 w3)
    by (split; [vm_compute; reflexivity|split; [lia|vm_compute; discriminate]]).
  split; [exact H|]. split; [vm_compute; reflexivity|].
  exact (pool_bounded_kept gw 2 w3 H).
Defined.


(** ** The end of the feeder goroutine *)

Lemma bw_run_names (sched : list Thread) (s : BW) :
  bw_tmpfilename (bw_run sched s) = bw_tmpfilename s /\
  bw_tmpfile (bw_run sched s) = bw_tmpfile s.
Proof.
  revert s. induction sched as [|t sched IH]; intros s; [auto|].
  rewrite bw_run_cons. destruct (IH (bw_step s t)) as [-> ->].
  destruct t; simpl.
  - destruct (main_step_frame s) as (_ & _ & _ & _ & -> & ->). auto.
  - destruct (feeder_step_frame s) as (_ & _ & -> & -> & _). auto.
Qed.






(** *** The feeder is not left waiting *)

Lemma feeder_step_progress (s : BW) :
  bw_rclosed s = true ->
  (feeder_steps_left (bw_feeder (feeder_step s)) < feeder_steps_left (bw_feeder s))%nat \/
  feeder_steps_left (bw_feeder (feeder_step s)) = 0%nat.
Proof.
  intros Hr. unfold feeder_step, feeder_fail.
  destruct (bw_feeder s) as [[|c rest] fin n|c rest fin n|n [e|]| |h| | |p] eqn:Epc;
    simpl; try (left; lia); try (right; rewrite Epc; reflexivity).
  - destruct (feeder_do_cases (File_Write (bw_tmpfile s) c) s
      (fun '(_, e) s => match e with
                        | Some e => set_feeder (FCopied n (Some e)) s
                        | None => set_feeder (FPipe c rest fin n) (set_pipe (Some c) s)
                        end))
      as [([z [e|]] & w' & _ & ->)|(p & w' & _ & ->)]; simpl; left; lia.
  - destruct (bw_pipe s) as [[|b pending]|]; simpl; try (left; lia).
    rewrite Hr. simpl. left. lia.
  - destruct (_ && _); [simpl; left; lia|].
    destruct (feeder_do_cases (File_Close (bw_tmpfile s)) s
      (fun e s => match e with
                  | Some _ => set_feeder FDefers s
                  | None => set_feeder FSum s
                  end))
      as [([e|] & w' & _ & ->)|(p & w' & _ & ->)]; simpl; left; lia.
  - destruct (_ && _); simpl; left; lia.
  - match goal with
    | |- context [feeder_do ?m s ?k] =>
        destruct (feeder_do_cases m s k) as [(a & w' & _ & ->)|(p & w' & _ & ->)]
    end; simpl; left; lia.
  - match goal with
    | |- context [feeder_do ?m ?s' ?k] =>
        destruct (feeder_do_cases m s' k) as [(a & w' & _ & ->)|(p & w' & _ & ->)]
    end; simpl; [left|right]; lia.
Qed.

Lemma main_step_rclosed (s : BW) :
  bw_rclosed s = true -> bw_rclosed (main_step s) = true.
Proof.
  intros Hr. unfold main_step.
  destruct (bw_main s) as [[resp e|max k|k]|resp e]; try (simpl; assumption); try reflexivity.
  destruct (bw_pipe s) as [[|b pending]|]; try destruct (bw_wclosed s); simpl; assumption.
Qed.

(** X10: the feeder goroutine is not left waiting. Once the read end of
    the pipe is closed (the caller's deferred pipereader.Close() has run,
    as it has when BlockWrite returns), the feeder needs at most two
    steps per chunk still to copy and five more to finish: under every
    schedule that gives it that many turns it ends, done or panicked,
    and is never left blocked on the pipe. *)
Theorem feeder_finishes (sched : list Thread) (s : BW) :
  bw_rclosed s = true ->
  (feeder_steps_left (bw_feeder s) <= feeder_turns sched)%nat ->
  bw_feeder (bw_run sched s) = FDone \/
  exists p, bw_feeder (bw_run sched s) = FPanicked p.
Proof.
  revert s. induction sched as [|t sched IH]; intros s Hr Hn.
  - unfold feeder_turns in Hn. simpl in Hn. change (bw_run [] s) with s.
    destruct (bw_feeder s); simpl in Hn; try lia; eauto.
  - rewrite bw_run_cons. unfold feeder_turns in Hn. rewrite filter_cons in Hn.
    destruct t; simpl in *.
    + destruct (main_step_frame s) as (_ & Hf & _).
      apply IH; [apply main_step_rclosed, Hr|]. rewrite Hf. exact Hn.
    + destruct (feeder_step_frame s) as (_ & _ & _ & _ & Hrc).
      apply IH; [rewrite Hrc; exact Hr|].
      unfold feeder_turns. destruct (feeder_step_progress s Hr); lia.
Qed.

Lemma feeder_finishes_witness :
  let s1 := bw_run [Feeder; Main; Main]
              (Ex.begin (Ex.gateway false) Ex.opts_hello Ex.world) in
  bw_rclosed s1 = true /\
  (exists resp, bw_main s1 = MDone resp None) /\
  (exists c rest fin n, bw_feeder s1 = FPipe c rest fin n) /\
  (feeder_steps_left (bw_feeder s1) <= feeder_turns [Feeder; Feeder; Feeder; Feeder; Feeder; Feeder])%nat /\
  (bw_feeder (bw_run [Feeder; Feeder; Feeder; Feeder; Feeder; Feeder] s1) = FDone \/
   exists p, bw_feeder (bw_run [Feeder; Feeder; Feeder; Feeder; Feeder; Feeder] s1)
             = FPanicked p).
Proof.
  intros s1.
  assert (H1 : bw_rclosed s1 = true) by (vm_compute; reflexivity).
  assert (H2 : (feeder_steps_left (bw_feeder s1)
                <= feeder_turns [Feeder; Feeder; Feeder; Feeder; Feeder; Feeder])%nat)
    by (vm_compute; lia).
  split; [exact H1|].
  split; [eexists; vm_compute; reflexivity|].
  split; [do 4 eexists; vm_compute; reflexivity|].
  split; [exact H2|].
  exact (feeder_finishes [Feeder; Feeder; Feeder; Feeder; Feeder; Feeder] s1 H1 H2).
Defined.


(** ** System calls that meet no fault *)

Lemma os_OpenFile_enoent (name : string) (flags : Z) (w : World) :
  faults w = [] -> files w !! name = None -> name ∉ dirs w ->
  has_flag flags O_CREATE = true -> dir_exists w (parent_dir name) = false ->
  os_OpenFile name flags w =
    (Ok (None, Some (ErrSys "open" name ENOENT)),
     set_trace (EvSys (SysOpen name flags) (Some ENOENT) :: trace w) w).
Proof.
  intros Hfl Hf Hd Hc Hp. unfold os_OpenFile. munfold. rewrite Hfl. simpl.
  rewrite Hf, bool_decide_eq_false_2 by exact Hd. rewrite Hc, Hp. reflexivity.
Qed.

Lemma os_OpenFile_create (name : string) (flags : Z) (w : World) :
  faults w = [] -> files w !! name = None -> name ∉ dirs w ->
  has_flag flags O_CREATE = true -> dir_exists w (parent_dir name) = true ->
  os_OpenFile name flags w =
    (Ok (Some (fresh (dom (fds w))), None),
     set_fds (<[fresh (dom (fds w)) :=
                  {| of_name := name; of_ino := fresh (dom (inodes w)); of_off := 0 |}]> (fds w))
       (set_trace (EvSys (SysOpen name flags) None :: trace w)
          (set_files (<[name := fresh (dom (inodes w))]> (files w))
             (set_inodes (<[fresh (dom (inodes w)) := {| i_data := []; i_atime := now w |}]>
                            (inodes w)) w)))).
Proof.
  intros Hfl Hf Hd Hc Hp. unfold os_OpenFile, new_fd. munfold. rewrite Hfl. simpl.
  rewrite Hf, bool_decide_eq_false_2 by exact Hd. rewrite Hc, Hp. reflexivity.
Qed.

Lemma os_Mkdir_ok (name : string) (w : World) :
  faults w = [] ->
  dir_exists w (filepath.Clean name) = false -> files w !! filepath.Clean name = None ->
  dir_exists w (parent_dir (filepath.Clean name)) = true ->
  os_Mkdir name w =
    (Ok None,
     set_trace (EvSys (SysMkdir name) None :: trace w)
       (set_dirs ({[filepath.Clean name]} ∪ dirs w) w)).
Proof.
  intros Hfl Hd Hf Hp. unfold os_Mkdir. munfold. rewrite Hfl. simpl.
  rewrite Hd, Hf. simpl. rewrite Hp. reflexivity.
Qed.

Lemma dir_exists_mkdir (w : World) (d : string) (evs : list Event) :
  dir_exists (set_trace evs (set_dirs ({[d]} ∪ dirs w) w)) d = true.
Proof.
  unfold dir_exists. simpl.
  rewrite (bool_decide_eq_true_2 (d ∈ {[d]} ∪ dirs w))
    by (apply elem_of_union; left; apply elem_of_singleton; reflexivity).
  apply orb_true_r.
Qed.

Lemma openFile_parent_spec (name : string) (flags : Z) (w : World) :
  faults w = [] -> has_flag flags O_CREATE = true ->
  files w !! name = None -> name ∉ dirs w -> name <> parent_dir name ->
  dir_exists w (parent_dir name) = false -> files w !! parent_dir name = None ->
  dir_exists w (parent_dir (parent_dir name)) = true ->
  exists fd ino w',
    openFile name flags w = (Ok (Some fd, None), w') /\
    dirs w' = {[parent_dir name]} ∪ dirs w /\
    files w' = <[name := ino]> (files w) /\
    inodes w' !! ino = Some {| i_data := []; i_atime := now w |} /\
    fds w' !! fd = Some {| of_name := name; of_ino := ino; of_off := 0 |} /\
    trace w' = [EvSys (SysOpen name flags) None;
                EvSys (SysMkdir (fst (filepath.Split name))) None;
                EvSys (SysOpen name flags) (Some ENOENT)] ++ trace w /\
    faults w' = [] /\ cache w' = cache w /\ heap w' = heap w.
Proof.
  intros Hfl Hc Hf Hd Hne Hp Hpf Hpp. unfold openFile.
  rewrite (bind_eq _ _ _ _ _ (os_OpenFile_enoent name flags w Hfl Hf Hd Hc Hp)).
  cbn [IsNotExist]. unfold parent_dir in *.
  destruct (filepath.Split name) as [parent base] eqn:Es. cbn [fst] in *.
  set (w1 := set_trace _ w).
  rewrite (bind_eq _ _ _ _ _ (os_Mkdir_ok parent w1 Hfl Hp Hpf Hpp)).
  set (w2 := set_trace _ (set_dirs _ w1)).
  assert (Hd2 : name ∉ dirs w2).
  { subst w2 w1. simpl. intros Hin. apply elem_of_union in Hin.
    destruct Hin as [Hin|Hin]; [apply elem_of_singleton in Hin; congruence|contradiction]. }
  assert (Hp2 : dir_exists w2 (parent_dir name) = true).
  { unfold parent_dir. rewrite Es. cbn [fst]. subst w2. apply dir_exists_mkdir. }
  rewrite (os_OpenFile_create name flags w2 Hfl Hf Hd2 Hc Hp2).
  do 3 eexists. split; [reflexivity|]. simpl.
  rewrite !lookup_insert_eq. repeat split; assumption.
Qed.

(** X11: openFile creates the parent directory when that is what is
    missing. With no system call made to fail: if neither the file nor
    its parent directory is there, nothing else has the parent's name,
    and the parent's own parent exists, then openFile with O_CREATE makes
    the directory, creates the file empty and returns a descriptor on it
    at offset 0, after one failed open, one mkdir and one open. *)
Theorem openFile_makes_parent (name : string) (flags : Z) (w : World) :
  faults w = [] -> has_flag flags O_CREATE = true ->
  files w !! name = None -> name ∉ dirs w -> name <> parent_dir name ->
  dir_exists w (parent_dir name) = false -> files w !! parent_dir name = None ->
  dir_exists w (parent_dir (parent_dir name)) = true ->
  exists fd ino w',
    openFile name flags w = (Ok (Some fd, None), w') /\
    dirs w' = {[parent_dir name]} ∪ dirs w /\
    files w' = <[name := ino]> (files w) /\
    inodes w' !! ino = Some {| i_data := []; i_atime := now w |} /\
    fds w' !! fd = Some {| of_name := name; of_ino := ino; of_off := 0 |} /\
    trace w' = [EvSys (SysOpen name flags) None;
                EvSys (SysMkdir (fst (filepath.Split name))) None;
                EvSys (SysOpen name flags) (Some ENOENT)] ++ trace w.
Proof.
  intros Hfl Hc Hf Hd Hne Hp Hpf Hpp.
  destruct (openFile_parent_spec name flags w Hfl Hc Hf Hd Hne Hp Hpf Hpp)
    as (fd & ino & w' & E & H1 & H2 & H3 & H4 & H5 & _).
  exists fd, ino, w'. auto 10.
Qed.

Lemma openFile_makes_parent_witness :
  let name := "/var/cache/keep/5d4/5d41402abc4b2a76b9719d911017c592.keepcacheblock" in
  let flags := Z.lor O_CREATE O_RDWR in
  parent_dir name = "/var/cache/keep/5d4" /\
  exists fd ino w',
    openFile name flags Ex.world = (Ok (Some fd, None), w') /\
    dirs w' = {[parent_dir name]} ∪ dirs Ex.world /\
    files w' = <[name := ino]> (files Ex.world) /\
    inodes w' !! ino = Some {| i_data := []; i_atime := now Ex.world |} /\
    fds w' !! fd = Some {| of_name := name; of_ino := ino; of_off := 0 |} /\
    trace w' = [EvSys (SysOpen name flags) None;
                EvSys (SysMkdir (fst (filepath.Split name))) None;
                EvSys (SysOpen name flags) (Some ENOENT)] ++ trace Ex.world.
Proof.
  intros name flags. split; [vm_compute; reflexivity|].
  apply (openFile_makes_parent name flags Ex.world).
  - reflexivity.
  - reflexivity.
  - reflexivity.
  - vm_compute. intros H. discriminate H.
  - vm_compute. discriminate.
  - vm_compute. reflexivity.
  - vm_compute. reflexivity.
  - vm_compute. reflexivity.
Defined.

Lemma os_Rename_enoent (old new : string) (ino : nat) (w : World) :
  faults w = [] -> files w !! old = Some ino -> new ∉ dirs w ->
  dir_exists w (parent_dir new) = false ->
  os_Rename old new w =
    (Ok (Some (ErrSys "rename" old ENOENT)),
     set_trace (EvSys (SysRename old new) (Some ENOENT) :: trace w) w).
Proof.
  intros Hfl Hf Hd Hp. unfold os_Rename. munfold. rewrite Hfl. simpl.
  rewrite Hf, bool_decide_eq_false_2 by exact Hd. rewrite Hp. reflexivity.
Qed.

Lemma os_Rename_ok (old new : string) (ino : nat) (w : World) :
  faults w = [] -> files w !! old = Some ino -> new ∉ dirs w ->
  dir_exists w (parent_dir new) = true ->
  os_Rename old new w =
    (Ok None,
     set_trace (EvSys (SysRename old new) None :: trace w)
       (set_files (<[new := ino]> (delete old (files w))) w)).
Proof.
  intros Hfl Hf Hd Hp. unfold os_Rename. munfold. rewrite Hfl. simpl.
  rewrite Hf, bool_decide_eq_false_2 by exact Hd. rewrite Hp. reflexivity.
Qed.

(** X12: rename creates the parent directory of the new path when that
    is what is missing. With no system call made to fail: if the old
    file is there, the new path's parent directory is not, nothing else
    has that parent's name, and the parent's own parent exists, then
    rename makes the directory and moves the file: the new name has the
    old file's inode, the old name is gone, and no error is returned. *)
Theorem rename_makes_parent (old new : string) (ino : nat) (w : World) :
  faults w = [] -> files w !! old = Some ino ->
  new ∉ dirs w -> new <> parent_dir new ->
  dir_exists w (parent_dir new) = false -> files w !! parent_dir new = None ->
  dir_exists w (parent_dir (parent_dir new)) = true ->
  exists w',
    rename old new w = (Ok None, w') /\
    dirs w' = {[parent_dir new]} ∪ dirs w /\
    files w' = <[new := ino]> (delete old (files w)) /\
    inodes w' = inodes w /\
    trace w' = [EvSys (SysRename old new) None;
                EvSys (SysMkdir (fst (filepath.Split new))) None;
                EvSys (SysRename old new) (Some ENOENT)] ++ trace w.
Proof.
  intros Hfl Hf Hd Hne Hp Hpf Hpp. unfold rename.
  rewrite (bind_eq _ _ _ _ _ (os_Rename_enoent old new ino w Hfl Hf Hd Hp)).
  cbv beta iota. unfold parent_dir in *.
  destruct (filepath.Split new) as [parent base] eqn:Es. cbn [fst] in *.
  set (w1 := set_trace _ w).
  rewrite (bind_eq _ _ _ _ _ (os_Mkdir_ok parent w1 Hfl Hp Hpf Hpp)).
  set (w2 := set_trace _ (set_dirs _ w1)).
  assert (Hd2 : new ∉ dirs w2).
  { subst w2 w1. simpl. intros Hin. apply elem_of_union in Hin.
    destruct Hin as [Hin|Hin]; [apply elem_of_singleton in Hin; congruence|contradiction]. }
  assert (Hp2 : dir_exists w2 (parent_dir new) = true).
  { unfold parent_dir. rewrite Es. cbn [fst]. subst w2. apply dir_exists_mkdir. }
  rewrite (os_Rename_ok old new ino w2 Hfl Hf Hd2 Hp2).
  eexists. split; [reflexivity|]. simpl. repeat split.
Qed.

Lemma rename_makes_parent_witness :
  let s := bw_run [Feeder; Main; Feeder; Feeder; Feeder; Feeder]
             (Ex.begin (Ex.gateway true) Ex.opts_hello Ex.world) in
  let w := bw_world s in
  let old := "/var/cache/keep/tmp/1f.0xc000104f00.tmp" in
  let new := "/var/cache/keep/5d4/5d41402abc4b2a76b9719d911017c592.keepcacheblock" in
  bw_feeder s = FRename "5d41402abc4b2a76b9719d911017c592" /\
  files w !! old = Some 0%nat /\
  exists w',
    rename old new w = (Ok None, w') /\
    dirs w' = {[parent_dir new]} ∪ dirs w /\
    files w' = <[new := 0%nat]> (delete old (files w)) /\
    inodes w' = inodes w /\
    trace w' = [EvSys (SysRename old new) None;
                EvSys (SysMkdir (fst (filepath.Split new))) None;
                EvSys (SysRename old new) (Some ENOENT)] ++ trace w.
Proof.
  intros s w old new.
  assert (Hf : files w !! old = Some 0%nat) by (vm_compute; reflexivity).
  split; [vm_compute; reflexivity|]. split; [exact Hf|].
  apply (rename_makes_parent old new 0%nat w).
  - vm_compute. reflexivity.
  - exact Hf.
  - vm_compute. intros H. discriminate H.
  - vm_compute. discriminate.
  - vm_compute. reflexivity.
  - vm_compute. reflexivity.
  - vm_compute. reflexivity.
Defined.


(** ** Calls on an open cache file *)

Lemma flock_open (how : LockHow) (w : World) (name : string) (fd ino : nat) (d : bytes)
  (off : Z) :
  file_open w name fd ino d off ->
  exists w', syscall_Flock fd how w = (Ok None, w') /\
    file_open w' name fd ino d off /\ gw_history w' = gw_history w.
Proof.
  intros (Hfl & Hf & (i & Hi & Hd) & Hfd). unfold syscall_Flock. munfold.
  rewrite Hfl. simpl. rewrite Hfd. simpl.
  eexists. split; [reflexivity|]. split; [|reflexivity].
  unfold file_open. simpl. eauto 10.
Qed.

Lemma seek_end_open (w : World) (name : string) (fd ino : nat) (d : bytes) (off : Z) :
  file_open w name fd ino d off ->
  exists w', File_Seek fd 0 SeekEnd w = (Ok (Z.of_nat (List.length d), None), w') /\
    file_open w' name fd ino d (Z.of_nat (List.length d)) /\
    gw_history w' = gw_history w.
Proof.
  intros (Hfl & Hf & (i & Hi & Hd) & Hfd). unfold File_Seek, inode_size. munfold.
  rewrite Hfl. simpl. rewrite Hfd. simpl. rewrite Hi, Hd, Z.add_0_r.
  replace (Z.of_nat (List.length d) <? 0) with false by (symmetry; apply Z.ltb_ge; lia).
  simpl. eexists. split; [reflexivity|]. split; [|reflexivity].
  unfold file_open. simpl. rewrite lookup_insert_eq. eauto 10.
Qed.

Lemma seek_start_open (w : World) (name : string) (fd ino : nat) (d : bytes) (off : Z) :
  file_open w name fd ino d off ->
  exists w', File_Seek fd 0 SeekStart w = (Ok (0, None), w') /\
    file_open w' name fd ino d 0 /\ gw_history w' = gw_history w.
Proof.
  intros (Hfl & Hf & (i & Hi & Hd) & Hfd). unfold File_Seek. munfold.
  rewrite Hfl. simpl. rewrite Hfd. simpl.
  eexists. split; [reflexivity|]. split; [|reflexivity].
  unfold file_open. simpl. rewrite lookup_insert_eq. eauto 10.
Qed.

Lemma write_open (data : bytes) (w : World) (name : string) (fd ino : nat) (d : bytes)
  (off : Z) :
  file_open w name fd ino d off ->
  exists w', File_Write_ok fd data w = (Ok (Z.of_nat (List.length data), None), w') /\
    file_open w' name fd ino (overwrite d (Z.to_nat off) data)
      (off + Z.of_nat (List.length data)) /\
    gw_history w' = gw_history w.
Proof.
  intros (Hfl & Hf & (i & Hi & Hd) & Hfd). unfold File_Write_ok. munfold.
  rewrite Hfd. simpl. rewrite Hi. simpl.
  eexists. split; [reflexivity|]. split; [|reflexivity].
  unfold file_open. simpl. rewrite !lookup_insert_eq, Hd. eauto 10.
Qed.

Lemma truncate_open (n : Z) (w : World) (name : string) (fd ino : nat) (d : bytes)
  (off : Z) :
  0 <= n -> file_open w name fd ino d off ->
  exists w', File_Truncate fd n w = (Ok tt, w') /\
    file_open w' name fd ino
      (take (Z.to_nat n) d ++ repeat Byte.x00 (Z.to_nat n - List.length d)) off /\
    gw_history w' = gw_history w.
Proof.
  intros Hn (Hfl & Hf & (i & Hi & Hd) & Hfd). unfold File_Truncate. munfold.
  rewrite Hfd. simpl. rewrite Hi.
  replace (n <? 0) with false by (symmetry; apply Z.ltb_ge; lia).
  simpl. eexists. split; [reflexivity|]. split; [|reflexivity].
  unfold file_open. simpl. rewrite !lookup_insert_eq, Hd. eauto 10.
Qed.

Lemma readat_open (len o : Z) (w : World) (name : string) (fd ino : nat) (d : bytes)
  (off : Z) :
  0 <= o -> file_open w name fd ino d off ->
  exists w', File_ReadAt fd len o w = (Ok (read_result d len o), w') /\
    file_open w' name fd ino d off /\ gw_history w' = gw_history w.
Proof.
  intros Ho (Hfl & Hf & (i & Hi & Hd) & Hfd). unfold File_ReadAt, read_result.
  replace (o <? 0) with false by (symmetry; apply Z.ltb_ge; lia).
  munfold. rewrite Hfl. simpl. rewrite Hfd. simpl. rewrite Hi. simpl. rewrite Hd.
  eexists. split; [reflexivity|]. split; [|reflexivity].
  unfold file_open. simpl. rewrite !lookup_insert_eq. eauto 10.
Qed.

Lemma readall_open (w : World) (name : string) (fd ino : nat) (d : bytes) :
  file_open w name fd ino d 0 ->
  exists w', File_ReadAll fd w = (Ok (d, None), w') /\
    file_open w' name fd ino d (Z.of_nat (List.length d)) /\
    gw_history w' = gw_history w.
Proof.
  intros (Hfl & Hf & (i & Hi & Hd) & Hfd). unfold File_ReadAll. munfold.
  rewrite Hfl. simpl. rewrite Hfd. simpl. rewrite Hi. simpl. rewrite Hd, drop_0.
  eexists. split; [reflexivity|]. split; [|reflexivity].
  unfold file_open. simpl. rewrite !lookup_insert_eq. eauto 10.
Qed.

(** After the close the file is as it was. *)
Lemma close_open (w : World) (name : string) (fd ino : nat) (d : bytes) (off : Z) :
  file_open w name fd ino d off ->
  exists w', File_Close fd w = (Ok None, w') /\
    faults w' = [] /\ files w' = files w /\ inodes w' = inodes w /\
    fds w' = delete fd (fds w) /\ cache w' = cache w /\ heap w' = heap w /\
    gw_history w' = gw_history w.
Proof.
  intros (Hfl & Hf & (i & Hi & Hd) & Hfd). unfold File_Close. munfold.
  rewrite Hfd. simpl. rewrite Hfl. simpl.
  eexists. split; [reflexivity|]. simpl. repeat split; auto.
Qed.

Lemma log_open (e : Event) (w : World) (name : string) (fd ino : nat) (d : bytes) (off : Z) :
  file_open w name fd ino d off ->
  file_open (set_trace (e :: trace w) w) name fd ino d off.
Proof. intros H. exact H. Qed.

(** The gateway's [BlockRead] into the open file. *)
Lemma upstream_BlockRead_open (gw : KeepGateway) (L : string) (data : bytes) (n : Z)
  (err : option error) (w : World) (name : string) (fd ino : nat) (d : bytes) (off : Z) :
  gw_BlockRead gw (gw_history w) L = (data, n, err) ->
  file_open w name fd ino d off ->
  exists w',
    upstream_BlockRead gw L (fun data => bind (File_Write_ok fd data) (fun _ => ret tt)) w
      = (Ok (n, err), w') /\
    file_open w' name fd ino (overwrite d (Z.to_nat off) data)
      (off + Z.of_nat (List.length data)) /\
    gw_history w' = GwBlockRead L :: gw_history w.
Proof.
  intros Hgw Hopen. unfold upstream_BlockRead. rewrite bind_get, Hgw.
  set (w1 := set_trace (EvGw (GwBlockRead L) :: trace w) w).
  destruct (write_open data w1 name fd ino d off (log_open _ w _ _ _ _ _ Hopen))
    as (w2 & E2 & H2 & Hh2).
  exists w2. split.
  - unfold bind at 1. unfold log, modify. fold w1.
    rewrite bind_assoc, (bind_eq _ _ _ _ _ E2). reflexivity.
  - split; [exact H2|]. rewrite Hh2. reflexivity.
Qed.

(** Opening a file that is there. *)
Lemma os_OpenFile_existing (name : string) (flags : Z) (ino : nat) (i : Inode) (w : World) :
  faults w = [] -> files w !! name = Some ino -> inodes w !! ino = Some i ->
  has_flag flags O_CREATE && has_flag flags O_EXCL = false ->
  exists w',
    os_OpenFile name flags w = (Ok (Some (fresh (dom (fds w))), None), w') /\
    file_open w' name (fresh (dom (fds w))) ino (i_data i) 0 /\
    gw_history w' = gw_history w /\ cache w' = cache w /\ heap w' = heap w /\
    fds w' = <[fresh (dom (fds w)) := {| of_name := name; of_ino := ino; of_off := 0 |}]> (fds w) /\
    files w' = files w /\ inodes w' = inodes w /\ dirs w' = dirs w.
Proof.
  intros Hfl Hf Hi Hx. unfold os_OpenFile, new_fd. munfold. rewrite Hfl. simpl.
  rewrite Hf, Hx. simpl.
  eexists. split; [reflexivity|]. simpl.
  split; [|repeat split].
  unfold file_open. simpl. rewrite lookup_insert_eq. eauto 10.
Qed.

Lemma openFile_existing (name : string) (flags : Z) (ino : nat) (i : Inode) (w : World) :
  faults w = [] -> files w !! name = Some ino -> inodes w !! ino = Some i ->
  has_flag flags O_CREATE && has_flag flags O_EXCL = false ->
  exists fd w',
    openFile name flags w = (Ok (Some fd, None), w') /\
    file_open w' name fd ino (i_data i) 0 /\
    gw_history w' = gw_history w /\ cache w' = cache w /\ heap w' = heap w.
Proof.
  intros Hfl Hf Hi Hx.
  destruct (os_OpenFile_existing name flags ino i w Hfl Hf Hi Hx)
    as (w' & E & Ho & Hh & Hc & Hhp & _).
  exists (fresh (dom (fds w))), w'. unfold openFile.
  rewrite (bind_eq _ _ _ _ _ E). simpl. auto.
Qed.

(** Opening with O_CREATE a file that is not there and can be created. *)
Lemma openFile_creates (name : string) (flags : Z) (w : World) :
  faults w = [] -> has_flag flags O_CREATE = true -> can_create w name ->
  exists fd ino w',
    openFile name flags w = (Ok (Some fd, None), w') /\
    file_open w' name fd ino [] 0 /\
    gw_history w' = gw_history w /\ cache w' = cache w /\ heap w' = heap w.
Proof.
  intros Hfl Hc (Hf & Hd & [Hp|(Hne & Hp & Hpf & Hpp)]).
  - exists (fresh (dom (fds w))), (fresh (dom (inodes w))). eexists. unfold openFile.
    rewrite (bind_eq _ _ _ _ _ (os_OpenFile_create name flags w Hfl Hf Hd Hc Hp)).
    simpl. split; [reflexivity|]. split; [|repeat split].
    unfold file_open. simpl. rewrite !lookup_insert_eq. eauto 10.
  - destruct (openFile_parent_spec name flags w Hfl Hc Hf Hd Hne Hp Hpf Hpp)
      as (fd & ino & w' & E & _ & Hfiles & Hino & Hfd & Ht & Hfl' & Hc' & Hh').
    exists fd, ino, w'. split; [exact E|]. split; [|split; [|auto]].
    + unfold file_open. rewrite Hfiles, lookup_insert_eq. eauto 10.
    + unfold gw_history. rewrite Ht. reflexivity.
Qed.


(** ** Reads that miss, and reads after them *)

(** The quick path on a file that is not there: the open fails, the
    error is kept in the new pool entry and returned. *)
Lemma quickReadAt_missing (name : string) (len_dst offset : Z) (w : World) :
  faults w = [] -> files w !! name = None -> name ∉ dirs w -> pool_ready w name ->
  exists w',
    quickReadAt name len_dst offset w
      = (Ok ([], Some (ErrSys "open" name ENOENT)), w') /\
    faults w' = [] /\ files w' = files w /\ dirs w' = dirs w /\
    inodes w' = inodes w /\ fds w' = fds w /\ Dir (cache w') = Dir (cache w) /\
    gw_history w' = gw_history w /\ stale_entry w' name.
Proof.
  intros Hfl Hf Hd Hready. unfold quickReadAt, quickReadAt_locked.
  destruct (choose_heldopenMax_spec w)
    as (w0 & E0 & Hmax & Hh & HD & Hheap & _ & Hf0 & Hd0 & Hi0 & Hfd0 & Hfl0 & _ & _ & Hgw0).
  rewrite !bind_assoc, (bind_eq _ _ _ _ _ E0), bind_assoc, bind_get.
  unfold pool_ready in Hready. rewrite <- Hh in Hready.
  assert (Hnone : heldopen (cache w0) ≫= (fun m => m !! name) = None).
  { destruct (heldopen (cache w0)) as [m|]; [exact (proj1 Hready)|reflexivity]. }
  rewrite Hnone. cbv zeta.
  assert (Hpub : exists m0,
            (match heldopen (cache w0) with
             | None => Some ∅
             | Some m => if Z.of_nat (size m) >? heldopenMax (cache w0) then None else Some m
             end) = Some m0).
  { destruct (heldopen (cache w0)) as [m|]; [|eauto].
    rewrite Hmax. replace (Z.of_nat (size m) >? cap_of w) with false; [eauto|].
    symmetry. rewrite Z.gtb_ltb. apply Z.ltb_ge. exact (proj2 Hready). }
  destruct Hpub as (m0 & Hpub).
  unfold open_heldopen, os_OpenFile. munfold. simpl.
  destruct (heldopen (cache w0)) as [m|] eqn:Em; simpl.
  - destruct (Z.of_nat (size m) >? heldopenMax (cache w0)); [discriminate Hpub|].
    simpl. rewrite Em. simpl. rewrite Hfl0, Hfl. simpl. rewrite Hf0, Hf.
    rewrite Hd0, bool_decide_eq_false_2 by exact Hd. simpl.
    rewrite lookup_insert_eq. simpl. rewrite lookup_insert_eq. simpl.
    eexists. split; [reflexivity|].
    split; [simpl; congruence|]. split; [simpl; congruence|].
    split; [simpl; congruence|]. split; [simpl; congruence|].
    split; [simpl; congruence|]. split; [simpl; congruence|].
    split.
    { rewrite <- Hgw0.
      apply (gw_history_quiet w0 _ [EvSys (SysOpen name O_RDONLY) (Some ENOENT)]);
        [reflexivity|repeat constructor]. }
    unfold stale_entry. simpl. do 4 eexists.
    split; [reflexivity|]. rewrite !lookup_insert_eq. repeat split.
  - rewrite Hfl0, Hfl. simpl. rewrite Hf0, Hf.
    rewrite Hd0, bool_decide_eq_false_2 by exact Hd. simpl.
    rewrite lookup_insert_eq. simpl. rewrite lookup_insert_eq. simpl.
    eexists. split; [reflexivity|].
    split; [simpl; congruence|]. split; [simpl; congruence|].
    split; [simpl; congruence|]. split; [simpl; congruence|].
    split; [simpl; congruence|]. split; [simpl; congruence|].
    split.
    { rewrite <- Hgw0.
      apply (gw_history_quiet w0 _ [EvSys (SysOpen name O_RDONLY) (Some ENOENT)]);
        [reflexivity|repeat constructor]. }
    unfold stale_entry. simpl. do 4 eexists.
    split; [reflexivity|]. rewrite !lookup_insert_eq. repeat split.
Qed.

Lemma overwrite_fill (d data : bytes) :
  take (List.length data) (overwrite d 0 data)
    ++ repeat Byte.x00 (List.length data - List.length (overwrite d 0 data)) = data.
Proof.
  unfold overwrite. simpl.
  rewrite take_app_length.
  replace (List.length data - List.length (data ++ drop (List.length data) d))%nat
    with 0%nat by (rewrite length_app; lia).
  apply app_nil_r.
Qed.

(** The slow path on a file too short for the read: the block is fetched
    from the gateway into the file, and the read is served from it. *)
Lemma ReadAt_slow_fills (gw : KeepGateway) (L name : string) (len_dst offset : Z)
  (w w1 : World) (fd ino : nat) (d data : bytes) :
  openFile name (Z.lor O_CREATE O_RDWR) w = (Ok (Some fd, None), w1) ->
  file_open w1 name fd ino d 0 ->
  0 <= offset -> len_dst + offset < 2 ^ 63 ->
  Z.of_nat (List.length d) < len_dst + offset ->
  gw_BlockRead gw (gw_history w1) L = (data, Z.of_nat (List.length data), None) ->
  exists w',
    ReadAt_slow gw L name len_dst offset w = (Ok (read_result data len_dst offset), w') /\
    gw_history w' = GwBlockRead L :: gw_history w1 /\
    faults w' = [] /\ files w' !! name = Some ino /\
    (exists i, inodes w' !! ino = Some i /\ i_data i = data).
Proof.
  intros Hopen Hfo Hoff Hrange Hshort Hgw.
  assert (Hlt : (Z.of_nat (List.length d) <? int64 (len_dst + offset)) = true).
  { rewrite int64_id by lia. apply Z.ltb_lt. exact Hshort. }
  unfold ReadAt_slow. rewrite (bind_eq _ _ _ _ _ Hopen). cbv beta iota.
  destruct (flock_open LOCK_SH w1 name fd ino d 0 Hfo) as (w2 & E2 & H2 & G2).
  rewrite bind_assoc, (bind_eq _ _ _ _ _ E2). cbv beta iota.
  destruct (seek_end_open w2 name fd ino d 0 H2) as (w3 & E3 & H3 & G3).
  rewrite bind_assoc, (bind_eq _ _ _ _ _ E3). cbv beta iota. rewrite Hlt.
  destruct (flock_open LOCK_EX w3 name fd ino d _ H3) as (w4 & E4 & H4 & G4).
  rewrite bind_assoc, (bind_eq _ _ _ _ _ E4). cbv beta iota.
  destruct (seek_end_open w4 name fd ino d _ H4) as (w5 & E5 & H5 & G5).
  rewrite bind_assoc, (bind_eq _ _ _ _ _ E5). cbv beta iota. rewrite Hlt.
  destruct (seek_start_open w5 name fd ino d _ H5) as (w6 & E6 & H6 & G6).
  rewrite bind_assoc, (bind_eq _ _ _ _ _ E6). cbv beta iota.
  assert (G : gw_history w6 = gw_history w1) by congruence.
  rewrite <- G in Hgw.
  destruct (upstream_BlockRead_open gw L data _ None w6 name fd ino d 0 Hgw H6)
    as (w7 & E7 & H7 & G7).
  rewrite bind_assoc, (bind_eq _ _ _ _ _ E7). cbv beta iota.
  destruct (truncate_open (Z.of_nat (List.length data)) w7 name fd ino _ _
              ltac:(lia) H7) as (w8 & E8 & H8 & G8).
  rewrite Nat2Z.id in H8. change (Z.to_nat 0) with 0%nat in H8.
  rewrite overwrite_fill in H8.
  rewrite bind_assoc, (bind_eq _ _ _ _ _ E8).
  destruct (readat_open len_dst offset w8 name fd ino data _ Hoff H8) as (w9 & E9 & H9 & G9).
  rewrite (bind_eq _ _ _ _ _ E9).
  destruct (close_open w9 name fd ino data _ H9)
    as (w10 & E10 & Hfl & Hfiles & Hinodes & _ & _ & _ & G10).
  rewrite (bind_eq _ _ _ _ _ E10).
  destruct H9 as (_ & Hf9 & Hi9 & _).
  exists w10. split; [reflexivity|].
  split; [congruence|]. split; [exact Hfl|].
  rewrite Hfiles, Hinodes. auto.
Qed.

(** The slow path on a file long enough for the read: it is served from
    the file, and the gateway is not called. *)
Lemma ReadAt_slow_serves (gw : KeepGateway) (L name : string) (len_dst offset : Z)
  (w w1 : World) (fd ino : nat) (d : bytes) :
  openFile name (Z.lor O_CREATE O_RDWR) w = (Ok (Some fd, None), w1) ->
  file_open w1 name fd ino d 0 ->
  0 <= offset -> 0 <= len_dst -> len_dst + offset < 2 ^ 63 ->
  len_dst + offset <= Z.of_nat (List.length d) ->
  exists w',
    ReadAt_slow gw L name len_dst offset w = (Ok (read_result d len_dst offset), w') /\
    gw_history w' = gw_history w1 /\
    faults w' = [] /\ files w' !! name = Some ino /\
    (exists i, inodes w' !! ino = Some i /\ i_data i = d).
Proof.
  intros Hopen Hfo Hoff Hlen Hrange Hlong.
  assert (Hlt : (Z.of_nat (List.length d) <? int64 (len_dst + offset)) = false).
  { rewrite int64_id by lia. apply Z.ltb_ge. exact Hlong. }
  unfold ReadAt_slow. rewrite (bind_eq _ _ _ _ _ Hopen). cbv beta iota.
  destruct (flock_open LOCK_SH w1 name fd ino d 0 Hfo) as (w2 & E2 & H2 & G2).
  rewrite bind_assoc, (bind_eq _ _ _ _ _ E2). cbv beta iota.
  destruct (seek_end_open w2 name fd ino d 0 H2) as (w3 & E3 & H3 & G3).
  rewrite bind_assoc, (bind_eq _ _ _ _ _ E3). cbv beta iota. rewrite Hlt.
  rewrite bind_assoc, bind_ret. cbv beta iota.
  destruct (seek_end_open w3 name fd ino d _ H3) as (w5 & E5 & H5 & G5).
  rewrite bind_assoc, (bind_eq _ _ _ _ _ E5). cbv beta iota. rewrite Hlt.
  destruct (readat_open len_dst offset w5 name fd ino d _ Hoff H5) as (w9 & E9 & H9 & G9).
  rewrite (bind_eq _ _ _ _ _ E9).
  destruct (close_open w9 name fd ino d _ H9)
    as (w10 & E10 & Hfl & Hfiles & Hinodes & _ & _ & _ & G10).
  rewrite (bind_eq _ _ _ _ _ E10).
  destruct H9 as (_ & Hf9 & Hi9 & _).
  exists w10. split; [reflexivity|].
  split; [congruence|]. split; [exact Hfl|].
  rewrite Hfiles, Hinodes. auto.
Qed.

Lemma dir_exists_same (w w' : World) (d : string) :
  dirs w' = dirs w -> dir_exists w' d = dir_exists w d.
Proof. intros H. unfold dir_exists. rewrite H. reflexivity. Qed.

Lemma can_create_same (w w' : World) (name : string) :
  files w' = files w -> dirs w' = dirs w -> can_create w name -> can_create w' name.
Proof.
  intros Hf Hd. unfold can_create.
  rewrite !(dir_exists_same w w' _ Hd), Hf, Hd. auto.
Qed.

(** X13: read-through. ReadAt of a block whose cache file is not there
    (and can be created, its directory being made if needed), from a
    gateway whose BlockRead delivers the bytes [data] and reports their
    number: the block is fetched with one BlockRead and no other gateway
    call, ReadAt returns the part of [data] that was asked for (with
    io.EOF if it is shorter than dst), and the cache file is left holding
    [data]. No system call is made to fail, and the pool can take the
    entry. *)
Theorem ReadAt_reads_through (gw : KeepGateway) (L name : string) (len_dst offset : Z)
  (data : bytes) (w : World) :
  cacheFile (Dir (cache w)) L = Ok name ->
  faults w = [] -> can_create w name -> pool_ready w name ->
  0 <= offset -> 0 < len_dst + offset < 2 ^ 63 ->
  gw_BlockRead gw (gw_history w) L = (data, Z.of_nat (List.length data), None) ->
  exists w',
    ReadAt gw L len_dst offset w = (Ok (read_result data len_dst offset), w') /\
    gw_history w' = GwBlockRead L :: gw_history w /\
    exists ino i, files w' !! name = Some ino /\ inodes w' !! ino = Some i /\
                  i_data i = data.
Proof.
  intros Hc Hfl Hcan Hready Hoff Hrange Hgw.
  destruct (gotidy_ok w)
    as (w0 & Hg & HD & Hh & Hmax & Hheap & Hf & Hd & Hi & Hfd & Hfl0 & Hrl & Ht).
  assert (Hready0 : pool_ready w0 name).
  { unfold pool_ready, cap_of in *. rewrite Hh, Hmax, Hrl. exact Hready. }
  assert (Hcan0 : can_create w0 name) by (apply (can_create_same w); assumption).
  assert (Hgw0 : gw_history w0 = gw_history w) by (unfold gw_history; rewrite Ht; reflexivity).
  destruct (quickReadAt_missing name len_dst offset w0
              ltac:(congruence) (proj1 Hcan0) (proj1 (proj2 Hcan0)) Hready0)
    as (w1 & E1 & Hfl1 & Hf1 & Hd1 & _ & _ & _ & Hgw1 & _).
  assert (Hcan1 : can_create w1 name) by (apply (can_create_same w0); assumption).
  destruct (openFile_creates name (Z.lor O_CREATE O_RDWR) w1 Hfl1 eq_refl Hcan1)
    as (fd & ino & w2 & Eo & Ho & Hgw2 & _).
  assert (Hgw' : gw_BlockRead gw (gw_history w2) L
                 = (data, Z.of_nat (List.length data), None)) by (rewrite Hgw2, Hgw1, Hgw0; exact Hgw).
  destruct (ReadAt_slow_fills gw L name len_dst offset w1 w2 fd ino [] data Eo Ho Hoff
              ltac:(lia) ltac:(simpl; lia) Hgw')
    as (w' & E & Hh' & _ & Hfile & (i & Hi' & Hdata)).
  exists w'. split.
  - unfold ReadAt. rewrite (bind_eq _ _ _ _ _ Hg), bind_get, HD, Hc, bind_lift_Ok.
    rewrite (bind_eq _ _ _ _ _ E1). exact E.
  - split; [congruence|]. exists ino, i. auto.
Qed.

Lemma ReadAt_reads_through_witness :
  let gw := Ex.gateway true in
  let L := Ex.loc 1 in
  let name := Ex.cached_path 1 in
  cacheFile (Dir (cache Ex.world)) L = Ok name /\
  can_create Ex.world name /\
  exists w',
    ReadAt gw L 4 8 Ex.world = (Ok (read_result Ex.block 4 8), w') /\
    gw_history w' = GwBlockRead L :: gw_history Ex.world /\
    exists ino i, files w' !! name = Some ino /\ inodes w' !! ino = Some i /\
                  i_data i = Ex.block.
Proof.
  intros gw L name.
  assert (Hc : cacheFile (Dir (cache Ex.world)) L = Ok name) by (vm_compute; reflexivity).
  assert (Hcan : can_create Ex.world name).
  { split; [vm_compute; reflexivity|]. split; [vm_compute; intros H; discriminate H|].
    right. split; [vm_compute; discriminate|].
    split; [vm_compute; reflexivity|]. split; vm_compute; reflexivity. }
  split; [exact Hc|]. split; [exact Hcan|].
  apply (ReadAt_reads_through gw L name 4 8 Ex.block Ex.world Hc eq_refl Hcan).
  - exact I.
  - lia.
  - lia.
  - reflexivity.
Defined.

(** The quick path on an entry that recorded an error: the error is
    returned, and nothing changes but the limit being chosen. *)
Lemma quickReadAt_stale (name : string) (len_dst offset : Z) (w : World) :
  stale_entry w name ->
  exists e w',
    quickReadAt name len_dst offset w = (Ok ([], Some e), w') /\
    faults w' = faults w /\ files w' = files w /\ inodes w' = inodes w /\
    fds w' = fds w /\ dirs w' = dirs w /\ gw_history w' = gw_history w.
Proof.
  intros (m & a & ent & e & Hm & Ha & Hent & He). unfold quickReadAt, quickReadAt_locked.
  destruct (choose_heldopenMax_spec w)
    as (w0 & E0 & Hmax & Hh & HD & Hheap & _ & Hf0 & Hd0 & Hi0 & Hfd0 & Hfl0 & _ & _ & Hgw0).
  rewrite !bind_assoc, (bind_eq _ _ _ _ _ E0), bind_assoc, bind_get.
  rewrite Hh, Hm. simpl. rewrite Ha. munfold. simpl. rewrite Hheap, Hent, He.
  exists e, w0. split; [reflexivity|]. auto 10.
Qed.

(** X14: fetched once. When the cache file of a block is there and
    holds at least the bytes asked for, ReadAt serves them from the file
    and calls no gateway operation, also while the pool still has the
    entry that recorded a failed open from before the file was there
    (the state a read-through leaves): the slow path opens the file,
    finds it long enough and reads it. *)
Theorem ReadAt_after_miss (gw : KeepGateway) (L name : string) (len_dst offset : Z)
  (ino : nat) (i : Inode) (w : World) :
  cacheFile (Dir (cache w)) L = Ok name ->
  faults w = [] -> files w !! name = Some ino -> inodes w !! ino = Some i ->
  stale_entry w name ->
  0 <= offset -> 0 <= len_dst -> len_dst + offset < 2 ^ 63 ->
  len_dst + offset <= Z.of_nat (List.length (i_data i)) ->
  exists w',
    ReadAt gw L len_dst offset w = (Ok (read_result (i_data i) len_dst offset), w') /\
    gw_history w' = gw_history w.
Proof.
  intros Hc Hfl Hfile Hino Hstale Hoff Hlen Hrange Hlong.
  destruct (gotidy_ok w)
    as (w0 & Hg & HD & Hh & Hmax & Hheap & Hf & Hd & Hi & Hfd & Hfl0 & Hrl & Ht).
  assert (Hstale0 : stale_entry w0 name).
  { unfold stale_entry in *. rewrite Hh, Hheap. exact Hstale. }
  assert (Hgw0 : gw_history w0 = gw_history w) by (unfold gw_history; rewrite Ht; reflexivity).
  destruct (quickReadAt_stale name len_dst offset w0 Hstale0)
    as (e & w1 & E1 & Hfl1 & Hf1 & Hi1 & _ & _ & Hgw1).
  destruct (openFile_existing name (Z.lor O_CREATE O_RDWR) ino i w1
              ltac:(congruence) ltac:(congruence) ltac:(congruence) eq_refl)
    as (fd & w2 & Eo & Ho & Hgw2 & _).
  destruct (ReadAt_slow_serves gw L name len_dst offset w1 w2 fd ino (i_data i) Eo Ho
              Hoff Hlen Hrange Hlong)
    as (w' & E & Hh' & _).
  exists w'. split.
  - unfold ReadAt. rewrite (bind_eq _ _ _ _ _ Hg), bind_get, HD, Hc, bind_lift_Ok.
    rewrite (bind_eq _ _ _ _ _ E1). exact E.
  - congruence.
Qed.

Lemma ReadAt_after_miss_witness :
  let gw := Ex.gateway true in
  let L := Ex.loc 1 in
  let name := Ex.cached_path 1 in
  let w := snd (ReadAt gw L 4 8 Ex.world) in
  gw_history w = [GwBlockRead L] /\
  stale_entry w name /\
  read_result Ex.block 16 0 = (Ex.block, None) /\
  exists w',
    ReadAt gw L 16 0 w = (Ok (read_result Ex.block 16 0), w') /\
    gw_history w' = gw_history w.
Proof.
  intros gw L name w.
  assert (Hc : cacheFile (Dir (cache w)) L = Ok name) by (vm_compute; reflexivity).
  assert (Hf : files w !! name = Some 0%nat) by (vm_compute; reflexivity).
  assert (Hi : inodes w !! 0%nat = Some {| i_data := Ex.block; i_atime := now Ex.world |})
    by (vm_compute; reflexivity).
  assert (Hs : stale_entry w name).
  { unfold stale_entry.
    exists {[name := 0%nat]}, 0%nat,
      {| ofe_f := None; ofe_err := Some (ErrSys "open" name ENOENT) |},
      (ErrSys "open" name ENOENT).
    split; [vm_compute; reflexivity|]. split; [vm_compute; reflexivity|].
    split; [vm_compute; reflexivity|reflexivity]. }
  split; [vm_compute; reflexivity|]. split; [exact Hs|].
  split; [vm_compute; reflexivity|].
  apply (ReadAt_after_miss gw L name 16 0 0%nat
           {| i_data := Ex.block; i_atime := now Ex.world |} w Hc); try assumption.
  - vm_compute. reflexivity.
  - lia.
  - lia.
  - lia.
  - vm_compute. discriminate.
Defined.


(** ** [BlockRead] with a valid size hint *)

(** [BlockRead] once the cache file is open and the size hint is read:
    what is left is lines 389-414 and the deferred close. *)
Lemma BlockRead_parsed (gw : KeepGateway) (L name sizestr : string) (blocksize : Z)
  (w w1 : World) (fd : nat) :
  cacheFile (Dir (cache w)) L = Ok name ->
  openFile name (Z.lor O_CREATE O_RDWR) (snd (gotidy w)) = (Ok (Some fd, None), w1) ->
  BlockRead_sizestr L = Some sizestr ->
  strconv.ParseInt32 sizestr = Some blocksize -> 0 <= blocksize ->
  BlockRead gw L w =
    bind
      (bind (syscall_Flock fd LOCK_SH) (fun e =>
         match e with
         | Some e => ret ([], 0, Some e)
         | None =>
         bind (File_Seek fd 0 SeekEnd) (fun '(filesize, e) =>
         match e with
         | Some e => ret ([], 0, Some e)
         | None =>
         bind (File_Seek fd 0 SeekStart) (fun '(_, e) =>
         match e with
         | Some e => ret ([], 0, Some e)
         | None =>
         if filesize =? blocksize then
           bind (File_ReadAll fd) (fun '(data, e) =>
             ret (data, Z.of_nat (List.length data), e))
         else
         bind (syscall_Flock fd LOCK_EX) (fun e =>
         match e with
         | Some e => ret ([], 0, Some e)
         | None =>
             bind get (fun w =>
             let data := fst (fst (gw_BlockRead gw (gw_history w) L)) in
             bind (upstream_BlockRead gw L
                     (fun data => bind (File_Write_ok fd data) (fun _ => ret tt)))
               (fun '(n, e) =>
                  match e with
                  | Some e => ret (data, n, Some e)
                  | None => bind (File_Truncate fd n) (fun _ => ret (data, n, None))
                  end))
         end)
         end)
         end)
         end))
      (fun r => bind (File_Close fd) (fun _ => ret r)) w1.
Proof.
  intros Hc Hopen Hs Hp Hpos.
  destruct (gotidy_ok w) as (w0 & Hg & HD & _).
  rewrite Hg in Hopen. simpl in Hopen.
  unfold BlockRead. rewrite (bind_eq _ _ _ _ _ Hg).
  rewrite bind_get, HD, Hc, bind_lift_Ok, (bind_eq _ _ _ _ _ Hopen). cbv beta iota.
  rewrite Index_spec. unfold BlockRead_sizestr in Hs.
  destruct (String.index 0 "+" L) as [i|] eqn:Ei; [|discriminate Hs].
  assert (Hlt := index_lt "+" L 0 i ltac:(discriminate) Ei).
  replace ((Z.of_nat i <? 0) || (Z.of_nat i >=? strings.len L)) with false.
  2:{ symmetry. apply orb_false_iff. unfold strings.len. split; [apply Z.ltb_ge|]; lia. }
  replace (Z.of_nat i + 1) with (Z.of_nat (Datatypes.S i)) by lia.
  rewrite slice_from_ok by lia.
  rewrite bind_assoc, bind_lift_Ok, bind_assoc.
  set (s0 := String.substring (Datatypes.S i) (String.length L - Datatypes.S i) L) in *.
  assert (Hsz : (if 0 <? strings.Index s0 "+"
                 then lift (strings.slice_to s0 (strings.Index s0 "+"))
                 else ret s0) = ret sizestr).
  { rewrite Index_spec.
    destruct (String.index 0 "+" s0) as [[|j]|] eqn:Ej; injection Hs as <-; try reflexivity.
    assert (Hj := index_lt "+" s0 0 (Datatypes.S j) ltac:(discriminate) Ej).
    replace (0 <? Z.of_nat (Datatypes.S j)) with true by (symmetry; apply Z.ltb_lt; lia).
    rewrite slice_to_ok by lia. reflexivity. }
  rewrite Hsz, bind_ret, Hp.
  replace (blocksize <? 0) with false by (symmetry; apply Z.ltb_ge; lia).
  reflexivity.
Qed.

(** X15: BlockRead of a block that is in the cache. When the cache file
    is there and its size is the size the locator's hint gives, BlockRead
    writes the file's bytes to the caller's writer, returns their number
    and no error, and calls no gateway operation. No system call is made
    to fail. *)
Theorem BlockRead_hit (gw : KeepGateway) (L name sizestr : string) (ino : nat) (i : Inode)
  (w : World) :
  cacheFile (Dir (cache w)) L = Ok name ->
  faults w = [] -> files w !! name = Some ino -> inodes w !! ino = Some i ->
  BlockRead_sizestr L = Some sizestr ->
  strconv.ParseInt32 sizestr = Some (Z.of_nat (List.length (i_data i))) ->
  exists w',
    BlockRead gw L w = (Ok (i_data i, Z.of_nat (List.length (i_data i)), None), w') /\
    gw_history w' = gw_history w /\
    files w' !! name = Some ino /\
    exists i', inodes w' !! ino = Some i' /\ i_data i' = i_data i.
Proof.
  intros Hc Hfl Hfile Hino Hs Hp.
  destruct (gotidy_ok w)
    as (w0 & Hg & HD & Hh & Hmax & Hheap & Hf & Hd & Hi & Hfd & Hfl0 & Hrl & Ht).
  assert (Hgw0 : gw_history w0 = gw_history w) by (unfold gw_history; rewrite Ht; reflexivity).
  destruct (openFile_existing name (Z.lor O_CREATE O_RDWR) ino i w0
              ltac:(congruence) ltac:(congruence) ltac:(congruence) eq_refl)
    as (fd & w1 & Eo & Ho & Hgw1 & _).
  assert (Eo' : openFile name (Z.lor O_CREATE O_RDWR) (snd (gotidy w))
                = (Ok (Some fd, None), w1)) by (rewrite Hg; exact Eo).
  rewrite (BlockRead_parsed gw L name sizestr _ w w1 fd Hc Eo' Hs Hp ltac:(lia)).
  destruct (flock_open LOCK_SH w1 name fd ino _ 0 Ho) as (w2 & E2 & H2 & G2).
  rewrite bind_assoc, (bind_eq _ _ _ _ _ E2). cbv beta iota.
  destruct (seek_end_open w2 name fd ino _ 0 H2) as (w3 & E3 & H3 & G3).
  rewrite bind_assoc, (bind_eq _ _ _ _ _ E3). cbv beta iota.
  destruct (seek_start_open w3 name fd ino _ _ H3) as (w4 & E4 & H4 & G4).
  rewrite bind_assoc, (bind_eq _ _ _ _ _ E4). cbv beta iota.
  rewrite Z.eqb_refl.
  destruct (readall_open w4 name fd ino _ H4) as (w5 & E5 & H5 & G5).
  rewrite bind_assoc, (bind_eq _ _ _ _ _ E5). cbv beta iota. rewrite bind_ret.
  destruct (close_open w5 name fd ino _ _ H5)
    as (w6 & E6 & _ & Hfiles & Hinodes & _ & _ & _ & G6).
  rewrite (bind_eq _ _ _ _ _ E6).
  destruct H5 as (_ & Hf5 & Hi5 & _).
  exists w6. split; [reflexivity|]. split; [congruence|].
  rewrite Hfiles, Hinodes. auto.
Qed.

Lemma BlockRead_hit_witness :
  let gw := Ex.gateway true in
  let L := Ex.loc 1 in
  let name := Ex.cached_path 1 in
  let i := {| i_data := Ex.block; i_atime := 10 |} in
  BlockRead_sizestr L = Some "16" /\
  exists w',
    BlockRead gw L Ex.world_cached = (Ok (i_data i, Z.of_nat (List.length (i_data i)), None), w') /\
    gw_history w' = gw_history Ex.world_cached /\
    files w' !! name = Some 1%nat /\
    exists i', inodes w' !! 1%nat = Some i' /\ i_data i' = i_data i.
Proof.
  intros gw L name i.
  assert (Hs : BlockRead_sizestr L = Some "16") by (vm_compute; reflexivity).
  split; [exact Hs|].
  apply (BlockRead_hit gw L name "16" 1%nat i Ex.world_cached).
  - vm_compute. reflexivity.
  - reflexivity.
  - vm_compute. reflexivity.
  - vm_compute. reflexivity.
  - exact Hs.
  - vm_compute. reflexivity.
Defined.


